(** * Verification of the annotation anonymizer and the SayMore exporter

    The development embeds the two scripts of the repository,
    [anonymize_doc.py] and [export_saymore.py]:

    - [Regex]      : the fragment of Python's [re] that the scripts use
                     (backtracking matcher, [re.search], [re.sub]);
    - [Redactor]   : [anonymize_text], [_anonymize_text], [anonymize] and
                     the pre-check [anonymous_text_re];
    - [Filter]     : the ffmpeg filter strings of [anonymize_audio] and
                     [anonymize_video];
    - [Review]     : [get_duration_ms] and the clip window of
                     [review_anonymization];
    - [Store]      : the pympi transcript object as the scripts use it,
                     [set_aligned_annotation], [set_ref_annotation] and the
                     tier traversal loop;
    - [Merger]     : the per-utterance loop of [export_saymore.py], the
                     rendering of [EAF_TEMPLATE] and [to_oa];
    - [Media]      : the rewriting of the media descriptors of
                     [anonymize_doc.py].

    The facts about each module follow in the module of the same name
    with the suffix [Facts].

    Text is a list of characters ([list ascii]); dictionary keys and
    identifiers are [string]s. *)

From Stdlib Require Import List Ascii String ZArith Lia Bool Arith.
From Stdlib Require Import Numbers.DecimalString Numbers.DecimalNat Numbers.DecimalN
  Numbers.DecimalPos Numbers.DecimalZ Sorting.Permutation.
From stdpp Require Import base gmap strings list.
Import ListNotations.

Local Open Scope list_scope.

(** A Python [str] literal as a list of characters. *)
Definition str (s : string) : list ascii := list_ascii_of_string s.

(** The double quote, written by its code so that no literal needs one. *)
Definition dquote : ascii := "034"%char.
(** The line feed: the one character that [.] does not match. *)
Definition newline : ascii := "010"%char.
Definition lbracket : ascii := "["%char.

(* ================================================================== *)
(** * The regular expressions of the scripts *)
(* ================================================================== *)

Module Regex.

(** The scripts' patterns are sequences of escaped literal characters,
    the lazy wildcard [.*?] (inside a capturing group whose capture is
    never used), the optional character [\/?] and the alternation
    [(anon|name|sensitive)] of the pre-check. *)
Inductive re_item : Type :=
| Lit (c : ascii)
| LazyAny
| Opt (c : ascii)
| Alt (alts : list (list ascii)).

Definition pattern := list re_item.

Definition lits (l : list ascii) : pattern := map Lit l.

(** [strip_prefix a s] is [Some r] when [s = a ++ r]. *)
Fixpoint strip_prefix (a s : list ascii) : option (list ascii) :=
  match a with
  | [] => Some s
  | c :: a' =>
      match s with
      | c' :: s' => if Ascii.eqb c c' then strip_prefix a' s' else None
      | [] => None
      end
  end.

(** The backtracking matcher, anchored at the head of [s]: the rest of the
    subject after the first successful path, in the order in which
    Python's engine explores them ([.*?] tries the shortest extension
    first and never crosses a line feed, [?] is greedy, alternatives are
    tried left to right). *)
Fixpoint match_here (p : pattern) (s : list ascii) {struct p}
  : option (list ascii) :=
  match p with
  | [] => Some s
  | Lit c :: p' =>
      match s with
      | c' :: s' => if Ascii.eqb c c' then match_here p' s' else None
      | [] => None
      end
  | LazyAny :: p' =>
      (fix lazy (s : list ascii) : option (list ascii) :=
         match match_here p' s with
         | Some r => Some r
         | None =>
             match s with
             | c :: s' => if Ascii.eqb c newline then None else lazy s'
             | [] => None
             end
         end) s
  | Opt c :: p' =>
      match s with
      | c' :: s' =>
          if Ascii.eqb c c'
          then match match_here p' s' with
               | Some r => Some r
               | None => match_here p' s
               end
          else match_here p' s
      | [] => match_here p' s
      end
  | Alt alts :: p' =>
      (fix try (alts : list (list ascii)) : option (list ascii) :=
         match alts with
         | [] => None
         | a :: alts' =>
             match strip_prefix a s with
             | Some s' =>
                 match match_here p' s' with
                 | Some r => Some r
                 | None => try alts'
                 end
             | None => try alts'
             end
         end) alts
  end.

(** The lazy wildcard followed by [p'], as a function of its own. *)
Fixpoint lazy_then (p' : pattern) (s : list ascii) : option (list ascii) :=
  match match_here p' s with
  | Some r => Some r
  | None =>
      match s with
      | c :: s' => if Ascii.eqb c newline then None else lazy_then p' s'
      | [] => None
      end
  end.

(** [re.search(p, s)] as a truth value: is there a position of [s] at
    which [p] matches? *)
Fixpoint search (p : pattern) (s : list ascii) : bool :=
  match match_here p s with
  | Some _ => true
  | None =>
      match s with
      | [] => false
      | _ :: s' => search p s'
      end
  end.

(** [re.sub(p, repl, s)] for a replacement without escapes: scan from the
    left; where the pattern matches, emit [repl] and resume after the
    match, otherwise copy one character.  [skip] counts the characters of
    the current match that are still to be dropped.  Every pattern of the
    scripts begins with a literal, so a match is never empty; a subject
    position with an empty match is copied. *)
Fixpoint sub_go (p : pattern) (repl : list ascii) (s : list ascii)
  (skip : nat) : list ascii :=
  match s with
  | [] => []
  | c :: s' =>
      match skip with
      | S k => sub_go p repl s' k
      | O =>
          match match_here p s with
          | Some r =>
              match length s - length r with
              | S k => repl ++ sub_go p repl s' k
              | O => c :: sub_go p repl s' 0
              end
          | None => c :: sub_go p repl s' 0
          end
      end
  end.

Definition re_sub (p : pattern) (repl s : list ascii) : list ascii :=
  sub_go p repl s 0.

(** ** Declarative reading of a pattern *)

(** No line feed in [m]. *)
Definition nonl (m : list ascii) : Prop := Forall (fun c => c <> newline) m.

(** [matchable p s]: some path of the matcher succeeds at the head of
    [s]. *)
Fixpoint matchable (p : pattern) (s : list ascii) : Prop :=
  match p with
  | [] => True
  | Lit c :: p' => exists s', s = c :: s' /\ matchable p' s'
  | LazyAny :: p' =>
      exists m s', s = m ++ s' /\ nonl m /\ matchable p' s'
  | Opt c :: p' =>
      matchable p' s \/ exists s', s = c :: s' /\ matchable p' s'
  | Alt alts :: p' =>
      exists a s', In a alts /\ s = a ++ s' /\ matchable p' s'
  end.

(** Patterns made of literals and lazy wildcards only. *)
Definition simple_item (i : re_item) : bool :=
  match i with
  | Lit c => negb (Ascii.eqb c newline)
  | LazyAny => true
  | _ => false
  end.

Definition simple (p : pattern) : bool := forallb simple_item p.

(** The pattern begins with a literal: its matches are not empty. *)
Definition starts_lit (p : pattern) : bool :=
  match p with
  | Lit _ :: _ => true
  | _ => false
  end.

(** The pattern begins with the opening bracket, as every substitution
    pattern of the scripts does. *)
Definition starts_bracket (p : pattern) : bool :=
  match p with
  | Lit c :: _ => Ascii.eqb c lbracket
  | _ => false
  end.

Definition mem_ascii (c : ascii) (l : list ascii) : bool :=
  existsb (Ascii.eqb c) l.

(** No literal of [p] occurs in [u]. *)
Definition avoids_item (u : list ascii) (i : re_item) : bool :=
  match i with
  | Lit c => negb (mem_ascii c u)
  | _ => true
  end.

Definition avoids (u : list ascii) (p : pattern) : bool :=
  forallb (avoids_item u) p.

(** [inert p u]: [p] matches at no position of [u], whatever follows
    [u]. *)
Fixpoint inert (p : pattern) (u : list ascii) : Prop :=
  match u with
  | [] => True
  | c :: u' => (forall t, match_here p (c :: u' ++ t) = None) /\ inert p u'
  end.

(** [Rewr repl s t]: [t] is [s] with some spans that hold no line feed
    replaced by [repl], the rest copied. *)
Inductive Rewr (repl : list ascii) : list ascii -> list ascii -> Prop :=
| Rewr_nil : Rewr repl [] []
| Rewr_copy c s t : Rewr repl s t -> Rewr repl (c :: s) (c :: t)
| Rewr_span span s t :
    nonl span -> Rewr repl s t -> Rewr repl (span ++ s) (repl ++ t).

End Regex.

(* ================================================================== *)
(** * The markup redactor *)
(* ================================================================== *)

Module Redactor.
Import Regex.

(** ['\[anon type="name"\](.*?)\[\/anon\]'] *)
Definition re_anon_name : pattern :=
  lits (str "[anon type=" ++ [dquote] ++ str "name" ++ [dquote] ++ str "]")
    ++ [LazyAny] ++ lits (str "[/anon]").

(** ['\[name\](.*?)\[\/name\]'] *)
Definition re_name : pattern :=
  lits (str "[name]") ++ [LazyAny] ++ lits (str "[/name]").

(** ['\[anon type=".*?"\](.*?)\[\/anon\]'] *)
Definition re_anon_any : pattern :=
  lits (str "[anon type=" ++ [dquote]) ++ [LazyAny]
    ++ lits ([dquote] ++ str "]") ++ [LazyAny] ++ lits (str "[/anon]").

(** ['\[sensitive\](.*?)\[\/sensitive\]'] *)
Definition re_sensitive : pattern :=
  lits (str "[sensitive]") ++ [LazyAny] ++ lits (str "[/sensitive]").

Definition NAME : list ascii := str "(NAME)".
Definition SENSITIVE : list ascii := str "(SENSITIVE)".

(** [anonymize_text] of anonymize_doc.py: four substitutions in a row. *)
Definition anonymize_text (s : list ascii) : list ascii :=
  let s := re_sub re_anon_name NAME s in
  let s := re_sub re_name NAME s in
  let s := re_sub re_anon_any SENSITIVE s in
  let s := re_sub re_sensitive SENSITIVE s in
  s.

(** [_anonymize_text] of export_saymore.py: the same four substitutions. *)
Definition _anonymize_text (s : list ascii) : list ascii :=
  let s := re_sub re_anon_name NAME s in
  let s := re_sub re_name NAME s in
  let s := re_sub re_anon_any SENSITIVE s in
  let s := re_sub re_sensitive SENSITIVE s in
  s.

Definition text_eqb (a b : list ascii) : bool :=
  bool_decide (a = b).

(** [anonymize] of export_saymore.py: the text and whether it changed. *)
Definition anonymize (s : list ascii) : list ascii * bool :=
  let anon_s := _anonymize_text s in
  (anon_s, negb (text_eqb anon_s s)).

(** [anonymous_text_re = re.compile('\[\/?(anon|name|sensitive)')] *)
Definition anonymous_text_re : pattern :=
  [Lit lbracket; Opt "/"%char;
   Alt [str "anon"; str "name"; str "sensitive"]].

(** The opening tag [[anon type="ty"]]. *)
Definition anon_open (ty : list ascii) : list ascii :=
  str "[anon type=" ++ [dquote] ++ ty ++ [dquote] ++ str "]".

(** Python's [sub in s] on strings. *)
Fixpoint contains (pat s : list ascii) : bool :=
  match strip_prefix pat s with
  | Some _ => true
  | None =>
      match s with
      | [] => false
      | _ :: s' => contains pat s'
      end
  end.

(** A text made of spans tagged as names, each followed by untagged
    text, and the same text with a placeholder for each span. *)
Fixpoint tagged_names (spans : list (list ascii * list ascii)) : list ascii :=
  match spans with
  | [] => []
  | (X, after) :: rest =>
      str "[name]" ++ X ++ str "[/name]" ++ after ++ tagged_names rest
  end.

Fixpoint name_placeholders (spans : list (list ascii * list ascii))
  : list ascii :=
  match spans with
  | [] => []
  | (_, after) :: rest => NAME ++ after ++ name_placeholders rest
  end.

(** The content of each span holds no bracket and no line feed, and the
    text after it holds no bracket. *)
Definition plain_spans (spans : list (list ascii * list ascii)) : Prop :=
  Forall (fun '(X, after) =>
            ~ In lbracket X /\ nonl X /\ ~ In lbracket after) spans.

(** ** Well-formed spans and unnested text *)

(** The closing tag [cl] occurs in [X ++ cl] at its end only: the first
    closing tag after the opening tag is the one that follows [X]. *)
Fixpoint closes_first (cl X : list ascii) : Prop :=
  match X with
  | [] => True
  | c :: X' => strip_prefix cl (c :: X' ++ cl) = None /\ closes_first cl X'
  end.

(** Text in which no rule of the redactor can start a match, whatever
    follows it; a text without opening bracket is of this kind. *)
Definition plain (u : list ascii) : Prop :=
  inert re_anon_name u /\ inert re_name u /\
  inert re_anon_any u /\ inert re_sensitive u.

(** The content of a span that a rule replaces: it holds no line feed
    (the wildcard does not cross one), its closing tag comes first after
    it, and no rule applied earlier can start a match in it. *)
Definition anon_name_content (Z : list ascii) : Prop :=
  nonl Z /\ closes_first (str "[/anon]") Z.

Definition name_content (X : list ascii) : Prop :=
  nonl X /\ closes_first (str "[/name]") X /\ inert re_anon_name X.

Definition anon_content (Y : list ascii) : Prop :=
  nonl Y /\ closes_first (str "[/anon]") Y /\
  inert re_anon_name Y /\ inert re_name Y.

Definition sensitive_content (W : list ascii) : Prop :=
  nonl W /\ closes_first (str "[/sensitive]") W /\
  inert re_anon_name W /\ inert re_name W /\ inert re_anon_any W.

(** The type of a generic [[anon type="T"]] tag, other than [name]. *)
Definition anon_type (T : list ascii) : Prop :=
  nonl T /\ ~ In dquote T /\ ~ In lbracket T /\ T <> str "name".

(** Text made of spans of the four kinds, one after the other, and of
    plain text: no span is open at its end. *)
Inductive unnested : list ascii -> Prop :=
| unnested_nil : unnested []
| unnested_plain u rest :
    plain u -> unnested rest -> unnested (u ++ rest)
| unnested_anon_name Z rest :
    anon_name_content Z -> unnested rest ->
    unnested (anon_open (str "name") ++ Z ++ str "[/anon]" ++ rest)
| unnested_name X rest :
    name_content X -> unnested rest ->
    unnested (str "[name]" ++ X ++ str "[/name]" ++ rest)
| unnested_anon T Y rest :
    anon_type T -> anon_content Y -> unnested rest ->
    unnested (anon_open T ++ Y ++ str "[/anon]" ++ rest)
| unnested_sensitive W rest :
    sensitive_content W -> unnested rest ->
    unnested (str "[sensitive]" ++ W ++ str "[/sensitive]" ++ rest).

End Redactor.

(* ================================================================== *)
(** * The filter program compiler *)
(* ================================================================== *)

Module Filter.

(** A segment to anonymize: [(start_ms, end_ms, text)], as returned for
    the [Postprocess] tier. *)
Definition segment : Type := Z * Z * list ascii.

Definition digit_char (d : Z) : ascii := ascii_of_nat (48 + Z.to_nat d).

(** Python's [%d] of a natural number. *)
Definition decimal (n : N) : list ascii :=
  str (NilZero.string_of_uint (N.to_uint n)).

(** The times for which ['%.3f' % (ms / 1000.0)] prints the exact
    quotient.  The quotient is the double nearest to [ms/1000]; when
    [|ms| < 2^52] it is below 2^43, where two neighbouring doubles are at
    most 2^-10 apart, so its distance to [ms/1000] is less than 0.0005 and
    the three-digit rounding gives [ms/1000] back.  From about 2^52
    milliseconds on the double can print other digits. *)
Definition double_exact (ms : Z) : Prop := (Z.abs ms < 2 ^ 52)%Z.

(** ['%.3f' % (ms / 1000.0)] for an integer [ms] with [double_exact ms]:
    sign, integer part, a dot and the three digits of [|ms| mod 1000].
    Outside that range the text is not the one the code prints, and every
    statement about [fmt3] is made for times within it. *)
Definition fmt3 (ms : Z) : list ascii :=
  let a := Z.abs ms in
  let q := (a / 1000)%Z in
  let r := (a mod 1000)%Z in
  (if (ms <? 0)%Z then str "-" else [])
    ++ decimal (Z.to_N q) ++ str "."
    ++ [digit_char (r / 100)%Z; digit_char (r / 10 mod 10)%Z;
        digit_char (r mod 10)%Z].

(** ["volume=enable='between(t\,%.3f\,%.3f)':volume=0"]: the backslash
    before each comma is part of the text (Python keeps an unknown escape
    as it is). *)
Definition mute_clause (start_ms end_ms : Z) : list ascii :=
  str "volume=enable='between(t\," ++ fmt3 start_ms ++ str "\,"
    ++ fmt3 end_ms ++ str ")':volume=0".

(** ["boxblur=10:enable='between(t\,%.3f\,%.3f)'"] *)
Definition blur_clause (start_ms end_ms : Z) : list ascii :=
  str "boxblur=10:enable='between(t\," ++ fmt3 start_ms ++ str "\,"
    ++ fmt3 end_ms ++ str ")'".

(** [sep.join(l)] *)
Fixpoint join (sep : list ascii) (l : list (list ascii)) : list ascii :=
  match l with
  | [] => []
  | x :: l' =>
      match l' with
      | [] => x
      | _ :: _ => x ++ sep ++ join sep l'
      end
  end.

(** The text that [anonymize_audio] writes to its filter script. *)
Definition volume_filter (segments_to_anonymize : list segment) : list ascii :=
  join (str ", ")
    (map (fun '(start_ms, end_ms, _) => mute_clause start_ms end_ms)
       segments_to_anonymize).

(** The text that [anonymize_video] writes to its filter script. *)
Definition video_filter (segments_to_anonymize : list segment) : list ascii :=
  let video_filter := str "format=yuv420p, " in
  let video_filter := video_filter ++
    join (str ", ")
      (map (fun '(start_ms, end_ms, _) => blur_clause start_ms end_ms)
         segments_to_anonymize) in
  let video_filter := video_filter ++ str "; " in
  let video_filter := video_filter ++
    join (str ", ")
      (map (fun '(start_ms, end_ms, _) => mute_clause start_ms end_ms)
         segments_to_anonymize) in
  video_filter.

(** Number of positions of [s] at which [pat] occurs. *)
Fixpoint count_sub (pat s : list ascii) : nat :=
  (match Regex.strip_prefix pat s with Some _ => 1 | None => 0 end)
  + match s with
    | [] => 0
    | _ :: s' => count_sub pat s'
    end.

(** [pat] occurs at no position of [u], whatever follows [u]. *)
Fixpoint clear_of (pat u : list ascii) : Prop :=
  match u with
  | [] => True
  | c :: u' =>
      (forall t, Regex.strip_prefix pat (c :: u' ++ t) = None) /\ clear_of pat u'
  end.

(** The characters that a formatted time is made of. *)
Definition fmt_char (c : ascii) : bool :=
  Regex.mem_ascii c (str "-.0123456789").

(** The openings by which the clauses are counted. *)
Definition mute_mark : list ascii := str "volume=enable='between(t\,".
Definition blur_mark : list ascii := str "boxblur=10:enable='between(t\,".

End Filter.

(* ================================================================== *)
(** * Review clips *)
(* ================================================================== *)

Module Review.
Import Filter.

Definition REVIEW_CONTEXT : Z := 1000.

(** What the [try] block of [get_duration_ms] does: the ffmpeg call fails
    with [CalledProcessError], any later step raises something else (a
    regular expression that finds nothing, a division by zero), or the
    block reaches its last assignment with the computed duration. *)
Inductive probe_outcome : Type :=
| ProbeCalledProcessError (returncode : Z) (output : list ascii)
| ProbeOtherException
| ProbeComputed (clip_duration_ms : Z).

(** [get_duration_ms]: [clip_duration_ms] starts at -1 and both [except]
    clauses only print. *)
Definition get_duration_ms (o : probe_outcome) : Z :=
  match o with
  | ProbeComputed clip_duration_ms => clip_duration_ms
  | ProbeCalledProcessError _ _ => -1
  | ProbeOtherException => -1
  end.

(** [s.zfill(w)] on a string of digits. *)
Definition zfill (w : nat) (ds : list ascii) : list ascii :=
  repeat "0"%char (w - length ds) ++ ds.

(** ['%0wd' % n]: the sign counts in the width. *)
Definition fmt_d (w : nat) (n : Z) : list ascii :=
  if (n <? 0)%Z
  then "-"%char :: zfill (w - 1) (decimal (Z.to_N (- n)))
  else zfill w (decimal (Z.to_N n)).

(** [ms_to_timestamp]; Python's [divmod] rounds towards minus infinity, as
    [Z.div] and [Z.modulo] do for a positive divisor. *)
Definition ms_to_timestamp (time_ms : Z) (ffmpeg : bool) : list ascii :=
  let secs := (time_ms / 1000)%Z in
  let millis := (time_ms mod 1000)%Z in
  let mins := (secs / 60)%Z in
  let secs := (secs mod 60)%Z in
  let hours := (mins / 60)%Z in
  let mins := (mins mod 60)%Z in
  if ffmpeg
  then fmt_d 2 hours ++ str ":" ++ fmt_d 2 mins ++ str ":" ++ fmt_d 2 secs
         ++ str "." ++ fmt_d 3 millis
  else fmt_d 2 hours ++ str "h" ++ fmt_d 2 mins ++ str "m" ++ fmt_d 2 secs
         ++ str "s" ++ fmt_d 3 millis.

(** The window that [review_anonymization] computes around a segment. *)
Definition review_window (media_dur_ms start_ms end_ms : Z) : Z * Z :=
  let start_ms := Z.max (start_ms - REVIEW_CONTEXT) 0 in
  let end_ms := Z.min (end_ms + REVIEW_CONTEXT) media_dur_ms in
  (start_ms, end_ms).

(** One call of [create_clip]: the input, the [-ss] timestamp, the length
    passed to [-t] (in milliseconds; the script prints it in seconds) and
    the output name. *)
Record clip_request : Type := {
  clip_input : list ascii;
  clip_ss : list ascii;
  clip_t_ms : Z;
  clip_output : list ascii
}.

(** The body of the inner loop of [review_anonymization] for one media
    file, given as its name without extension, its extension and the
    outcome of the duration probe. *)
Definition review_clip (media_fname media_ext : list ascii)
  (media_dur_ms : Z) (seg : segment) : clip_request :=
  let '(start_ms, end_ms, _) := seg in
  let clip_fname :=
    media_fname ++ str "-" ++ ms_to_timestamp start_ms false ++ str "_"
      ++ ms_to_timestamp end_ms false ++ media_ext in
  let '(start_ms, end_ms) := review_window media_dur_ms start_ms end_ms in
  {| clip_input := media_fname ++ media_ext;
     clip_ss := ms_to_timestamp start_ms true;
     clip_t_ms := end_ms - start_ms;
     clip_output := clip_fname |}.

Definition review_media (media_fname media_ext : list ascii)
  (probe : probe_outcome) (segments_to_anonymize : list segment)
  : list clip_request :=
  let media_dur_ms := get_duration_ms probe in
  map (review_clip media_fname media_ext media_dur_ms) segments_to_anonymize.

(** ** Notions used to state the properties of the review clips *)

(** A number below 100 in two digits, a number below 1000 in three. *)
Definition two_digits (n : Z) : list ascii :=
  [digit_char (n / 10); digit_char (n mod 10)].

Definition three_digits (n : Z) : list ascii :=
  [digit_char (n / 100); digit_char (n / 10 mod 10); digit_char (n mod 10)].

(** The three separators of a timestamp in each of the two styles. *)
Definition timestamp_seps (ffmpeg : bool) : list ascii * list ascii * list ascii :=
  if ffmpeg then (str ":", str ":", str ".") else (str "h", str "m", str "s").

(** What a review clip must be for a segment: named after the times of
    the segment, and cut from a window that holds the segment, reaches at
    most [REVIEW_CONTEXT] beyond it on each side and stays within the
    media. *)
Definition reviews (media_fname media_ext : list ascii) (media_dur_ms : Z)
  (seg : segment) (q : clip_request) : Prop :=
  let '(start_ms, end_ms, _) := seg in
  exists s' e' : Z,
    clip_ss q = ms_to_timestamp s' true /\
    clip_t_ms q = (e' - s')%Z /\
    (0 <= s' <= start_ms)%Z /\ (end_ms <= e' <= media_dur_ms)%Z /\
    (start_ms - s' <= REVIEW_CONTEXT)%Z /\ (e' - end_ms <= REVIEW_CONTEXT)%Z /\
    clip_input q = media_fname ++ media_ext /\
    clip_output q
    = media_fname ++ str "-" ++ ms_to_timestamp start_ms false ++ str "_"
        ++ ms_to_timestamp end_ms false ++ media_ext.

End Review.

(* ================================================================== *)
(** * The timeline merger of export_saymore.py *)
(* ================================================================== *)

Module Merger.
Import Redactor Filter.

(** A pydub [AudioSegment] as the merge loop uses it, by milliseconds:
    one element per millisecond, so that [len] is the length of the list
    and a slice takes the elements between two positions.  The loop only
    slices the source audio, takes lengths and replaces clips by silence;
    the concatenation of segments under [--generate-audio], whose result
    depends on the frame rates of its operands, is not embedded. *)
Definition audio : Type := list Z.

(** [pydub.AudioSegment.silent(duration = n)] *)
Definition silent (duration : nat) : audio := repeat 0%Z duration.

(** Truth value of a segment: pydub defines [__len__] only, so a segment
    of length zero is false. *)
Definition audio_truth (a : audio) : bool := negb (Nat.eqb (length a) 0).

(** [src_audio[start_ms:end_ms]] for positions that are not negative: both
    ends are cut at the length of the audio. *)
Definition slice_ms (a : audio) (start_ms end_ms : Z) : audio :=
  let len := Z.of_nat (length a) in
  let s := Z.min start_ms len in
  let e := Z.min end_ms len in
  firstn (Z.to_nat (e - s)) (skipn (Z.to_nat s) a).

(** One annotation of the source transcription tier with what the loop
    reads for it from outside: the values found on the translation and
    source tiers at its midpoint ([None] when
    [get_ref_annotation_at_time] returns an empty list, so that [[0]]
    raises) and the two oral annotation files ([None] when
    [os.path.isfile] is false). *)
Record src_segment : Type := {
  src_start_ms : Z;
  src_end_ms : Z;
  src_text : list ascii;
  trans_at_mid : option (list ascii);
  source_at_mid : option (list ascii);
  careful_wav : option audio;
  translation_wav : option audio
}.

(** A clip placed on the merged timeline: the keys [audio_X],
    [audio_X_ts1], [audio_X_ts1id], [audio_X_ts2], [audio_X_ts2id] and
    [audio_X_aid] of the [annotation] dictionary. *)
Record placed : Type := {
  clip : audio;
  ts1 : Z;
  ts1id : list ascii;
  ts2 : Z;
  ts2id : list ascii;
  aid : list ascii
}.

(** The [annotation] dictionary built for one segment.  [audio_rep] and
    [audio_trans] are [None] as in the script when there is no file. *)
Record annotation : Type := {
  orig : list ascii;
  rep : list ascii;
  trans : list ascii;
  source : list ascii;
  orig_anonymized : bool;
  rep_anonymized : bool;
  trans_anonymized : bool;
  audio_orig : placed;
  audio_rep : option placed;
  audio_trans : option placed
}.

(** The three counters of the loop. *)
Record counters : Type := {
  offset : Z;
  annotation_id : N;
  timeslot_id : N
}.

Definition initial_counters : counters :=
  {| offset := 0; annotation_id := 1; timeslot_id := 1 |}.

(** ['ts%d' % n] and ['a%d' % n] *)
Definition ts_name (n : N) : list ascii := str "ts" ++ decimal n.
Definition a_name (n : N) : list ascii := str "a" ++ decimal n.

(** The first occurrence of [sep] in [s]: what stands before and after. *)
Fixpoint find_sep (sep s : list ascii) : option (list ascii * list ascii) :=
  match Regex.strip_prefix sep s with
  | Some r => Some ([], r)
  | None =>
      match s with
      | [] => None
      | c :: s' =>
          match find_sep sep s' with
          | Some (b, a) => Some (c :: b, a)
          | None => None
          end
      end
  end.

(** [if ' || ' in text: orig, rep = text.split(' || ') else: orig = text,
    rep = ''].  The unpacking raises [ValueError] ([None]) when the
    separator occurs again after its first occurrence. *)
Definition split_orig_rep (text : list ascii)
  : option (list ascii * list ascii) :=
  match find_sep (str " || ") text with
  | None => Some (text, [])
  | Some (b, a) =>
      if contains (str " || ") a then None else Some (b, a)
  end.

(** Placing a clip of the given length at the current offset. *)
Definition place (c : counters) (a : audio) (len : Z) : placed * counters :=
  ({| clip := a;
      ts1 := offset c;
      ts1id := ts_name (timeslot_id c);
      ts2 := offset c + len;
      ts2id := ts_name (timeslot_id c + 1);
      aid := a_name (annotation_id c) |},
   {| offset := offset c + len;
      annotation_id := annotation_id c + 1;
      timeslot_id := timeslot_id c + 2 |}).

Definition place_file (c : counters) (f : option audio)
  : option placed * counters :=
  match f with
  | None => (None, c)
  | Some a =>
      let '(p, c') := place c a (Z.of_nat (length a)) in (Some p, c')
  end.

Definition with_clip (p : placed) (a : audio) : placed :=
  {| clip := a; ts1 := ts1 p; ts1id := ts1id p; ts2 := ts2 p;
     ts2id := ts2id p; aid := aid p |}.

(** Truth value of [a['audio_rep']] and [a['audio_trans']]. *)
Definition clip_truth (o : option placed) : bool :=
  match o with
  | Some p => audio_truth (clip p)
  | None => false
  end.

(** Replacing an optional clip by silence when its text was anonymized
    and the clip is true. *)
Definition silence_if (anonymized : bool) (o : option placed) : option placed :=
  match o with
  | Some p =>
      if anonymized && audio_truth (clip p)
      then Some (with_clip p (silent (length (clip p))))
      else Some p
  | None => None
  end.

(** The body of the loop for one segment that is not ignored.  [None]
    stands for an exception ([ValueError] of the unpacking, [IndexError]
    of the two look-ups). *)
Definition merge_one (anonymize_flag : bool) (src_audio : audio)
  (c : counters) (u : src_segment) : option (annotation * counters) :=
  match split_orig_rep (src_text u) with
  | None => None
  | Some (orig0, rep0) =>
      match trans_at_mid u, source_at_mid u with
      | Some trans0, Some source0 =>
          let '(orig1, oa) :=
            if anonymize_flag then anonymize orig0 else (orig0, false) in
          let '(rep1, ra) :=
            if anonymize_flag then anonymize rep0 else (rep0, false) in
          let '(trans1, ta) :=
            if anonymize_flag then anonymize trans0 else (trans0, false) in
          let '(po, c1) :=
            place c (slice_ms src_audio (src_start_ms u) (src_end_ms u))
              (src_end_ms u - src_start_ms u) in
          let '(pr, c2) := place_file c1 (careful_wav u) in
          let '(pt, c3) := place_file c2 (translation_wav u) in
          let po :=
            if anonymize_flag && oa
            then with_clip po (silent (length (clip po))) else po in
          let pr := if anonymize_flag then silence_if ra pr else pr in
          let pt := if anonymize_flag then silence_if ta pt else pt in
          Some ({| orig := orig1; rep := rep1; trans := trans1;
                   source := source0;
                   orig_anonymized := oa; rep_anonymized := ra;
                   trans_anonymized := ta;
                   audio_orig := po; audio_rep := pr; audio_trans := pt |},
                c3)
      | _, _ => None
      end
  end.

Definition ignored (u : src_segment) : bool :=
  text_eqb (src_text u) (str "%ignore%").

(** The loop over the sorted annotations of the transcription tier. *)
Fixpoint merge_loop (anonymize_flag : bool) (src_audio : audio)
  (c : counters) (segs : list src_segment)
  : option (list annotation * counters) :=
  match segs with
  | [] => Some ([], c)
  | u :: segs' =>
      if ignored u then merge_loop anonymize_flag src_audio c segs'
      else
        match merge_one anonymize_flag src_audio c u with
        | None => None
        | Some (a, c') =>
            match merge_loop anonymize_flag src_audio c' segs' with
            | None => None
            | Some (l, c'') => Some (a :: l, c'')
            end
        end
  end.

Definition merge (anonymize_flag : bool) (src_audio : audio)
  (segs : list src_segment) : option (list annotation * counters) :=
  merge_loop anonymize_flag src_audio initial_counters segs.

(** ** The rendered template *)

Record TIME_SLOT : Type := {
  TIME_SLOT_ID : list ascii;
  TIME_VALUE : Z
}.

Inductive ANNOTATION : Type :=
| ALIGNABLE_ANNOTATION
    (ANNOTATION_ID TIME_SLOT_REF1 TIME_SLOT_REF2 ANNOTATION_VALUE : list ascii)
| REF_ANNOTATION
    (ANNOTATION_ID ANNOTATION_REF ANNOTATION_VALUE : list ascii).

Record TIER : Type := {
  TIER_ID : list ascii;
  LINGUISTIC_TYPE_REF : list ascii;
  PARENT_REF : option (list ascii);
  LANG_REF : option (list ascii);
  PARTICIPANT : option (list ascii);
  ANNOTATOR : option (list ascii);
  ANNOTATIONS : list ANNOTATION
}.

Record LINGUISTIC_TYPE : Type := {
  LINGUISTIC_TYPE_ID : list ascii;
  TIME_ALIGNABLE : bool;
  CONSTRAINTS : option (list ascii)
}.

Record ANNOTATION_DOCUMENT : Type := {
  TIME_ORDER : list TIME_SLOT;
  TIERS : list TIER;
  LINGUISTIC_TYPES : list LINGUISTIC_TYPE
}.

(** The [variables] dictionary passed to the template. *)
Record variables : Type := {
  repeater : list ascii;
  translator : list ascii;
  original_annotator : list ascii;
  repetition_annotator : list ascii;
  translation_annotator : list ascii;
  last_annotation_id : N;
  annotations : list annotation
}.

Definition slots_of (p : placed) : list TIME_SLOT :=
  [ {| TIME_SLOT_ID := ts1id p; TIME_VALUE := ts1 p |};
    {| TIME_SLOT_ID := ts2id p; TIME_VALUE := ts2 p |} ].

(** The clip when the template's [%if a['audio_X']:] holds. *)
Definition shown (o : option placed) : option placed :=
  match o with
  | Some p => if audio_truth (clip p) then Some p else None
  | None => None
  end.

Definition slots_of_shown (o : option placed) : list TIME_SLOT :=
  match shown o with
  | Some p => slots_of p
  | None => []
  end.

(** The [TIME_ORDER] loop. *)
Definition render_time_order (l : list annotation) : list TIME_SLOT :=
  flat_map (fun a =>
    slots_of (audio_orig a) ++ slots_of_shown (audio_rep a)
      ++ slots_of_shown (audio_trans a)) l.

Definition alignable (p : placed) (value : list ascii) : ANNOTATION :=
  ALIGNABLE_ANNOTATION (aid p) (ts1id p) (ts2id p) value.

(** The loop of an aligned tier: one annotation for each entry whose clip
    is shown. *)
Definition render_aligned (sel : annotation -> option placed)
  (value : annotation -> list ascii) (l : list annotation)
  : list ANNOTATION :=
  flat_map (fun a =>
    match sel a with
    | Some p => [alignable p (value a)]
    | None => []
    end) l.

(** The loop of a child tier: [last_ann] names the next annotation and is
    incremented after each one that is emitted; [i] is the index given by
    [enumerate]. *)
Fixpoint render_refs (sel : annotation -> option placed)
  (value : nat -> annotation -> list ascii)
  (i : nat) (last_ann : N) (l : list annotation)
  : list ANNOTATION * N :=
  match l with
  | [] => ([], last_ann)
  | a :: l' =>
      match sel a with
      | Some p =>
          let '(rest, n) := render_refs sel value (S i) (last_ann + 1) l' in
          (REF_ANNOTATION (a_name last_ann) (aid p) (value i a) :: rest, n)
      | None => render_refs sel value (S i) last_ann l'
      end
  end.

Definition index_value (i : nat) (_ : annotation) : list ascii :=
  decimal (N.of_nat i).

(** [EAF_TEMPLATE] rendered with [variables]: the time order, the eight
    tiers in the order of the template and the linguistic types. *)
Definition render (v : variables) : ANNOTATION_DOCUMENT :=
  let l := annotations v in
  let last_ann := last_annotation_id v in
  let '(original_id, last_ann) :=
    render_refs (fun a => Some (audio_orig a)) index_value 0 last_ann l in
  let '(original_source, last_ann) :=
    render_refs (fun a => Some (audio_orig a)) (fun _ a => source a)
      0 last_ann l in
  let '(repetition_id, last_ann) :=
    render_refs (fun a => shown (audio_rep a)) index_value 0 last_ann l in
  let '(translation_id, last_ann) :=
    render_refs (fun a => shown (audio_trans a)) index_value 0 last_ann l in
  {| TIME_ORDER := render_time_order l;
     TIERS :=
       [ {| TIER_ID := str "Original";
            LINGUISTIC_TYPE_REF := str "oral-annotation-text";
            PARENT_REF := None; LANG_REF := Some (str "srs");
            PARTICIPANT := None; ANNOTATOR := Some (original_annotator v);
            ANNOTATIONS :=
              render_aligned (fun a => Some (audio_orig a)) orig l |};
         {| TIER_ID := str "Original-ID";
            LINGUISTIC_TYPE_REF := str "oral-annotation-id";
            PARENT_REF := Some (str "Original"); LANG_REF := None;
            PARTICIPANT := None; ANNOTATOR := None;
            ANNOTATIONS := original_id |};
         {| TIER_ID := str "Original-Source";
            LINGUISTIC_TYPE_REF := str "oral-annotation-source";
            PARENT_REF := Some (str "Original"); LANG_REF := None;
            PARTICIPANT := None; ANNOTATOR := None;
            ANNOTATIONS := original_source |};
         {| TIER_ID := str "Repetition";
            LINGUISTIC_TYPE_REF := str "oral-annotation-text";
            PARENT_REF := None; LANG_REF := Some (str "srs");
            PARTICIPANT := Some (repeater v);
            ANNOTATOR := Some (repetition_annotator v);
            ANNOTATIONS :=
              render_aligned (fun a => shown (audio_rep a)) rep l |};
         {| TIER_ID := str "Repetition-ID";
            LINGUISTIC_TYPE_REF := str "oral-annotation-id";
            PARENT_REF := Some (str "Repetition"); LANG_REF := None;
            PARTICIPANT := None; ANNOTATOR := None;
            ANNOTATIONS := repetition_id |};
         {| TIER_ID := str "Translation";
            LINGUISTIC_TYPE_REF := str "oral-annotation-text";
            PARENT_REF := None; LANG_REF := Some (str "eng");
            PARTICIPANT := Some (translator v);
            ANNOTATOR := Some (translation_annotator v);
            ANNOTATIONS :=
              render_aligned (fun a => shown (audio_trans a)) trans l |};
         {| TIER_ID := str "Translation-ID";
            LINGUISTIC_TYPE_REF := str "oral-annotation-id";
            PARENT_REF := Some (str "Translation"); LANG_REF := None;
            PARTICIPANT := None; ANNOTATOR := None;
            ANNOTATIONS := translation_id |};
         {| TIER_ID := str "Postprocess";
            LINGUISTIC_TYPE_REF := str "event";
            PARENT_REF := None; LANG_REF := None;
            PARTICIPANT := None; ANNOTATOR := None;
            ANNOTATIONS := [] |} ];
     LINGUISTIC_TYPES :=
       [ {| LINGUISTIC_TYPE_ID := str "oral-annotation-text";
            TIME_ALIGNABLE := true; CONSTRAINTS := None |};
         {| LINGUISTIC_TYPE_ID := str "oral-annotation-id";
            TIME_ALIGNABLE := false;
            CONSTRAINTS := Some (str "Symbolic_Association") |};
         {| LINGUISTIC_TYPE_ID := str "oral-annotation-source";
            TIME_ALIGNABLE := false;
            CONSTRAINTS := Some (str "Symbolic_Association") |};
         {| LINGUISTIC_TYPE_ID := str "event";
            TIME_ALIGNABLE := true; CONSTRAINTS := None |} ] |}.

(** The [variables] that the script builds after the loop:
    [last_annotation_id] is [annotation_id + 1]. *)
Definition variables_of (repeater translator original_annotator
  repetition_annotator translation_annotator : list ascii)
  (l : list annotation) (c : counters) : variables :=
  {| repeater := repeater; translator := translator;
     original_annotator := original_annotator;
     repetition_annotator := repetition_annotator;
     translation_annotator := translation_annotator;
     last_annotation_id := annotation_id c + 1;
     annotations := l |}.

(** ** Reading a rendered document *)

Definition annotation_id_of (x : ANNOTATION) : list ascii :=
  match x with
  | ALIGNABLE_ANNOTATION i _ _ _ => i
  | REF_ANNOTATION i _ _ => i
  end.

(** The time slots an annotation refers to. *)
Definition time_slot_refs_of (x : ANNOTATION) : list (list ascii) :=
  match x with
  | ALIGNABLE_ANNOTATION _ r1 r2 _ => [r1; r2]
  | REF_ANNOTATION _ _ _ => []
  end.

(** The annotations an annotation refers to. *)
Definition annotation_refs_of (x : ANNOTATION) : list (list ascii) :=
  match x with
  | ALIGNABLE_ANNOTATION _ _ _ _ => []
  | REF_ANNOTATION _ r _ => [r]
  end.

Definition all_annotations (d : ANNOTATION_DOCUMENT) : list ANNOTATION :=
  flat_map ANNOTATIONS (TIERS d).

Definition time_slot_ids (d : ANNOTATION_DOCUMENT) : list (list ascii) :=
  map TIME_SLOT_ID (TIME_ORDER d).

Definition annotation_ids (d : ANNOTATION_DOCUMENT) : list (list ascii) :=
  map annotation_id_of (all_annotations d).

Definition time_slot_refs (d : ANNOTATION_DOCUMENT) : list (list ascii) :=
  flat_map time_slot_refs_of (all_annotations d).

Definition annotation_refs (d : ANNOTATION_DOCUMENT) : list (list ascii) :=
  flat_map annotation_refs_of (all_annotations d).

(** Number of occurrences of [x] in [l]. *)
Definition occurrences (x : list ascii) (l : list (list ascii)) : nat :=
  length (List.filter (fun y => text_eqb x y) l).

(** The annotations of the tier called [name]. *)
Definition tier_annotations (d : ANNOTATION_DOCUMENT) (name : list ascii)
  : list ANNOTATION :=
  flat_map (fun t => if text_eqb (TIER_ID t) name then ANNOTATIONS t else [])
    (TIERS d).

(** Number of clips of each kind among the segments that are not
    ignored. *)
Definition has_file (o : option audio) : bool :=
  match o with Some _ => true | None => false end.

Definition count_clips (segs : list src_segment) : nat :=
  let kept := List.filter (fun u => negb (ignored u)) segs in
  length kept
  + length (List.filter (fun u => has_file (careful_wav u)) kept)
  + length (List.filter (fun u => has_file (translation_wav u)) kept).

(** ** Notions used to state the properties of the identifiers *)

Definition opt_list {A : Type} (o : option A) : list A :=
  match o with Some x => [x] | None => [] end.

(** The clips of an annotation for which the loop allocated identifiers,
    and those that the template shows. *)
Definition allocated_clips (a : annotation) : list placed :=
  audio_orig a :: opt_list (audio_rep a) ++ opt_list (audio_trans a).

Definition shown_clips (a : annotation) : list placed :=
  audio_orig a :: opt_list (shown (audio_rep a))
    ++ opt_list (shown (audio_trans a)).

Definition slot_names (p : placed) : list (list ascii) := [ts1id p; ts2id p].

(** The clips selected by [sel], in the order of the annotations. *)
Definition pick (sel : annotation -> option placed) (l : list annotation)
  : list placed :=
  flat_map (fun a => opt_list (sel a)) l.

(** The clips shown on each aligned tier. *)
Definition shown_orig (l : list annotation) : list placed :=
  pick (fun a => Some (audio_orig a)) l.
Definition shown_rep (l : list annotation) : list placed :=
  pick (fun a => shown (audio_rep a)) l.
Definition shown_trans (l : list annotation) : list placed :=
  pick (fun a => shown (audio_trans a)) l.

(** [len] consecutive numbers from [start]. *)
Fixpoint N_seq (start : N) (len : nat) : list N :=
  match len with
  | O => []
  | S len' => start :: N_seq (start + 1) len'
  end.

(** The clips [ps] carry the identifiers that the counters name from [c]
    on, in order, and [c'] is where the counters stand after them. *)
Definition block (c c' : counters) (ps : list placed) : Prop :=
  map aid ps = map a_name (N_seq (annotation_id c) (length ps)) /\
  flat_map slot_names ps
  = map ts_name (N_seq (timeslot_id c) (2 * length ps)) /\
  annotation_id c' = (annotation_id c + N.of_nat (length ps))%N /\
  timeslot_id c' = (timeslot_id c + 2 * N.of_nat (length ps))%N.

(** What a rendered tier declares. *)
Definition tier_declaration (t : TIER)
  : list ascii * list ascii * option (list ascii) :=
  (TIER_ID t, LINGUISTIC_TYPE_REF t, PARENT_REF t).

Definition is_child (t : TIER) : bool :=
  match PARENT_REF t with Some _ => true | None => false end.

(** The loop neither raises on the unpacking nor on the look-ups. *)
Definition readable (u : src_segment) : Prop :=
  ignored u = true \/
  (is_Some (split_orig_rep (src_text u)) /\ is_Some (trans_at_mid u)
   /\ is_Some (source_at_mid u)).

(** ** Sample runs *)

Definition example_audio : audio := [10; 11; 12; 13; 14]%Z.

(** A segment with a repetition, and an anonymized segment whose
    repetition file is empty and which has a translation. *)
Definition example_segs : list src_segment :=
  [ {| src_start_ms := 0; src_end_ms := 3;
       src_text := str "hello || helo";
       trans_at_mid := Some (str "hi"); source_at_mid := Some (str "src");
       careful_wav := Some [1; 2]%Z; translation_wav := None |};
    {| src_start_ms := 3; src_end_ms := 5;
       src_text := str "[name]Bob[/name]";
       trans_at_mid := Some (str "Bob"); source_at_mid := Some (str "src");
       careful_wav := Some []; translation_wav := Some [7; 8; 9]%Z |} ].

Definition example_annotations : list annotation :=
  match merge true example_audio example_segs with
  | Some (l, _) => l
  | None => []
  end.

Definition example_counters : counters :=
  match merge true example_audio example_segs with
  | Some (_, c) => c
  | None => initial_counters
  end.

(** One segment with its original clip only. *)
Definition single_seg : src_segment :=
  {| src_start_ms := 0; src_end_ms := 2; src_text := str "one";
     trans_at_mid := Some []; source_at_mid := Some [];
     careful_wav := None; translation_wav := None |}.

Definition single_annotations : list annotation :=
  match merge false example_audio [single_seg] with
  | Some (l, _) => l
  | None => []
  end.

Definition single_counters : counters :=
  match merge false example_audio [single_seg] with
  | Some (_, c) => c
  | None => initial_counters
  end.

(** ** Notions used to state the properties of the clips *)

(** A text as the merged transcript shows it, and a clip as the merged
    audio holds it: redacted, and silenced when the redaction changed
    the text, if anonymization was asked for. *)
Definition redacted_if (flag : bool) (s : list ascii) : list ascii :=
  if flag then _anonymize_text s else s.

Definition hushed_if (flag : bool) (s : list ascii) (x : audio) : audio :=
  if flag && negb (text_eqb (_anonymize_text s) s)
  then silent (length x) else x.

(** [enumerate(l)], counting from [i]. *)
Fixpoint numbered {A : Type} (i : nat) (l : list A) : list (nat * A) :=
  match l with
  | [] => []
  | x :: l' => (i, x) :: numbered (S i) l'
  end.

(** What a reference annotation links: the annotation it refers to and
    its value. *)
Definition link_of (x : ANNOTATION) : list (list ascii * list ascii) :=
  match x with
  | ALIGNABLE_ANNOTATION _ _ _ _ => []
  | REF_ANNOTATION _ r v => [(r, v)]
  end.

(** The identifier and the value of an aligned annotation. *)
Definition text_of (x : ANNOTATION) : list (list ascii * list ascii) :=
  match x with
  | ALIGNABLE_ANNOTATION i _ _ v => [(i, v)]
  | REF_ANNOTATION _ _ _ => []
  end.

(** The separator of the two transcriptions in a text. *)
Definition orig_rep_sep : list ascii := str " || ".

(** The pairs (annotation referred to, value) that the loop of a child
    tier emits for the entries whose clip is selected, numbered as
    [enumerate] numbers them. *)
Definition links (sel : annotation -> option placed)
  (value : nat -> annotation -> list ascii) (l : list annotation)
  : list (list ascii * list ascii) :=
  flat_map (fun '(i, a) =>
              match sel a with
              | Some p => [(aid p, value i a)]
              | None => []
              end) (numbered 0 l).

(** The pairs (identifier, value) that the loop of an aligned tier
    emits. *)
Definition texts (sel : annotation -> option placed)
  (value : annotation -> list ascii) (l : list annotation)
  : list (list ascii * list ascii) :=
  flat_map (fun a =>
              match sel a with
              | Some p => [(aid p, value a)]
              | None => []
              end) l.

(** A segment whose text is tagged, with an empty repetition file and a
    translation. *)
Definition tagged_seg : src_segment :=
  {| src_start_ms := 3; src_end_ms := 5;
     src_text := str "[name]Bob[/name] || Bob";
     trans_at_mid := Some (str "[name]Bob[/name]");
     source_at_mid := Some (str "src");
     careful_wav := Some [4; 5; 6]%Z; translation_wav := Some [7; 8; 9]%Z |}.

(** ** The names of the oral annotation files *)

(** [s.lstrip(c)] and [s.rstrip(c)] for one character. *)
Fixpoint lstrip (c : ascii) (s : list ascii) : list ascii :=
  match s with
  | x :: s' => if Ascii.eqb x c then lstrip c s' else s
  | [] => []
  end.

Definition rstrip (c : ascii) (s : list ascii) : list ascii :=
  rev (lstrip c (rev s)).

(** [('%.3f' % (ms / 1000.0)).rstrip('0').rstrip('.')] *)
Definition oa_seconds (ms : Z) : list ascii :=
  rstrip "."%char (rstrip "0"%char (fmt3 ms)).

(** [to_oa]: ['%s_to_%s_%s.wav' % (start_s, end_s, oa_type)] *)
Definition to_oa (start_ms end_ms : Z) (oa_type : list ascii) : list ascii :=
  oa_seconds start_ms ++ str "_to_" ++ oa_seconds end_ms ++ str "_"
    ++ oa_type ++ str ".wav".

(** The decimals of a number of milliseconds below 1000 without the
    trailing zeros, with the point when some are left. *)
Definition oa_fraction (r : Z) : list ascii :=
  if (r =? 0)%Z then []
  else "."%char ::
    (if (r mod 100 =? 0)%Z then [digit_char (r / 100)]
     else if (r mod 10 =? 0)%Z
          then [digit_char (r / 100); digit_char (r / 10 mod 10)]
          else [digit_char (r / 100); digit_char (r / 10 mod 10);
                digit_char (r mod 10)]).

Definition is_digit (c : ascii) : bool :=
  Regex.mem_ascii c (str "0123456789").

(** The values of [l] go up, without going down, from [lo] to [hi]. *)
Fixpoint ascending (lo : Z) (l : list Z) (hi : Z) : Prop :=
  match l with
  | [] => (lo <= hi)%Z
  | x :: l' => (lo <= x)%Z /\ ascending x l' hi
  end.

(** The time values of the time slots of one annotation, in the order of
    the template. *)
Definition time_values (a : annotation) : list Z :=
  map TIME_VALUE
    (slots_of (audio_orig a) ++ slots_of_shown (audio_rep a)
       ++ slots_of_shown (audio_trans a)).

End Merger.

(* ================================================================== *)
(** * The annotation store and the redaction loop of anonymize_doc.py *)
(* ================================================================== *)

Module Store.
Import Regex Redactor.

(** An aligned annotation, the tuple
    [(start_ts, end_ts, value, svg_ref)] of pympi. *)
Record aligned_annotation : Type := {
  a_start_ts : string;
  a_end_ts : string;
  a_value : list ascii;
  a_svg : option string
}.

(** A reference annotation, the tuple
    [(parent_ann_id, value, prev, svg_ref)] of pympi. *)
Record ref_annotation : Type := {
  r_parent : string;
  r_value : list ascii;
  r_prev : option string;
  r_svg : option string
}.

(** A tier, [transcript.tiers[name]]: the dictionary of its aligned
    annotations, the dictionary of its reference annotations, its
    attributes and its ordinal.  A dictionary that the scripts iterate over
    is a list of items in insertion order. *)
Record tier : Type := {
  aligned : list (string * aligned_annotation);
  reference : list (string * ref_annotation);
  attributes : gmap string string;
  ordinal : nat
}.

(** The transcript object: [timeslots] (identifier to milliseconds) and
    [tiers]. *)
Record Eaf : Type := {
  timeslots : gmap string Z;
  tiers : list (string * tier)
}.

(** [d[k]]: the value of the first item with key [k]; [None] is a
    [KeyError]. *)
Fixpoint assoc_get {V : Type} (k : string) (d : list (string * V))
  : option V :=
  match d with
  | [] => None
  | (k', v) :: d' => if String.eqb k k' then Some v else assoc_get k d'
  end.

(** [d[k] = v] for a key that is present: the item keeps its place. *)
Fixpoint assoc_set {V : Type} (k : string) (v : V) (d : list (string * V))
  : list (string * V) :=
  match d with
  | [] => []
  | (k', v') :: d' =>
      if String.eqb k k' then (k', v) :: d' else (k', v') :: assoc_set k v d'
  end.

Definition with_value (a : aligned_annotation) (v : list ascii)
  : aligned_annotation :=
  {| a_start_ts := a_start_ts a; a_end_ts := a_end_ts a; a_value := v;
     a_svg := a_svg a |}.

Definition with_ref_value (r : ref_annotation) (v : list ascii)
  : ref_annotation :=
  {| r_parent := r_parent r; r_value := v; r_prev := r_prev r;
     r_svg := r_svg r |}.

Definition with_aligned (td : tier) (l : list (string * aligned_annotation))
  : tier :=
  {| aligned := l; reference := reference td; attributes := attributes td;
     ordinal := ordinal td |}.

Definition with_reference (td : tier) (l : list (string * ref_annotation))
  : tier :=
  {| aligned := aligned td; reference := l; attributes := attributes td;
     ordinal := ordinal td |}.

(** The transcript after the dictionaries of the tier [name] were
    mutated into [td]. *)
Definition with_tier (t : Eaf) (name : string) (td : tier) : Eaf :=
  {| timeslots := timeslots t; tiers := assoc_set name td (tiers t) |}.

(** The loop of [set_aligned_annotation] over the items of
    [transcript.tiers[tier][0]]: the first annotation whose two timeslots
    have the given values gets the new value and the loop stops; the
    second look-up happens only when the first comparison holds.  [None]
    is a [KeyError] of a timeslot look-up. *)
Fixpoint set_aligned_loop (ts : gmap string Z) (start_ms end_ms : Z)
  (new_value : list ascii) (items : list (string * aligned_annotation))
  : option (list (string * aligned_annotation)) :=
  match items with
  | [] => Some []
  | (annotation_id, a) :: rest =>
      match ts !! a_start_ts a with
      | None => None
      | Some s =>
          if (s =? start_ms)%Z
          then
            match ts !! a_end_ts a with
            | None => None
            | Some e =>
                if (e =? end_ms)%Z
                then Some ((annotation_id, with_value a new_value) :: rest)
                else
                  match set_aligned_loop ts start_ms end_ms new_value rest with
                  | Some rest' => Some ((annotation_id, a) :: rest')
                  | None => None
                  end
            end
          else
            match set_aligned_loop ts start_ms end_ms new_value rest with
            | Some rest' => Some ((annotation_id, a) :: rest')
            | None => None
            end
      end
  end.

(** [set_aligned_annotation].  [None] is a [KeyError], raised before
    anything was assigned: the transcript is then as it was. *)
Definition set_aligned_annotation (transcript : Eaf) (tier_name : string)
  (start_ms end_ms : Z) (new_value : list ascii) : option Eaf :=
  match assoc_get tier_name (tiers transcript) with
  | None => None
  | Some td =>
      match set_aligned_loop (timeslots transcript) start_ms end_ms
              new_value (aligned td) with
      | None => None
      | Some items => Some (with_tier transcript tier_name (with_aligned td items))
      end
  end.

(** [transcript.tiers[parent_tier][0][parent_ann_id]] *)
Definition parent_annotation (transcript : Eaf) (parent_tier : string)
  (parent_ann_id : string) : option aligned_annotation :=
  match assoc_get parent_tier (tiers transcript) with
  | None => None
  | Some ptd => assoc_get parent_ann_id (aligned ptd)
  end.

(** The loop of [set_ref_annotation] over the items of
    [transcript.tiers[tier][1]]. *)
Fixpoint set_ref_loop (transcript : Eaf) (parent_tier : string)
  (start_ms end_ms : Z) (new_value : list ascii)
  (items : list (string * ref_annotation))
  : option (list (string * ref_annotation)) :=
  match items with
  | [] => Some []
  | (ref_ann_id, r) :: rest =>
      match parent_annotation transcript parent_tier (r_parent r) with
      | None => None
      | Some p =>
          match timeslots transcript !! a_start_ts p with
          | None => None
          | Some s =>
              if (s =? start_ms)%Z
              then
                match timeslots transcript !! a_end_ts p with
                | None => None
                | Some e =>
                    if (e =? end_ms)%Z
                    then Some ((ref_ann_id, with_ref_value r new_value) :: rest)
                    else
                      match set_ref_loop transcript parent_tier start_ms
                              end_ms new_value rest with
                      | Some rest' => Some ((ref_ann_id, r) :: rest')
                      | None => None
                      end
                end
              else
                match set_ref_loop transcript parent_tier start_ms end_ms
                        new_value rest with
                | Some rest' => Some ((ref_ann_id, r) :: rest')
                | None => None
                end
          end
      end
  end.

(** [set_ref_annotation]: the parent tier is read from the attributes
    first. *)
Definition set_ref_annotation (transcript : Eaf) (tier_name : string)
  (start_ms end_ms : Z) (new_value : list ascii) : option Eaf :=
  match assoc_get tier_name (tiers transcript) with
  | None => None
  | Some td =>
      match attributes td !! "PARENT_REF"%string with
      | None => None
      | Some parent_tier =>
          match set_ref_loop transcript parent_tier start_ms end_ms
                  new_value (reference td) with
          | None => None
          | Some items =>
              Some (with_tier transcript tier_name (with_reference td items))
          end
      end
  end.

(** The state of the transcript object after a call. *)
Definition store_after (before : Eaf) (result : option Eaf) : Eaf :=
  match result with
  | Some after => after
  | None => before
  end.

(** ** The accessor of pympi *)

(** [mapM]: all the results, or [None] when one fails. *)
Fixpoint all_some {A B : Type} (f : A -> option B) (l : list A)
  : option (list B) :=
  match l with
  | [] => Some []
  | x :: l' =>
      match f x with
      | None => None
      | Some y =>
          match all_some f l' with
          | None => None
          | Some ys => Some (y :: ys)
          end
      end
  end.

(** The time span of an aligned annotation. *)
Definition aligned_span (ts : gmap string Z) (a : aligned_annotation)
  : option (Z * Z) :=
  match ts !! a_start_ts a with
  | None => None
  | Some s =>
      match ts !! a_end_ts a with
      | None => None
      | Some e => Some (s, e)
      end
  end.

(** The time span that a reference annotation borrows from its parent in
    the tier [parent_tier]. *)
Definition ref_span (transcript : Eaf) (parent_tier : string)
  (r : ref_annotation) : option (Z * Z) :=
  match parent_annotation transcript parent_tier (r_parent r) with
  | None => None
  | Some p => aligned_span (timeslots transcript) p
  end.

(** What [get_annotation_data_for_tier] returns: tuples
    [(start, end, value)] for a tier of aligned annotations, tuples
    [(start, end, value, parent value)] for a tier that holds reference
    annotations. *)
Inductive annotation_data : Type :=
| AlignedData (l : list (Z * Z * list ascii))
| RefData (l : list (Z * Z * list ascii * list ascii)).

(** Modelled from the spec: the parent of a reference annotation as
    [get_annotation_data_for_tier] resolves it.  Section 3 gives a
    referential annotation the span of its parent, an annotation of the
    declared parent tier: the annotation with the identifier
    [parent_ann_id] in the tier [parent_tier] when that one is aligned, and
    the resolved parent of that annotation when it is itself a reference
    annotation.  [fuel] bounds the number of tiers visited; a chain of
    parents that does not end gives no result. *)
Fixpoint parent_aligned_annotation (fuel : nat) (transcript : Eaf)
  (parent_tier parent_ann_id : string) : option aligned_annotation :=
  match fuel with
  | O => None
  | S fuel' =>
      match assoc_get parent_tier (tiers transcript) with
      | None => None
      | Some ptd =>
          match assoc_get parent_ann_id (aligned ptd) with
          | Some p => Some p
          | None =>
              match assoc_get parent_ann_id (reference ptd) with
              | None => None
              | Some r =>
                  match attributes ptd !! "PARENT_REF"%string with
                  | None => None
                  | Some grandparent_tier =>
                      parent_aligned_annotation fuel' transcript
                        grandparent_tier (r_parent r)
                  end
              end
          end
      end
  end.

(** Modelled from the spec: [transcript.get_annotation_data_for_tier] is
    a method of the pympi library, which is not part of the repository;
    section 4.2 describes it as returning aligned annotations directly
    and, for referential tiers, each annotation's value together with its
    parent's resolved time span.  The parent is looked up in the tier named
    by [PARENT_REF], and through the parents of that tier when it is a
    reference annotation itself. *)
Definition get_annotation_data_for_tier (transcript : Eaf)
  (tier_name : string) : option annotation_data :=
  match assoc_get tier_name (tiers transcript) with
  | None => None
  | Some td =>
      match reference td with
      | [] =>
          option_map AlignedData
            (all_some (fun '(_, a) =>
               match aligned_span (timeslots transcript) a with
               | Some (s, e) => Some (s, e, a_value a)
               | None => None
               end) (aligned td))
      | _ :: _ =>
          match attributes td !! "PARENT_REF"%string with
          | None => None
          | Some parent_tier =>
              option_map RefData
                (all_some (fun '(_, r) =>
                   match parent_aligned_annotation (length (tiers transcript))
                           transcript parent_tier (r_parent r) with
                   | None => None
                   | Some p =>
                       match aligned_span (timeslots transcript) p with
                       | Some (s, e) => Some (s, e, r_value r, a_value p)
                       | None => None
                       end
                   end) (reference td))
          end
      end
  end.

(** ** The tier traversal loop *)

(** The first three components of the tuples, which the loop binds to
    [start_ms], [end_ms] and [value]. *)
Definition tuples_of (d : annotation_data) : list (Z * Z * list ascii) :=
  match d with
  | AlignedData l => l
  | RefData l => map (fun '(s, e, v, _) => (s, e, v)) l
  end.

(** [set_annotation]: [set_ref_annotation] when the first tuple has more
    than three components, [set_aligned_annotation] otherwise. *)
Definition set_annotation_for (d : annotation_data)
  : Eaf -> string -> Z -> Z -> list ascii -> option Eaf :=
  match d with
  | RefData (_ :: _) => set_ref_annotation
  | _ => set_aligned_annotation
  end.

(** The inner loop over the tuples of one tier.  With [use_precheck] it
    is the loop of the script, which changes an annotation only when
    [anonymous_text_re.search(value)] succeeds; without it, the loop
    applies the redactor to every value. *)
Fixpoint redact_tuples (use_precheck : bool)
  (set_annotation : Eaf -> string -> Z -> Z -> list ascii -> option Eaf)
  (tier_name : string) (tuples : list (Z * Z * list ascii))
  (transcript : Eaf) : option Eaf :=
  match tuples with
  | [] => Some transcript
  | (start_ms, end_ms, value) :: rest =>
      if negb use_precheck || search anonymous_text_re value
      then
        match set_annotation transcript tier_name start_ms end_ms
                (anonymize_text value) with
        | None => None
        | Some transcript' =>
            redact_tuples use_precheck set_annotation tier_name rest
              transcript'
        end
      else redact_tuples use_precheck set_annotation tier_name rest
             transcript
  end.

(** The body of the loop [for tier in transcript.tiers]. *)
Definition redact_tier (use_precheck : bool) (transcript : Eaf)
  (tier_name : string) : option Eaf :=
  match get_annotation_data_for_tier transcript tier_name with
  | None => None
  | Some annotations =>
      redact_tuples use_precheck (set_annotation_for annotations) tier_name
        (tuples_of annotations) transcript
  end.

Fixpoint redact_tiers (use_precheck : bool) (names : list string)
  (transcript : Eaf) : option Eaf :=
  match names with
  | [] => Some transcript
  | name :: names' =>
      match redact_tier use_precheck transcript name with
      | None => None
      | Some transcript' => redact_tiers use_precheck names' transcript'
      end
  end.

(** The text redaction of a transcript as the script does it. *)
Definition redact (transcript : Eaf) : option Eaf :=
  redact_tiers true (map fst (tiers transcript)) transcript.

(** The same traversal with the redactor applied to every annotation
    value, whether or not the pre-check matches. *)
Definition redact_unconditionally (transcript : Eaf) : option Eaf :=
  redact_tiers false (map fst (tiers transcript)) transcript.

(** ** Notions used to state the properties of the store *)

(** The store with every annotation value blanked: what is left are the
    timeslots, the tiers, the identifiers of the annotations in their
    order, their timeslot references and their links. *)
Definition skeleton_tier (td : tier) : tier :=
  {| aligned := map (fun '(i, a) => (i, with_value a [])) (aligned td);
     reference := map (fun '(i, r) => (i, with_ref_value r [])) (reference td);
     attributes := attributes td;
     ordinal := ordinal td |}.

Definition skeleton (t : Eaf) : Eaf :=
  {| timeslots := timeslots t;
     tiers := map (fun '(n, td) => (n, skeleton_tier td)) (tiers t) |}.

(** The effective spans of the annotations of a tier, in order: those of
    its reference annotations when it has some, of its aligned annotations
    otherwise. *)
Definition tier_spans (t : Eaf) (tier_name : string) : option (list (Z * Z)) :=
  match assoc_get tier_name (tiers t) with
  | None => None
  | Some td =>
      match reference td with
      | [] => all_some (fun '(_, a) => aligned_span (timeslots t) a) (aligned td)
      | _ :: _ =>
          match attributes td !! "PARENT_REF"%string with
          | None => None
          | Some parent_tier =>
              all_some (fun '(_, r) => ref_span t parent_tier r) (reference td)
          end
      end
  end.

(** No two annotations of a tier have the same effective span. *)
Definition spans_distinct (t : Eaf) : Prop :=
  forall tier_name spans,
    tier_spans t tier_name = Some spans -> NoDup spans.



(** The outcome of a successful call on an aligned tier: the first
    annotation of the tier whose span is [(start_ms, end_ms)] has got the
    new value, and nothing else differs. *)
Definition aligned_value_replaced (t : Eaf) (tier_name : string)
  (start_ms end_ms : Z) (new_value : list ascii) (t' : Eaf) : Prop :=
  exists td pre i a post,
    assoc_get tier_name (tiers t) = Some td /\
    aligned td = pre ++ (i, a) :: post /\
    aligned_span (timeslots t) a = Some (start_ms, end_ms) /\
    (forall x, In x pre ->
       aligned_span (timeslots t) (snd x) <> Some (start_ms, end_ms)) /\
    t' = with_tier t tier_name
           (with_aligned td (pre ++ (i, with_value a new_value) :: post)).

(** The same for a tier of reference annotations, whose spans are those
    of their parents. *)
Definition reference_value_replaced (t : Eaf) (tier_name : string)
  (start_ms end_ms : Z) (new_value : list ascii) (t' : Eaf) : Prop :=
  exists td parent_tier pre i r post,
    assoc_get tier_name (tiers t) = Some td /\
    attributes td !! "PARENT_REF"%string = Some parent_tier /\
    reference td = pre ++ (i, r) :: post /\
    ref_span t parent_tier r = Some (start_ms, end_ms) /\
    (forall x, In x pre ->
       ref_span t parent_tier (snd x) <> Some (start_ms, end_ms)) /\
    t' = with_tier t tier_name
           (with_reference td (pre ++ (i, with_ref_value r new_value) :: post)).

(** No annotation of the tier has the span. *)
Definition no_aligned_match (t : Eaf) (tier_name : string)
  (start_ms end_ms : Z) : Prop :=
  forall td x,
    assoc_get tier_name (tiers t) = Some td -> In x (aligned td) ->
    aligned_span (timeslots t) (snd x) <> Some (start_ms, end_ms).

Definition no_reference_match (t : Eaf) (tier_name : string)
  (start_ms end_ms : Z) : Prop :=
  forall td parent_tier x,
    assoc_get tier_name (tiers t) = Some td ->
    attributes td !! "PARENT_REF"%string = Some parent_tier ->
    In x (reference td) ->
    ref_span t parent_tier (snd x) <> Some (start_ms, end_ms).



(** The tier with the redactor applied to the value of every annotation
    that the traversal reads: the reference annotations when the tier has
    some, the aligned ones otherwise. *)
Definition redacted_tier (td : tier) : tier :=
  match reference td with
  | [] =>
      with_aligned td
        (map (fun '(i, a) => (i, with_value a (anonymize_text (a_value a))))
           (aligned td))
  | _ :: _ =>
      with_reference td
        (map (fun '(i, r) => (i, with_ref_value r (anonymize_text (r_value r))))
           (reference td))
  end.

Definition redacted (t : Eaf) : Eaf :=
  {| timeslots := timeslots t;
     tiers := map (fun '(n, td) => (n, redacted_tier td)) (tiers t) |}.

(** The values of the reference annotations of a tier, in order. *)
Definition reference_values (tier_name : string) (t : Eaf)
  : option (list (list ascii)) :=
  option_map (fun td => map (fun x => r_value (snd x)) (reference td))
    (assoc_get tier_name (tiers t)).

Definition aligned_values (tier_name : string) (t : Eaf)
  : option (list (list ascii)) :=
  option_map (fun td => map (fun x => a_value (snd x)) (aligned td))
    (assoc_get tier_name (tiers t)).

(** The value found by span on an aligned tier: that of the first
    annotation with the span. *)
Fixpoint value_at (ts : gmap string Z) (start_ms end_ms : Z)
  (items : list (string * aligned_annotation)) : option (list ascii) :=
  match items with
  | [] => None
  | (_, a) :: rest =>
      match aligned_span ts a with
      | Some (s, e) =>
          if ((s =? start_ms) && (e =? end_ms))%Z then Some (a_value a)
          else value_at ts start_ms end_ms rest
      | None => value_at ts start_ms end_ms rest
      end
  end.

(** The value found by span on a tier of reference annotations. *)
Fixpoint ref_value_at (t : Eaf) (parent_tier : string) (start_ms end_ms : Z)
  (items : list (string * ref_annotation)) : option (list ascii) :=
  match items with
  | [] => None
  | (_, r) :: rest =>
      match ref_span t parent_tier r with
      | Some (s, e) =>
          if ((s =? start_ms) && (e =? end_ms))%Z then Some (r_value r)
          else ref_value_at t parent_tier start_ms end_ms rest
      | None => ref_value_at t parent_tier start_ms end_ms rest
      end
  end.

(** Looking a value up by span in the tier [tier_name] of a transcript. *)
Definition aligned_value_of (t : Eaf) (tier_name : string)
  (start_ms end_ms : Z) : option (list ascii) :=
  match assoc_get tier_name (tiers t) with
  | Some td => value_at (timeslots t) start_ms end_ms (aligned td)
  | None => None
  end.

Definition reference_value_of (t : Eaf) (tier_name : string)
  (start_ms end_ms : Z) : option (list ascii) :=
  match assoc_get tier_name (tiers t) with
  | Some td =>
      match attributes td !! "PARENT_REF"%string with
      | Some parent_tier =>
          ref_value_at t parent_tier start_ms end_ms (reference td)
      | None => None
      end
  | None => None
  end.

(** Every tier that holds reference annotations declares its parent
    tier, and the parent of each of its annotations is an aligned
    annotation of that tier, where [set_ref_annotation] looks for it. *)
Definition parents_aligned (t : Eaf) : Prop :=
  forall tier_name td,
    assoc_get tier_name (tiers t) = Some td -> reference td <> [] ->
    exists parent_tier,
      attributes td !! "PARENT_REF"%string = Some parent_tier /\
      Forall (fun x =>
                is_Some (parent_annotation t parent_tier (r_parent (snd x))))
        (reference td).

(** The tuples of a tier with the parent of each reference annotation
    read from the aligned annotations of the declared parent tier. *)
Definition direct_annotation_data (transcript : Eaf)
  (tier_name : string) : option annotation_data :=
  match assoc_get tier_name (tiers transcript) with
  | None => None
  | Some td =>
      match reference td with
      | [] =>
          option_map AlignedData
            (all_some (fun '(_, a) =>
               match aligned_span (timeslots transcript) a with
               | Some (s, e) => Some (s, e, a_value a)
               | None => None
               end) (aligned td))
      | _ :: _ =>
          match attributes td !! "PARENT_REF"%string with
          | None => None
          | Some parent_tier =>
              option_map RefData
                (all_some (fun '(_, r) =>
                   match parent_annotation transcript parent_tier (r_parent r) with
                   | None => None
                   | Some p =>
                       match aligned_span (timeslots transcript) p with
                       | Some (s, e) => Some (s, e, r_value r, a_value p)
                       | None => None
                       end
                   end) (reference td))
          end
      end
  end.


(** The [k]-th annotation of a tier, by position in its dictionary. *)
Definition aligned_item (t : Eaf) (tier_name : string) (k : nat)
  : option (string * aligned_annotation) :=
  match assoc_get tier_name (tiers t) with
  | Some td => nth_error (aligned td) k
  | None => None
  end.

Definition reference_item (t : Eaf) (tier_name : string) (k : nat)
  : option (string * ref_annotation) :=
  match assoc_get tier_name (tiers t) with
  | Some td => nth_error (reference td) k
  | None => None
  end.

(** The effective span of a reference annotation of the tier
    [tier_name]. *)
Definition reference_span_in (t : Eaf) (tier_name : string)
  (r : ref_annotation) : option (Z * Z) :=
  match assoc_get tier_name (tiers t) with
  | Some td =>
      match attributes td !! "PARENT_REF"%string with
      | Some parent_tier => ref_span t parent_tier r
      | None => None
      end
  | None => None
  end.

End Store.

(** ** Sample transcripts *)

Module StoreSamples.
Import Regex Redactor Store.
Local Open Scope string_scope.

Definition sample_timeslots : gmap string Z :=
  list_to_map [("ts1", 0%Z); ("ts2", 1000%Z); ("ts3", 2500%Z)].

Definition text_tier : tier :=
  {| aligned :=
       [ ("a1", {| a_start_ts := "ts1"; a_end_ts := "ts2";
                   a_value := str "[name]Al[/name] went"; a_svg := None |});
         ("a2", {| a_start_ts := "ts2"; a_end_ts := "ts3";
                   a_value := str "home"; a_svg := None |}) ];
     reference := [];
     attributes := list_to_map [("TIER_ID", "Text")];
     ordinal := 1 |}.

(** A tier of reference annotations, one under each annotation of the
    tier [Text]. *)
Definition gloss_tier : tier :=
  {| aligned := [];
     reference :=
       [ ("a3", {| r_parent := "a1"; r_value := str "[name]Al[/name] ging";
                   r_prev := None; r_svg := None |});
         ("a4", {| r_parent := "a2"; r_value := str "heim";
                   r_prev := None; r_svg := None |}) ];
     attributes := list_to_map [("TIER_ID", "Gloss"); ("PARENT_REF", "Text")];
     ordinal := 2 |}.

(** A symbolic subdivision: two reference annotations under the same
    parent, which therefore have the same effective span. *)
Definition words_tier : tier :=
  {| aligned := [];
     reference :=
       [ ("a5", {| r_parent := "a1"; r_value := str "[name]Al[/name]";
                   r_prev := None; r_svg := None |});
         ("a6", {| r_parent := "a1"; r_value := str "went";
                   r_prev := Some "a5"; r_svg := None |}) ];
     attributes := list_to_map [("TIER_ID", "Words"); ("PARENT_REF", "Text")];
     ordinal := 3 |}.

Definition sample_store : Eaf :=
  {| timeslots := sample_timeslots;
     tiers := [("Text", text_tier); ("Gloss", gloss_tier)] |}.

(** A tier of reference annotations under the reference annotations of
    the tier [Gloss]. *)
Definition notes_tier : tier :=
  {| aligned := [];
     reference :=
       [ ("a7", {| r_parent := "a3"; r_value := str "proper noun";
                   r_prev := None; r_svg := None |});
         ("a8", {| r_parent := "a4"; r_value := str "adverb";
                   r_prev := None; r_svg := None |}) ];
     attributes := list_to_map [("TIER_ID", "Notes"); ("PARENT_REF", "Gloss")];
     ordinal := 4 |}.

Definition nested_store : Eaf :=
  {| timeslots := sample_timeslots;
     tiers := [("Text", text_tier); ("Gloss", gloss_tier);
               ("Notes", notes_tier)] |}.

Definition subdivided_store : Eaf :=
  {| timeslots := sample_timeslots;
     tiers := [("Text", text_tier); ("Words", words_tier)] |}.

(** The values on the tier [Words] after a run. *)
Definition words_after (result : option Eaf) : option (list (list ascii)) :=
  match result with
  | Some t => reference_values "Words" t
  | None => None
  end.

End StoreSamples.

(* ================================================================== *)
(** * The media descriptors of the anonymized transcript *)
(* ================================================================== *)

Module Media.
Import Regex.

Definition slash : ascii := "/"%char.

Fixpoint take_until_slash (s : list ascii) : list ascii :=
  match s with
  | [] => []
  | c :: s' => if Ascii.eqb c slash then [] else c :: take_until_slash s'
  end.

Fixpoint drop_until_slash (s : list ascii) : list ascii :=
  match s with
  | [] => []
  | c :: s' => if Ascii.eqb c slash then s else drop_until_slash s'
  end.

(** [os.path.basename(p)] for a POSIX path: what follows the last
    slash. *)
Definition basename (p : list ascii) : list ascii :=
  rev (take_until_slash (rev p)).

(** The part of a path up to its last slash, the slash included. *)
Definition url_dir (p : list ascii) : list ascii :=
  rev (drop_until_slash (rev p)).

(** [s.removesuffix(suffix)] *)
Definition removesuffix (s suffix : list ascii) : list ascii :=
  match suffix with
  | [] => s
  | _ :: _ =>
      match strip_prefix (rev suffix) (rev s) with
      | Some r => rev r
      | None => s
      end
  end.

(** A media descriptor of the transcript; [RELATIVE_MEDIA_URL] is an
    optional attribute. *)
Record media_descriptor : Type := {
  MEDIA_URL : list ascii;
  RELATIVE_MEDIA_URL : option (list ascii)
}.

(** The body of the loop over [transcript.media_descriptors], with the
    dictionary [original_to_anonymized_media].  [None] is the [KeyError]
    of a descriptor without [RELATIVE_MEDIA_URL]. *)
Definition rewrite_descriptor
  (original_to_anonymized_media : gmap (list ascii) (list ascii))
  (media_descriptor : media_descriptor) : option Media.media_descriptor :=
  let media_fname := basename (MEDIA_URL media_descriptor) in
  match original_to_anonymized_media !! media_fname with
  | None => Some media_descriptor
  | Some anonymized_fname =>
      let url :=
        removesuffix (MEDIA_URL media_descriptor) media_fname
          ++ anonymized_fname in
      match RELATIVE_MEDIA_URL media_descriptor with
      | None => None
      | Some rel =>
          Some {| MEDIA_URL := url;
                  RELATIVE_MEDIA_URL :=
                    Some (removesuffix rel media_fname ++ anonymized_fname) |}
      end
  end.

(** A sample: the audio of a session and its anonymized copy. *)
Definition sample_media : gmap (list ascii) (list ascii) :=
  {[ str "s1.wav" := str "anonymized/s1-ANONYMIZED.wav" ]}.

Definition sample_descriptor : media_descriptor :=
  {| MEDIA_URL := str "file:///data/s1.wav";
     RELATIVE_MEDIA_URL := Some (str "./s1.wav") |}.

End Media.

(* ================================================================== *)
(** * Facts about the matcher and the substitution *)
(* ================================================================== *)

Module RegexFacts.
Import Regex.

Lemma strip_prefix_Some a s r :
  strip_prefix a s = Some r <-> s = a ++ r.
Proof.
  revert s. induction a as [|c a IH]; intros s; simpl.
  - split; [intros [= ->]; reflexivity | intros ->; reflexivity].
  - destruct s as [|c' s]; [split; discriminate|].
    destruct (Ascii.eqb_spec c c') as [->|Hne].
    + rewrite IH. split; [intros ->; reflexivity | intros [= ->]; reflexivity].
    + split; [discriminate | intros [= ? ?]; congruence].
Qed.

Lemma strip_prefix_app a r : strip_prefix a (a ++ r) = Some r.
Proof. apply strip_prefix_Some. reflexivity. Qed.

Lemma match_here_lazy p s : match_here (LazyAny :: p) s = lazy_then p s.
Proof.
  induction s as [|c s IH]; simpl.
  - reflexivity.
  - destruct (match_here p (c :: s)); [reflexivity|].
    destruct (Ascii.eqb c newline); [reflexivity|]. exact IH.
Qed.

Lemma lazy_then_unfold p s :
  lazy_then p s =
  match match_here p s with
  | Some r => Some r
  | None =>
      match s with
      | c :: s' => if Ascii.eqb c newline then None else lazy_then p s'
      | [] => None
      end
  end.
Proof. destruct s; reflexivity. Qed.

Lemma match_here_lits_app l p s :
  match_here (lits l ++ p) (l ++ s) = match_here p s.
Proof.
  induction l as [|c l IH]; simpl; [reflexivity|].
  rewrite Ascii.eqb_refl. exact IH.
Qed.

Lemma match_here_lits_Some l p s r :
  match_here (lits l ++ p) s = Some r ->
  exists s', s = l ++ s' /\ match_here p s' = Some r.
Proof.
  revert s. induction l as [|c l IH]; intros s; simpl.
  - intros H. exists s. split; [reflexivity | exact H].
  - destruct s as [|c' s]; [discriminate|].
    destruct (Ascii.eqb_spec c c') as [->|Hne]; [|discriminate].
    intros H. destruct (IH _ H) as (s' & -> & Hs').
    exists s'. split; [reflexivity | exact Hs'].
Qed.

(** A successful match consumes a prefix of the subject. *)
Lemma match_here_span p : forall s r,
  match_here p s = Some r -> exists span, s = span ++ r.
Proof.
  induction p as [|i p IH]; intros s r.
  - simpl. intros [= ->]. exists []. reflexivity.
  - destruct i as [c| |c|alts].
    + simpl. destruct s as [|c' s]; [discriminate|].
      destruct (Ascii.eqb_spec c c') as [->|]; [|discriminate].
      intros H. destruct (IH _ _ H) as [sp ->]. exists (c' :: sp). reflexivity.
    + rewrite match_here_lazy. induction s as [|c s IHs].
      * rewrite lazy_then_unfold. destruct (match_here p []) eqn:E; [|discriminate].
        intros [= ->]. exact (IH _ _ E).
      * rewrite lazy_then_unfold. destruct (match_here p (c :: s)) eqn:E.
        { intros [= ->]. exact (IH _ _ E). }
        destruct (Ascii.eqb c newline); [discriminate|].
        intros H. destruct (IHs H) as [sp ->]. exists (c :: sp). reflexivity.
    + simpl. destruct s as [|c' s]; [apply IH|].
      destruct (Ascii.eqb_spec c c') as [->|]; [|apply IH].
      destruct (match_here p s) eqn:E; [|apply IH].
      intros [= ->]. destruct (IH _ _ E) as [sp ->]. exists (c' :: sp). reflexivity.
    + simpl. induction alts as [|a alts IHa]; [discriminate|].
      destruct (strip_prefix a s) eqn:Ea; [|exact IHa].
      destruct (match_here p l) eqn:E; [|exact IHa].
      intros [= ->]. apply strip_prefix_Some in Ea. subst s.
      destruct (IH _ _ E) as [sp ->]. exists (a ++ sp). rewrite app_assoc. reflexivity.
Qed.

Lemma nonl_app m1 m2 : nonl m1 -> nonl m2 -> nonl (m1 ++ m2).
Proof. unfold nonl. intros. apply Forall_app; split; assumption. Qed.

Lemma nonl_cons c m : c <> newline -> nonl m -> nonl (c :: m).
Proof. unfold nonl. intros. constructor; assumption. Qed.

Lemma simple_cons i p : simple (i :: p) = true ->
  simple_item i = true /\ simple p = true.
Proof. unfold simple. simpl. intros H. apply andb_true_iff in H. exact H. Qed.

(** For a simple pattern the consumed span holds no line feed. *)
Lemma match_here_span_nonl p : simple p = true -> forall s r,
  match_here p s = Some r -> exists span, s = span ++ r /\ nonl span.
Proof.
  induction p as [|i p IH]; intros Hs s r.
  - simpl. intros [= ->]. exists []. split; [reflexivity | constructor].
  - apply simple_cons in Hs. destruct Hs as [Hi Hs]. specialize (IH Hs).
    destruct i as [c| |c|alts]; try discriminate.
    + simpl. destruct s as [|c' s]; [discriminate|].
      destruct (Ascii.eqb_spec c c') as [->|]; [|discriminate].
      intros H. destruct (IH _ _ H) as (sp & -> & Hsp). exists (c' :: sp).
      split; [reflexivity|]. apply nonl_cons; [|exact Hsp].
      simpl in Hi. intros ->. rewrite Ascii.eqb_refl in Hi. discriminate.
    + rewrite match_here_lazy. induction s as [|c s IHs].
      * rewrite lazy_then_unfold. destruct (match_here p []) eqn:E; [|discriminate].
        intros [= ->]. exact (IH _ _ E).
      * rewrite lazy_then_unfold. destruct (match_here p (c :: s)) eqn:E.
        { intros [= ->]. exact (IH _ _ E). }
        destruct (Ascii.eqb_spec c newline) as [|Hc]; [discriminate|].
        intros H. destruct (IHs H) as (sp & -> & Hsp). exists (c :: sp).
        split; [reflexivity | apply nonl_cons; assumption].
Qed.

(** Soundness and completeness of the matcher for the declarative
    reading. *)
Lemma match_here_matchable p : forall s r,
  match_here p s = Some r -> matchable p s.
Proof.
  induction p as [|i p IH]; intros s r; [simpl; trivial|].
  destruct i as [c| |c|alts].
  - simpl. destruct s as [|c' s]; [discriminate|].
    destruct (Ascii.eqb_spec c c') as [->|]; [|discriminate].
    intros H. exists s. split; [reflexivity | exact (IH _ _ H)].
  - rewrite match_here_lazy. induction s as [|c s IHs].
    + rewrite lazy_then_unfold. destruct (match_here p []) eqn:E; [|discriminate].
      intros _. exists [], []. split; [reflexivity|]. split; [constructor | exact (IH _ _ E)].
    + rewrite lazy_then_unfold. destruct (match_here p (c :: s)) eqn:E.
      { intros _. exists [], (c :: s). split; [reflexivity|].
        split; [constructor | exact (IH _ _ E)]. }
      destruct (Ascii.eqb_spec c newline) as [|Hc]; [discriminate|].
      intros H. destruct (IHs H) as (m & s' & -> & Hm & Hs').
      exists (c :: m), s'. split; [reflexivity|]. split; [apply nonl_cons; assumption | exact Hs'].
  - simpl. destruct s as [|c' s].
    + intros H. left. exact (IH _ _ H).
    + destruct (Ascii.eqb_spec c c') as [->|].
      * destruct (match_here p s) eqn:E.
        { intros _. right. exists s. split; [reflexivity | exact (IH _ _ E)]. }
        intros H. left. exact (IH _ _ H).
      * intros H. left. exact (IH _ _ H).
  - simpl. induction alts as [|a alts IHa]; [discriminate|].
    destruct (strip_prefix a s) eqn:Ea.
    + destruct (match_here p l) eqn:E.
      * intros _. apply strip_prefix_Some in Ea. exists a, l.
        split; [left; reflexivity|]. split; [exact Ea | exact (IH _ _ E)].
      * intros H. destruct (IHa H) as (a' & s' & Hin & -> & Hs').
        exists a', s'. split; [right; exact Hin|]. split; [reflexivity | exact Hs'].
    + intros H. destruct (IHa H) as (a' & s' & Hin & -> & Hs').
      exists a', s'. split; [right; exact Hin|]. split; [reflexivity | exact Hs'].
Qed.

Lemma matchable_match_here p : forall s,
  matchable p s -> exists r, match_here p s = Some r.
Proof.
  induction p as [|i p IH]; intros s; [simpl; eauto|].
  destruct i as [c| |c|alts].
  - simpl. intros (s' & -> & H). rewrite Ascii.eqb_refl. exact (IH _ H).
  - intros (m & s' & -> & Hm & H). rewrite match_here_lazy.
    induction m as [|c m IHm]; simpl app.
    + rewrite lazy_then_unfold. destruct (IH _ H) as [r ->]. eauto.
    + rewrite lazy_then_unfold. destruct (match_here p (c :: m ++ s')); [eauto|].
      inversion Hm as [|? ? Hc Hm']; subst.
      destruct (Ascii.eqb_spec c newline) as [|_]; [contradiction|].
      exact (IHm Hm').
  - simpl. intros [H | (s' & -> & H)].
    + destruct (IH _ H) as [r Hr]. destruct s as [|c' s]; [eauto|].
      destruct (Ascii.eqb c c'); [|eauto].
      destruct (match_here p s); eauto.
    + rewrite Ascii.eqb_refl. destruct (IH _ H) as [r ->]. eauto.
  - simpl. intros (a & s' & Hin & -> & H).
    induction alts as [|a' alts IHa]; [destruct Hin|].
    destruct (strip_prefix a' (a ++ s')) eqn:Ea.
    + destruct (match_here p l) eqn:E; [eauto|].
      destruct Hin as [->|Hin]; [|exact (IHa Hin)].
      rewrite strip_prefix_app in Ea. injection Ea as <-.
      destruct (IH _ H) as [r Hr]. congruence.
    + destruct Hin as [->|Hin]; [|exact (IHa Hin)].
      rewrite strip_prefix_app in Ea. discriminate.
Qed.

(** ** The substitution scan *)

Lemma sub_go_skip p repl span r :
  sub_go p repl (span ++ r) (length span) = sub_go p repl r 0.
Proof.
  induction span as [|c span IH]; simpl.
  - destruct r; reflexivity.
  - exact IH.
Qed.

Lemma re_sub_nil p repl : re_sub p repl [] = [].
Proof. reflexivity. Qed.

Lemma re_sub_nomatch p repl c s :
  match_here p (c :: s) = None ->
  re_sub p repl (c :: s) = c :: re_sub p repl s.
Proof. unfold re_sub. simpl. intros ->. reflexivity. Qed.

Lemma re_sub_match p repl c span r :
  match_here p (c :: span ++ r) = Some r ->
  re_sub p repl (c :: span ++ r) = repl ++ re_sub p repl r.
Proof.
  intros H. unfold re_sub.
  change (sub_go p repl (c :: span ++ r) 0) with
    (match match_here p (c :: span ++ r) with
     | Some r0 =>
         match length (c :: span ++ r) - length r0 with
         | S k => repl ++ sub_go p repl (span ++ r) k
         | O => c :: sub_go p repl (span ++ r) 0
         end
     | None => c :: sub_go p repl (span ++ r) 0
     end).
  rewrite H.
  assert (Hl : length (c :: span ++ r) - length r = S (length span)).
  { simpl. rewrite length_app. lia. }
  rewrite Hl, sub_go_skip. reflexivity.
Qed.

(** A pattern that begins with a literal fails on the empty subject and
    consumes at least one character. *)
Lemma starts_lit_nil p : starts_lit p = true -> match_here p [] = None.
Proof. destruct p as [|[] p]; try discriminate. reflexivity. Qed.

Lemma starts_lit_span p s r :
  starts_lit p = true -> match_here p s = Some r ->
  exists c span, s = c :: span ++ r.
Proof.
  intros Hp H. destruct (match_here_span _ _ _ H) as [sp ->].
  destruct sp as [|c sp]; [|eauto].
  exfalso. destruct p as [|[c| | |] p]; try discriminate.
  simpl in H. destruct r as [|c' r]; [discriminate|].
  destruct (Ascii.eqb c c'); [|discriminate].
  destruct (match_here_span _ _ _ H) as [sp Hsp].
  apply (f_equal (@length ascii)) in Hsp. rewrite length_app in Hsp. simpl in Hsp. lia.
Qed.

(** Induction along the scan of [re_sub]. *)
Lemma re_sub_scan_ind p repl (P : list ascii -> list ascii -> Prop) :
  starts_lit p = true ->
  P [] [] ->
  (forall c s, match_here p (c :: s) = None ->
     P s (re_sub p repl s) -> P (c :: s) (c :: re_sub p repl s)) ->
  (forall c span r, match_here p (c :: span ++ r) = Some r ->
     P r (re_sub p repl r) -> P (c :: span ++ r) (repl ++ re_sub p repl r)) ->
  forall s, P s (re_sub p repl s).
Proof.
  intros Hp Hnil Hcopy Hspan s.
  remember (length s) as n eqn:Hn. revert s Hn.
  induction n as [n IH] using lt_wf_ind. intros s Hn.
  destruct s as [|c s]; [exact Hnil|].
  destruct (match_here p (c :: s)) as [r|] eqn:E.
  - destruct (starts_lit_span _ _ _ Hp E) as (c' & sp & Hs).
    injection Hs as <- ->.
    rewrite (re_sub_match _ _ _ _ _ E). apply Hspan; [exact E|].
    apply (IH (length r)); [|reflexivity].
    subst n. simpl. rewrite length_app. lia.
  - rewrite (re_sub_nomatch _ _ _ _ E). apply Hcopy; [exact E|].
    apply (IH (length s)); [|reflexivity]. subst n. simpl. lia.
Qed.

(** The scan rewrites its subject in the sense of [Rewr]. *)
Lemma re_sub_Rewr p repl :
  starts_lit p = true -> simple p = true ->
  forall s, Rewr repl s (re_sub p repl s).
Proof.
  intros Hp Hs. apply re_sub_scan_ind; [exact Hp | constructor | |].
  - intros c s _ H. constructor. exact H.
  - intros c sp r E H.
    destruct (match_here_span_nonl _ Hs _ _ E) as (sp' & Heq & Hnl).
    change (c :: sp ++ r) with ((c :: sp) ++ r) in Heq |- *.
    apply app_inv_tail in Heq. subst sp'.
    constructor; assumption.
Qed.

(** Where the pattern matches nowhere, the substitution changes nothing. *)
Lemma search_false_cons p c s :
  search p (c :: s) = false ->
  match_here p (c :: s) = None /\ search p s = false.
Proof.
  simpl. destruct (match_here p (c :: s)); [discriminate|]. auto.
Qed.

Lemma re_sub_search_false p repl s :
  search p s = false -> re_sub p repl s = s.
Proof.
  induction s as [|c s IH]; [reflexivity|].
  intros H. apply search_false_cons in H. destruct H as [Hm Hs].
  rewrite (re_sub_nomatch _ _ _ _ Hm), (IH Hs). reflexivity.
Qed.

(** ** Matches seen through a rewriting *)

Lemma avoids_cons u i p :
  avoids u (i :: p) = true -> avoids_item u i = true /\ avoids u p = true.
Proof. unfold avoids. simpl. intros H. apply andb_true_iff in H. exact H. Qed.

Lemma avoids_item_tail c u i :
  avoids_item (c :: u) i = true -> avoids_item u i = true.
Proof.
  destruct i as [c'| | |]; simpl; trivial.
  destruct (Ascii.eqb c' c); simpl; [discriminate | trivial].
Qed.

Lemma avoids_tail c u p : avoids (c :: u) p = true -> avoids u p = true.
Proof.
  unfold avoids. rewrite !forallb_forall. intros H i Hi.
  apply (avoids_item_tail c). apply H. exact Hi.
Qed.

(** A match cannot begin inside a text that shares no character with the
    pattern's literals: it can only run over it with a wildcard. *)
Lemma matchable_skip_avoided p :
  simple p = true -> forall u t,
  avoids u p = true -> u <> [] -> matchable p (u ++ t) ->
  starts_lit p = false /\ matchable p t.
Proof.
  induction p as [|i p IH]; intros Hs u t Hav Hu Hm.
  - split; [reflexivity | exact I].
  - apply simple_cons in Hs. destruct Hs as [Hi Hs].
    apply avoids_cons in Hav as Hav'. destruct Hav' as [Hai Hap].
    destruct i as [c| |c|alts]; try discriminate.
    + exfalso. destruct u as [|c0 u]; [congruence|].
      destruct Hm as (s' & Heq & _). injection Heq as -> _.
      simpl in Hai. rewrite Ascii.eqb_refl in Hai. discriminate.
    + split; [reflexivity|]. clear Hu Hai. revert Hav Hap Hm.
      induction u as [|c u IHu]; intros Hav Hap Hm; [exact Hm|].
      destruct Hm as (m & s' & Heq & Hnl & Hm).
      destruct m as [|c' m].
      * simpl in Heq. subst s'.
        destruct (IH Hs (c :: u) t Hap ltac:(discriminate) Hm) as [_ Hm'].
        exists [], t. split; [reflexivity|]. split; [constructor | exact Hm'].
      * injection Heq as <- Heq. inversion Hnl; subst.
        apply IHu; [exact (avoids_tail _ _ _ Hav) | exact (avoids_tail _ _ _ Hap) |].
        exists m, s'. split; [exact Heq|]. split; assumption.
Qed.

(** If the rewritten text matches at its head, so did the original. *)
Lemma matchable_transfer repl p s t :
  repl <> [] -> simple p = true -> avoids repl p = true ->
  Rewr repl s t -> matchable p t -> matchable p s.
Proof.
  intros Hr Hs Hav HR. revert p Hs Hav.
  induction HR as [|c s t HR IH|span s t Hnl HR IH]; intros p Hs Hav Hm.
  - exact Hm.
  - revert Hs Hav Hm. induction p as [|i p IHp]; intros Hs Hav Hm; [exact I|].
    apply simple_cons in Hs. destruct Hs as [Hi Hs].
    apply avoids_cons in Hav as Hav'. destruct Hav' as [Hai Hap].
    destruct i as [c'| |c'|alts]; try discriminate.
    + destruct Hm as (s' & Heq & Hm). injection Heq as -> ->.
      exists s. split; [reflexivity|]. apply IH; assumption.
    + destruct Hm as (m & s' & Heq & Hnl & Hm).
      destruct m as [|c' m].
      * simpl in Heq. subst s'. exists [], (c :: s).
        split; [reflexivity|]. split; [constructor|]. apply IHp; assumption.
      * injection Heq as <- ->. inversion Hnl; subst.
        assert (Hm' : matchable (LazyAny :: p) (m ++ s')).
        { exists m, s'. split; [reflexivity|]. split; assumption. }
        apply IH in Hm'; [|unfold simple; simpl; exact Hs|exact Hav].
        destruct Hm' as (m2 & s2 & -> & Hnl2 & Hm2).
        exists (c :: m2), s2. split; [reflexivity|].
        split; [apply nonl_cons; assumption | exact Hm2].
  - destruct (matchable_skip_avoided p Hs repl t Hav Hr Hm) as [Hst Hm'].
    apply IH in Hm'; [|assumption..].
    destruct p as [|[c| |c|alts] p]; try discriminate; [exact I|].
    destruct Hm' as (m2 & s2 & -> & Hnl2 & Hm2).
    exists (span ++ m2), s2. split; [apply app_assoc|].
    split; [apply nonl_app; assumption | exact Hm2].
Qed.

Lemma search_suffix p a s : search p (a ++ s) = false -> search p s = false.
Proof.
  induction a as [|c a IH]; [trivial|].
  simpl app. intros H. apply search_false_cons in H. apply IH, H.
Qed.

Lemma search_app_avoided p u t :
  simple p = true -> starts_lit p = true -> avoids u p = true ->
  search p t = false -> search p (u ++ t) = false.
Proof.
  intros Hs Hl. induction u as [|c u IH]; intros Hav Ht; [exact Ht|].
  simpl app. simpl search.
  destruct (match_here p (c :: u ++ t)) as [r|] eqn:E.
  - apply match_here_matchable in E.
    destruct (matchable_skip_avoided p Hs (c :: u) t Hav ltac:(discriminate) E) as [Hst _].
    congruence.
  - apply IH; [exact (avoids_tail _ _ _ Hav) | exact Ht].
Qed.

(** A substitution creates no match of a pattern whose literals avoid the
    replacement text. *)
Lemma search_Rewr repl p s t :
  repl <> [] -> simple p = true -> starts_lit p = true ->
  avoids repl p = true ->
  Rewr repl s t -> search p s = false -> search p t = false.
Proof.
  intros Hr Hs Hl Hav HR.
  induction HR as [|c s t HR IH|span s t Hnl HR IH]; intros H.
  - exact H.
  - apply search_false_cons in H. destruct H as [Hm Hss].
    simpl. destruct (match_here p (c :: t)) as [r|] eqn:E; [|exact (IH Hss)].
    exfalso. apply match_here_matchable in E.
    apply (matchable_transfer repl p (c :: s) (c :: t) Hr Hs Hav) in E;
      [|constructor; exact HR].
    apply matchable_match_here in E. destruct E as [r' E]. congruence.
  - apply search_suffix in H. apply search_app_avoided; auto.
Qed.

(** After its own substitution, a pattern matches nowhere. *)
Lemma search_re_sub_self p repl :
  repl <> [] -> simple p = true -> starts_lit p = true ->
  avoids repl p = true ->
  forall s, search p (re_sub p repl s) = false.
Proof.
  intros Hr Hs Hl Hav.
  apply (re_sub_scan_ind p repl (fun _ t => search p t = false) Hl).
  - simpl. rewrite (starts_lit_nil _ Hl). reflexivity.
  - intros c s Hm H. simpl.
    destruct (match_here p (c :: re_sub p repl s)) as [r|] eqn:E; [|exact H].
    exfalso. apply match_here_matchable in E.
    apply (matchable_transfer repl p (c :: s) _ Hr Hs Hav) in E;
      [|constructor; apply re_sub_Rewr; assumption].
    apply matchable_match_here in E. destruct E as [r' E]. congruence.
  - intros c sp r _ H. apply search_app_avoided; assumption.
Qed.

(** ** Text on which a pattern cannot start *)

Lemma re_sub_match_app p repl sp r :
  sp <> [] -> match_here p (sp ++ r) = Some r ->
  re_sub p repl (sp ++ r) = repl ++ re_sub p repl r.
Proof.
  destruct sp as [|c sp]; [congruence|]. intros _. apply re_sub_match.
Qed.

Lemma inert_app p u1 u2 : inert p u1 -> inert p u2 -> inert p (u1 ++ u2).
Proof.
  induction u1 as [|c u1 IH]; simpl; [trivial|].
  intros [H1 H1'] H2. split; [|exact (IH H1' H2)].
  intros t. rewrite <- app_assoc. apply H1.
Qed.

Lemma inert_no_first c0 p u :
  ~ In c0 u -> inert (Lit c0 :: p) u.
Proof.
  induction u as [|c u IH]; simpl; [trivial|].
  intros H. split.
  - intros t. destruct (Ascii.eqb_spec c0 c) as [->|]; [|reflexivity].
    exfalso. apply H. left. reflexivity.
  - apply IH. intros Hin. apply H. right. exact Hin.
Qed.

Lemma re_sub_inert_app p repl u t :
  inert p u -> re_sub p repl (u ++ t) = u ++ re_sub p repl t.
Proof.
  induction u as [|c u IH]; simpl; [reflexivity|].
  intros [H1 H2]. rewrite (re_sub_nomatch _ _ _ _ (H1 t)), (IH H2). reflexivity.
Qed.

Lemma re_sub_inert p repl u : inert p u -> re_sub p repl u = u.
Proof.
  intros H. rewrite <- (app_nil_r u) at 1.
  rewrite (re_sub_inert_app _ _ _ _ H). rewrite re_sub_nil. apply app_nil_r.
Qed.

(** The lazy wildcard stops at the first place where the rest of the
    pattern matches: over a text [X] without line feed and without the
    first character of the closing literal, that is right after [X]. *)
Lemma match_here_lits_ne c1 cl q x s :
  x <> c1 -> match_here (lits (c1 :: cl) ++ q) (x :: s) = None.
Proof.
  intros Hx. simpl. destruct (Ascii.eqb_spec c1 x); [congruence | reflexivity].
Qed.

Lemma lazy_then_find c1 cl q X t r :
  nonl X -> ~ In c1 X ->
  match_here q t = Some r ->
  lazy_then (lits (c1 :: cl) ++ q) (X ++ (c1 :: cl) ++ t) = Some r.
Proof.
  intros Hnl Hin Hq. induction X as [|x X IH].
  - rewrite app_nil_l, lazy_then_unfold.
    rewrite match_here_lits_app, Hq. reflexivity.
  - rewrite <- app_comm_cons, lazy_then_unfold.
    assert (Hx : x <> c1) by (intros ->; apply Hin; left; reflexivity).
    rewrite (match_here_lits_ne _ _ _ _ _ Hx).
    inversion Hnl; subst.
    destruct (Ascii.eqb_spec x newline) as [|_]; [contradiction|].
    apply IH; [assumption|]. intros H. apply Hin. right. exact H.
Qed.

Lemma search_weaken p q s :
  (forall t r, match_here p t = Some r -> exists r', match_here q t = Some r') ->
  search q s = false -> search p s = false.
Proof.
  intros Hpq. induction s as [|c s IH]; simpl.
  - destruct (match_here p []) eqn:E; [|reflexivity].
    destruct (Hpq _ _ E) as [r' ->]. trivial.
  - destruct (match_here p (c :: s)) eqn:E.
    + destruct (Hpq _ _ E) as [r' ->]. trivial.
    + destruct (match_here q (c :: s)); [discriminate | exact IH].
Qed.

End RegexFacts.

(* ================================================================== *)
(** * Facts about the markup redactor *)
(* ================================================================== *)

Module RedactorFacts.
Import Regex Redactor RegexFacts.

Lemma not_In_mem c l : mem_ascii c l = false -> ~ In c l.
Proof.
  unfold mem_ascii. induction l as [|x l IH]; simpl; [tauto|].
  destruct (Ascii.eqb_spec c x) as [->|Hne]; simpl; [discriminate|].
  intros H [E|Hin]; [congruence | exact (IH H Hin)].
Qed.

Lemma not_In_app (c : ascii) l1 l2 :
  ~ In c l1 -> ~ In c l2 -> ~ In c (l1 ++ l2).
Proof. intros H1 H2 H. apply in_app_or in H. tauto. Qed.

Lemma inert_no_bracket p u :
  starts_bracket p = true -> ~ In lbracket u -> inert p u.
Proof.
  destruct p as [|[c| | |] p]; try discriminate. simpl.
  intros Hc. apply Ascii.eqb_eq in Hc. subst c. apply inert_no_first.
Qed.

Lemma contains_unfold pat s :
  contains pat s =
  match strip_prefix pat s with
  | Some _ => true
  | None => match s with [] => false | _ :: s' => contains pat s' end
  end.
Proof. destruct s; reflexivity. Qed.

Lemma contains_here pat t : contains pat (pat ++ t) = true.
Proof. rewrite contains_unfold, strip_prefix_app. reflexivity. Qed.

Lemma contains_app pat a t : contains pat (a ++ pat ++ t) = true.
Proof.
  induction a as [|c a IH]; [rewrite app_nil_l; apply contains_here|].
  rewrite <- app_comm_cons, contains_unfold.
  destruct (strip_prefix pat (c :: a ++ pat ++ t)); [reflexivity | exact IH].
Qed.

(** One tagged span whose content [X] holds neither a line feed nor the
    first character of the closing tag. *)
Lemma match_here_span_found opn c1 cl X post :
  nonl X -> ~ In c1 X ->
  match_here (lits opn ++ [LazyAny] ++ lits (c1 :: cl))
    ((opn ++ X ++ (c1 :: cl)) ++ post) = Some post.
Proof.
  intros Hnl Hin. rewrite <- !app_assoc, match_here_lits_app.
  change ([LazyAny] ++ lits (c1 :: cl)) with (LazyAny :: lits (c1 :: cl)).
  rewrite match_here_lazy.
  rewrite <- (app_nil_r (lits (c1 :: cl))).
  apply lazy_then_find; [assumption..|reflexivity].
Qed.

(** ** A redacted text holds no match of any of the four patterns *)

Ltac pattern_side :=
  first [ reflexivity | discriminate ].

Lemma anonymize_text_clean s :
  search re_anon_name (anonymize_text s) = false /\
  search re_name (anonymize_text s) = false /\
  search re_anon_any (anonymize_text s) = false /\
  search re_sensitive (anonymize_text s) = false.
Proof.
  unfold anonymize_text.
  set (t1 := re_sub re_anon_name NAME s).
  set (t2 := re_sub re_name NAME t1).
  set (t3 := re_sub re_anon_any SENSITIVE t2).
  set (t4 := re_sub re_sensitive SENSITIVE t3).
  assert (R2 : Rewr NAME t1 t2) by (apply re_sub_Rewr; pattern_side).
  assert (R3 : Rewr SENSITIVE t2 t3) by (apply re_sub_Rewr; pattern_side).
  assert (R4 : Rewr SENSITIVE t3 t4) by (apply re_sub_Rewr; pattern_side).
  assert (H11 : search re_anon_name t1 = false)
    by (apply search_re_sub_self; pattern_side).
  assert (H22 : search re_name t2 = false)
    by (apply search_re_sub_self; pattern_side).
  assert (H33 : search re_anon_any t3 = false)
    by (apply search_re_sub_self; pattern_side).
  assert (H44 : search re_sensitive t4 = false)
    by (apply search_re_sub_self; pattern_side).
  assert (H12 : search re_anon_name t2 = false)
    by (apply (search_Rewr NAME _ t1); first [assumption | pattern_side]).
  assert (H13 : search re_anon_name t3 = false)
    by (apply (search_Rewr SENSITIVE _ t2); first [assumption | pattern_side]).
  assert (H14 : search re_anon_name t4 = false)
    by (apply (search_Rewr SENSITIVE _ t3); first [assumption | pattern_side]).
  assert (H23 : search re_name t3 = false)
    by (apply (search_Rewr SENSITIVE _ t2); first [assumption | pattern_side]).
  assert (H24 : search re_name t4 = false)
    by (apply (search_Rewr SENSITIVE _ t3); first [assumption | pattern_side]).
  assert (H34 : search re_anon_any t4 = false)
    by (apply (search_Rewr SENSITIVE _ t3); first [assumption | pattern_side]).
  auto.
Qed.

(** A text without any match is left as it is. *)
Lemma anonymize_text_fixed s :
  search re_anon_name s = false -> search re_name s = false ->
  search re_anon_any s = false -> search re_sensitive s = false ->
  anonymize_text s = s.
Proof.
  intros H1 H2 H3 H4. unfold anonymize_text.
  rewrite (re_sub_search_false _ _ _ H1), (re_sub_search_false _ _ _ H2),
    (re_sub_search_false _ _ _ H3), (re_sub_search_false _ _ _ H4).
  reflexivity.
Qed.

Lemma _anonymize_text_eq s : _anonymize_text s = anonymize_text s.
Proof. reflexivity. Qed.

(** C5. The markup redactor is idempotent: redacting a redacted text
    returns it unchanged, in both scripts, and [anonymize] applied to an
    already redacted text reports [False] (no further change). *)
Theorem C5_redactor_idempotent (s : list ascii) :
  anonymize_text (anonymize_text s) = anonymize_text s /\
  _anonymize_text (_anonymize_text s) = _anonymize_text s /\
  anonymize (fst (anonymize s)) = (fst (anonymize s), false).
Proof.
  assert (H : anonymize_text (anonymize_text s) = anonymize_text s).
  { destruct (anonymize_text_clean s) as (H1 & H2 & H3 & H4).
    apply anonymize_text_fixed; assumption. }
  split; [exact H|]. split; [exact H|].
  unfold anonymize. cbv zeta. cbn [fst].
  change _anonymize_text with anonymize_text. rewrite H.
  unfold text_eqb. rewrite bool_decide_eq_true_2 by reflexivity. reflexivity.
Qed.

(** ** The pre-check *)

(** Wherever one of the four patterns matches, the pre-check matches. *)
Lemma precheck_covers p t r :
  In p [re_anon_name; re_name; re_anon_any; re_sensitive] ->
  match_here p t = Some r ->
  exists r', match_here anonymous_text_re t = Some r'.
Proof.
  intros Hp H. simpl in Hp.
  destruct Hp as [<-|[<-|[<-|[<-|[]]]]];
    apply match_here_lits_Some in H; destruct H as (s' & -> & _);
    eexists; reflexivity.
Qed.

Lemma precheck_sound s :
  search anonymous_text_re s = false -> anonymize_text s = s.
Proof.
  intros H.
  apply anonymize_text_fixed;
    (apply (search_weaken _ anonymous_text_re); [|exact H]);
    intros t r; apply precheck_covers; simpl; tauto.
Qed.

(** ** A tagged span after unnested text *)

Ltac inert_text :=
  lazymatch goal with
  | |- inert _ (_ ++ _) => apply inert_app; inert_text
  | |- inert _ _ =>
      first
        [ apply inert_no_bracket; [reflexivity | assumption]
        | apply inert_no_bracket; [reflexivity | apply not_In_mem; reflexivity]
        | (cbn [inert str list_ascii_of_string app];
           repeat split; intros; reflexivity) ]
  end.

Lemma strip_prefix_None_app a : forall s t,
  strip_prefix a s = None -> length a <= length s ->
  strip_prefix a (s ++ t) = None.
Proof.
  induction a as [|c a IH]; intros s t; cbn [strip_prefix].
  - discriminate.
  - destruct s as [|c' s]; cbn [length app]; [lia|].
    destruct (Ascii.eqb c c'); [|reflexivity].
    intros H Hl. apply IH; [exact H | lia].
Qed.

Lemma match_here_lits_None l q : forall s,
  strip_prefix l s = None -> match_here (lits l ++ q) s = None.
Proof.
  induction l as [|c l IH]; intros s; cbn [strip_prefix lits map app match_here].
  - discriminate.
  - destruct s as [|c' s]; [reflexivity|].
    destruct (Ascii.eqb c c'); [apply IH | reflexivity].
Qed.

Lemma lazy_then_closes cl q X t r :
  nonl X -> closes_first cl X ->
  match_here q t = Some r ->
  lazy_then (lits cl ++ q) (X ++ cl ++ t) = Some r.
Proof.
  intros Hnl Hc Hq. induction X as [|x X IH].
  - rewrite app_nil_l, lazy_then_unfold.
    rewrite match_here_lits_app, Hq. reflexivity.
  - destruct Hc as [Hx Hc]. rewrite <- app_comm_cons, lazy_then_unfold.
    rewrite match_here_lits_None.
    + inversion Hnl; subst.
      destruct (Ascii.eqb_spec x newline) as [|_]; [contradiction|].
      apply IH; assumption.
    + rewrite app_comm_cons, app_assoc. apply strip_prefix_None_app; [exact Hx|].
      cbn [length]. rewrite length_app. lia.
Qed.

Lemma match_here_span_closes opn cl X post :
  nonl X -> closes_first cl X ->
  match_here (lits opn ++ [LazyAny] ++ lits cl)
    ((opn ++ X ++ cl) ++ post) = Some post.
Proof.
  intros Hnl Hc. rewrite <- !app_assoc, match_here_lits_app.
  change ([LazyAny] ++ lits cl) with (LazyAny :: lits cl).
  rewrite match_here_lazy.
  rewrite <- (app_nil_r (lits cl)).
  apply lazy_then_closes; [assumption..|reflexivity].
Qed.

Lemma match_here_span2_closes opn d dl T cl X post :
  nonl T -> ~ In d T -> nonl X -> closes_first cl X ->
  match_here (lits opn ++ [LazyAny] ++ lits (d :: dl) ++ [LazyAny] ++ lits cl)
    ((opn ++ T ++ (d :: dl) ++ X ++ cl) ++ post) = Some post.
Proof.
  intros HnT HdT Hnl Hc. rewrite <- !app_assoc, match_here_lits_app.
  change ([LazyAny] ++ lits (d :: dl) ++ [LazyAny] ++ lits cl)
    with (LazyAny :: (lits (d :: dl) ++ [LazyAny] ++ lits cl)).
  rewrite match_here_lazy.
  apply lazy_then_find; [assumption..|].
  pose proof (match_here_span_closes [] cl X post Hnl Hc) as H.
  rewrite <- !app_assoc in H. exact H.
Qed.

Lemma closes_first_no_first c cl X :
  ~ In c X -> closes_first (c :: cl) X.
Proof.
  induction X as [|x X IH]; cbn [closes_first]; [trivial|].
  intros H. split.
  - cbn [strip_prefix]. destruct (Ascii.eqb_spec c x) as [->|]; [|reflexivity].
    exfalso. apply H. left. reflexivity.
  - apply IH. intros Hin. apply H. right. exact Hin.
Qed.

Lemma plain_no_bracket u : ~ In lbracket u -> plain u.
Proof.
  intros H. repeat split; apply inert_no_bracket; first [reflexivity | exact H].
Qed.

Lemma plain_app u v : plain u -> plain v -> plain (u ++ v).
Proof.
  intros (A1 & A2 & A3 & A4) (B1 & B2 & B3 & B4).
  repeat split; apply inert_app; assumption.
Qed.

(** A chunk that the first rules pass over and one rule takes. *)
Lemma redact_plain_first u t :
  plain u -> anonymize_text (u ++ t) = u ++ anonymize_text t.
Proof.
  intros (H1 & H2 & H3 & H4). unfold anonymize_text.
  rewrite (re_sub_inert_app _ NAME _ _ H1), (re_sub_inert_app _ NAME _ _ H2),
    (re_sub_inert_app _ SENSITIVE _ _ H3), (re_sub_inert_app _ SENSITIVE _ _ H4).
  reflexivity.
Qed.

Lemma NAME_plain : plain NAME.
Proof. apply plain_no_bracket. apply not_In_mem. reflexivity. Qed.

Lemma SENSITIVE_plain : plain SENSITIVE.
Proof. apply plain_no_bracket. apply not_In_mem. reflexivity. Qed.

Lemma redact_taken_1 c t :
  c <> [] -> (forall t', match_here re_anon_name (c ++ t') = Some t') ->
  anonymize_text (c ++ t) = NAME ++ anonymize_text t.
Proof.
  intros Hc Hm. destruct NAME_plain as (_ & N2 & N3 & N4). unfold anonymize_text.
  rewrite (re_sub_match_app _ _ _ _ Hc (Hm _)).
  rewrite (re_sub_inert_app _ NAME _ _ N2),
    (re_sub_inert_app _ SENSITIVE _ _ N3), (re_sub_inert_app _ SENSITIVE _ _ N4).
  reflexivity.
Qed.

Lemma redact_taken_2 c t :
  inert re_anon_name c ->
  c <> [] -> (forall t', match_here re_name (c ++ t') = Some t') ->
  anonymize_text (c ++ t) = NAME ++ anonymize_text t.
Proof.
  intros H1 Hc Hm. destruct NAME_plain as (_ & _ & N3 & N4). unfold anonymize_text.
  rewrite (re_sub_inert_app _ NAME _ _ H1).
  rewrite (re_sub_match_app _ _ _ _ Hc (Hm _)).
  rewrite (re_sub_inert_app _ SENSITIVE _ _ N3), (re_sub_inert_app _ SENSITIVE _ _ N4).
  reflexivity.
Qed.

Lemma redact_taken_3 c t :
  inert re_anon_name c -> inert re_name c ->
  c <> [] -> (forall t', match_here re_anon_any (c ++ t') = Some t') ->
  anonymize_text (c ++ t) = SENSITIVE ++ anonymize_text t.
Proof.
  intros H1 H2 Hc Hm. destruct SENSITIVE_plain as (_ & _ & _ & N4).
  unfold anonymize_text.
  rewrite (re_sub_inert_app _ NAME _ _ H1), (re_sub_inert_app _ NAME _ _ H2).
  rewrite (re_sub_match_app _ _ _ _ Hc (Hm _)).
  rewrite (re_sub_inert_app _ SENSITIVE _ _ N4).
  reflexivity.
Qed.

Lemma redact_taken_4 c t :
  inert re_anon_name c -> inert re_name c -> inert re_anon_any c ->
  c <> [] -> (forall t', match_here re_sensitive (c ++ t') = Some t') ->
  anonymize_text (c ++ t) = SENSITIVE ++ anonymize_text t.
Proof.
  intros H1 H2 H3 Hc Hm. unfold anonymize_text.
  rewrite (re_sub_inert_app _ NAME _ _ H1), (re_sub_inert_app _ NAME _ _ H2),
    (re_sub_inert_app _ SENSITIVE _ _ H3).
  rewrite (re_sub_match_app _ _ _ _ Hc (Hm _)).
  reflexivity.
Qed.

Lemma redact_anon_name_first Z post :
  anon_name_content Z ->
  anonymize_text (anon_open (str "name") ++ Z ++ str "[/anon]" ++ post)
  = NAME ++ anonymize_text post.
Proof.
  intros (Hnl & Hc).
  replace (anon_open (str "name") ++ Z ++ str "[/anon]" ++ post)
    with ((anon_open (str "name") ++ Z ++ str "[/anon]") ++ post)
    by (rewrite <- !app_assoc; reflexivity).
  apply redact_taken_1; [discriminate|].
  intros t'. apply (match_here_span_closes (anon_open (str "name"))); assumption.
Qed.

Lemma redact_name_first X post :
  name_content X ->
  anonymize_text (str "[name]" ++ X ++ str "[/name]" ++ post)
  = NAME ++ anonymize_text post.
Proof.
  intros (Hnl & Hc & H1).
  replace (str "[name]" ++ X ++ str "[/name]" ++ post)
    with ((str "[name]" ++ X ++ str "[/name]") ++ post)
    by (rewrite <- !app_assoc; reflexivity).
  apply redact_taken_2.
  - apply inert_app; [inert_text|]. apply inert_app; [exact H1 | inert_text].
  - discriminate.
  - intros t'. apply (match_here_span_closes (str "[name]")); assumption.
Qed.

Lemma anon_type_not_name T t q :
  ~ In dquote T -> T <> str "name" ->
  match_here (lits (str "name" ++ [dquote] ++ str "]") ++ q)
    (T ++ [dquote] ++ str "]" ++ t) = None.
Proof.
  intros Hq Hn.
  destruct T as [|c1 T]; [reflexivity|].
  cbn [str list_ascii_of_string lits map app match_here].
  destruct (Ascii.eqb_spec "n" c1) as [<-|]; [|reflexivity].
  destruct T as [|c2 T]; [reflexivity|]. cbn [app].
  destruct (Ascii.eqb_spec "a" c2) as [<-|]; [|reflexivity].
  destruct T as [|c3 T]; [reflexivity|]. cbn [app].
  destruct (Ascii.eqb_spec "m" c3) as [<-|]; [|reflexivity].
  destruct T as [|c4 T]; [reflexivity|]. cbn [app].
  destruct (Ascii.eqb_spec "e" c4) as [<-|]; [|reflexivity].
  destruct T as [|c5 T]; [exfalso; apply Hn; reflexivity|]. cbn [app].
  destruct (Ascii.eqb_spec dquote c5) as [<-|]; [|reflexivity].
  exfalso. apply Hq. do 4 right. left. reflexivity.
Qed.

Lemma anon_open_inert_name T :
  anon_type T -> inert re_anon_name (anon_open T).
Proof.
  intros (_ & Hq & Hb & Hn). unfold anon_open.
  change (str "[anon type=" ++ [dquote] ++ T ++ [dquote] ++ str "]")
    with (lbracket :: (str "anon type=" ++ [dquote] ++ T ++ [dquote] ++ str "]")).
  cbn [inert]. split.
  - intros t.
    change re_anon_name
      with (lits (str "[anon type=" ++ [dquote])
              ++ (lits (str "name" ++ [dquote] ++ str "]")
                    ++ [LazyAny] ++ lits (str "[/anon]"))).
    change (lbracket :: (str "anon type=" ++ [dquote] ++ T ++ [dquote] ++ str "]") ++ t)
      with ((str "[anon type=" ++ [dquote]) ++ ((T ++ [dquote] ++ str "]") ++ t)).
    rewrite match_here_lits_app. rewrite <- !app_assoc.
    apply anon_type_not_name; assumption.
  - apply inert_no_bracket; [reflexivity|].
    apply not_In_app; [apply not_In_mem; reflexivity|].
    apply not_In_app; [apply not_In_mem; reflexivity|].
    apply not_In_app; [exact Hb|]. apply not_In_mem. reflexivity.
Qed.

Lemma anon_open_inert_re_name T :
  ~ In lbracket T -> inert re_name (anon_open T).
Proof.
  intros Hb. unfold anon_open.
  change (str "[anon type=" ++ [dquote] ++ T ++ [dquote] ++ str "]")
    with (lbracket :: (str "anon type=" ++ [dquote] ++ T ++ [dquote] ++ str "]")).
  cbn [inert]. split; [intros t; reflexivity|].
  apply inert_no_bracket; [reflexivity|].
  apply not_In_app; [apply not_In_mem; reflexivity|].
  apply not_In_app; [apply not_In_mem; reflexivity|].
  apply not_In_app; [exact Hb|]. apply not_In_mem. reflexivity.
Qed.

Lemma anon_any_matches T Y post :
  nonl T -> ~ In dquote T -> nonl Y -> closes_first (str "[/anon]") Y ->
  match_here re_anon_any ((anon_open T ++ Y ++ str "[/anon]") ++ post)
  = Some post.
Proof.
  intros HnT HqT HnY HcY.
  pose proof (match_here_span2_closes (str "[anon type=" ++ [dquote]) dquote
                (str "]") T (str "[/anon]") Y post HnT HqT HnY HcY) as H.
  unfold anon_open. repeat rewrite <- app_assoc in H.
  repeat rewrite <- app_assoc. exact H.
Qed.

Lemma redact_anon_first T Y post :
  anon_type T -> anon_content Y ->
  anonymize_text (anon_open T ++ Y ++ str "[/anon]" ++ post)
  = SENSITIVE ++ anonymize_text post.
Proof.
  intros HT (Hnl & Hc & H1 & H2).
  pose proof HT as (HnT & HqT & HbT & HneT).
  replace (anon_open T ++ Y ++ str "[/anon]" ++ post)
    with ((anon_open T ++ Y ++ str "[/anon]") ++ post)
    by (rewrite <- !app_assoc; reflexivity).
  apply redact_taken_3.
  - apply inert_app; [apply anon_open_inert_name; exact HT|].
    apply inert_app; [exact H1 | inert_text].
  - apply inert_app; [apply anon_open_inert_re_name; exact HbT|].
    apply inert_app; [exact H2 | inert_text].
  - unfold anon_open. discriminate.
  - intros t'. apply anon_any_matches; assumption.
Qed.

Lemma redact_sensitive_first W post :
  sensitive_content W ->
  anonymize_text (str "[sensitive]" ++ W ++ str "[/sensitive]" ++ post)
  = SENSITIVE ++ anonymize_text post.
Proof.
  intros (Hnl & Hc & H1 & H2 & H3).
  replace (str "[sensitive]" ++ W ++ str "[/sensitive]" ++ post)
    with ((str "[sensitive]" ++ W ++ str "[/sensitive]") ++ post)
    by (rewrite <- !app_assoc; reflexivity).
  apply redact_taken_4.
  - apply inert_app; [inert_text|]. apply inert_app; [exact H1 | inert_text].
  - apply inert_app; [inert_text|]. apply inert_app; [exact H2 | inert_text].
  - apply inert_app; [inert_text|]. apply inert_app; [exact H3 | inert_text].
  - discriminate.
  - intros t'. apply (match_here_span_closes (str "[sensitive]")); assumption.
Qed.

Lemma anonymize_text_nil : anonymize_text [] = [].
Proof. reflexivity. Qed.

(** The redaction of an unnested text does not depend on what follows. *)
Lemma unnested_split pre :
  unnested pre ->
  forall t, anonymize_text (pre ++ t) = anonymize_text pre ++ anonymize_text t.
Proof.
  induction 1 as [|u rest Hu _ IH|Z rest HZ _ IH|X rest HX _ IH
                  |T Y rest HT HY _ IH|W rest HW _ IH]; intros t.
  - reflexivity.
  - rewrite <- app_assoc, !(redact_plain_first u) by exact Hu.
    rewrite IH, app_assoc. reflexivity.
  - rewrite <- !app_assoc, !(redact_anon_name_first Z) by exact HZ.
    rewrite IH, app_assoc. reflexivity.
  - rewrite <- !app_assoc, !(redact_name_first X) by exact HX.
    rewrite IH, app_assoc. reflexivity.
  - rewrite <- !app_assoc, !(redact_anon_first T Y) by assumption.
    rewrite IH, app_assoc. reflexivity.
  - rewrite <- !app_assoc, !(redact_sensitive_first W) by exact HW.
    rewrite IH, app_assoc. reflexivity.
Qed.

Lemma topic_type : anon_type (str "topic").
Proof.
  split; [repeat constructor; discriminate|].
  split; [apply not_In_mem; reflexivity|].
  split; [apply not_In_mem; reflexivity | discriminate].
Qed.

Ltac span_content :=
  repeat split;
  first [ repeat constructor; discriminate
        | apply closes_first_no_first; apply not_In_mem; reflexivity
        | apply inert_no_bracket; [reflexivity | apply not_In_mem; reflexivity]
        | apply not_In_mem; reflexivity
        | discriminate ].

(** C1 (as amended). For a tagged span that is not nested in other
    markup -- the text [pre] before it is made of plain text and of
    complete spans ([unnested]; any text without opening bracket is of this
    kind), and its content [X] holds no line feed, is followed by the first
    closing tag and holds nothing that an earlier rule could match -- and
    for every text [post] after it, the redactor of either script returns
    the redaction of [pre], then [(NAME)] for [[name]X[/name]] and
    [(SENSITIVE)] for [[anon type="topic"]X[/anon]], then the redaction of
    [post]: the output contains the placeholder, and the captured content
    is discarded, not interpolated (the output is made of what comes from
    [pre], the placeholder and what comes from [post]).  Plain text before
    the span is copied as it is. *)
Theorem C1_tagged_span_replaced_by_placeholder (pre X post : list ascii) :
  unnested pre ->
  let s_name := pre ++ str "[name]" ++ X ++ str "[/name]" ++ post in
  let s_topic := pre ++ anon_open (str "topic") ++ X ++ str "[/anon]" ++ post in
  (name_content X ->
   anonymize_text s_name = anonymize_text pre ++ NAME ++ anonymize_text post /\
   _anonymize_text s_name = _anonymize_text pre ++ NAME ++ _anonymize_text post /\
   contains NAME (anonymize_text s_name) = true) /\
  (anon_content X ->
   anonymize_text s_topic
   = anonymize_text pre ++ SENSITIVE ++ anonymize_text post /\
   _anonymize_text s_topic
   = _anonymize_text pre ++ SENSITIVE ++ _anonymize_text post /\
   contains SENSITIVE (anonymize_text s_topic) = true) /\
  (plain pre -> anonymize_text pre = pre).
Proof.
  intros Hpre s_name s_topic. split; [|split].
  - intros HX.
    assert (E : anonymize_text s_name
                = anonymize_text pre ++ NAME ++ anonymize_text post).
    { unfold s_name. rewrite (unnested_split pre Hpre).
      rewrite (redact_name_first X post HX). reflexivity. }
    split; [exact E|]. split; [exact E|]. rewrite E. apply contains_app.
  - intros HX.
    assert (E : anonymize_text s_topic
                = anonymize_text pre ++ SENSITIVE ++ anonymize_text post).
    { unfold s_topic. rewrite (unnested_split pre Hpre).
      rewrite (redact_anon_first _ X post topic_type HX). reflexivity. }
    split; [exact E|]. split; [exact E|]. rewrite E. apply contains_app.
  - intros Hp. rewrite <- (app_nil_r pre) at 1.
    rewrite (redact_plain_first pre [] Hp). apply app_nil_r.
Qed.

Lemma C1_witness :
  anonymize_text
    ((str "see [1]: " ++ str "[name]" ++ str "Al" ++ str "[/name]"
        ++ str " met " ++ [])
       ++ str "[name]" ++ str "Bob" ++ str "[/name]"
       ++ str " and [sensitive]x[/sensitive] [name")
  = str "see [1]: (NAME) met (NAME) and (SENSITIVE) [name" /\
  anonymize_text
    ([] ++ anon_open (str "topic") ++ str "the [old] mill" ++ str "[/anon]"
       ++ str " [anon")
  = str "(SENSITIVE) [anon".
Proof.
  split.
  - destruct (C1_tagged_span_replaced_by_placeholder
                (str "see [1]: " ++ str "[name]" ++ str "Al" ++ str "[/name]"
                   ++ str " met " ++ [])
                (str "Bob") (str " and [sensitive]x[/sensitive] [name"))
      as [H _].
    + apply unnested_plain; [repeat split; inert_text|].
      apply unnested_name; [span_content|].
      apply unnested_plain; [apply plain_no_bracket, not_In_mem; reflexivity|].
      apply unnested_nil.
    + destruct H as [E _]; [span_content|]. rewrite E. vm_compute. reflexivity.
  - destruct (C1_tagged_span_replaced_by_placeholder []
                (str "the [old] mill") (str " [anon"))
      as (_ & H & _); [apply unnested_nil|].
    destruct H as [E _].
    + split; [repeat constructor; discriminate|].
      split; [cbn; repeat split|]. split; inert_text.
    + rewrite E. vm_compute. reflexivity.
Defined.

(** C1 fails as stated.  The first text contains the well-formed span
    [[name]Bob[/name]], yet the output holds no [(NAME)] (the enclosing
    [[anon type="x"]] span becomes [(SENSITIVE)]) and still holds [Bob]
    (the untagged occurrence is copied).  In the second text the content of
    the span holds a line feed, which the wildcard does not cross: the
    text is returned as it is. *)
Lemma C1_counterexample :
  (let s := anon_open (str "x") ++ str "[name]" ++ str "Bob" ++ str "[/name]"
              ++ str "[/anon] Bob" in
   anonymize_text s = str "(SENSITIVE) Bob" /\
   contains NAME (anonymize_text s) = false /\
   contains (str "Bob") (anonymize_text s) = true) /\
  (let s := str "[name]" ++ str "Al" ++ [newline] ++ str "Bo"
              ++ str "[/name]" in
   anonymize_text s = s /\ contains NAME (anonymize_text s) = false).
Proof. vm_compute. repeat split. Qed.

(** ** The name rule reaches the span whatever stands before it *)

(** A literal that holds no opening bracket and matches at the head of
    [b ++ [ :: T] lies within [b]. *)
Lemma strip_prefix_within L : forall b T r,
  ~ In lbracket L ->
  strip_prefix L (b ++ lbracket :: T) = Some r ->
  exists b', b = L ++ b' /\ r = b' ++ lbracket :: T.
Proof.
  induction L as [|x L IH]; intros b T r HL; cbn [strip_prefix].
  - intros [= <-]. exists b. split; reflexivity.
  - destruct b as [|c b]; cbn [app].
    + destruct (Ascii.eqb_spec x lbracket) as [->|]; [|discriminate].
      exfalso. apply HL. left. reflexivity.
    + destruct (Ascii.eqb_spec x c) as [->|]; [|discriminate].
      intros H. destruct (IH b T r) as (b' & -> & ->); [|exact H|].
      * intros Hin. apply HL. right. exact Hin.
      * exists b'. split; reflexivity.
Qed.

(** The same for a tag, which begins with the bracket and holds no other:
    when it matches at the head of [b ++ [ :: T] and [b] is not empty, it
    lies within [b]. *)
Lemma strip_prefix_tag_within L b T r :
  ~ In lbracket L -> b <> [] ->
  strip_prefix (lbracket :: L) (b ++ lbracket :: T) = Some r ->
  exists b', b = (lbracket :: L) ++ b' /\ r = b' ++ lbracket :: T.
Proof.
  intros HL Hb. destruct b as [|c b]; [congruence|]. cbn [app strip_prefix].
  destruct (Ascii.eqb_spec lbracket c) as [<-|]; [|discriminate].
  intros H. destruct (strip_prefix_within L b T r HL H) as (b' & -> & ->).
  exists b'. split; reflexivity.
Qed.

Lemma match_here_lits_strip l s r :
  match_here (lits l) s = Some r -> strip_prefix l s = Some r.
Proof.
  intros H. rewrite <- (app_nil_r (lits l)) in H.
  apply match_here_lits_Some in H. destruct H as (s' & -> & H).
  cbn in H. injection H as <-. apply strip_prefix_app.
Qed.

Section NameRuleFirst.
Variables (Z post : list ascii).
Hypothesis HZ : anon_name_content Z.

Let T' : list ascii :=
  str "anon type=" ++ [dquote] ++ str "name" ++ [dquote] ++ str "]"
    ++ Z ++ str "[/anon]" ++ post.
Let T : list ascii := lbracket :: T'.

Lemma span_then_post :
  T = (anon_open (str "name") ++ Z ++ str "[/anon]") ++ post.
Proof. unfold T, T', anon_open. rewrite <- !app_assoc. reflexivity. Qed.

Lemma lazy_reaches_span_end b : forall r,
  lazy_then (lits (str "[/anon]")) (b ++ T) = Some r ->
  (exists b', r = b' ++ T /\ length b' < length b) \/ r = post.
Proof.
  destruct HZ as [Hnl Hc].
  induction b as [|c b IH]; intros r.
  - rewrite app_nil_l. intros H. right.
    assert (E : lazy_then (lits (str "[/anon]") ++ [])
                  ((anon_open (str "name") ++ Z) ++ str "[/anon]" ++ post)
                = Some post).
    { apply lazy_then_closes; [| |reflexivity].
      - apply nonl_app; [repeat constructor; discriminate | exact Hnl].
      - unfold anon_open. cbn [str list_ascii_of_string app closes_first].
        repeat split; exact Hc. }
    rewrite app_nil_r, <- app_assoc in E.
    change (anon_open (str "name") ++ Z ++ str "[/anon]" ++ post) with T in E.
    congruence.
  - rewrite <- app_comm_cons, lazy_then_unfold.
    destruct (match_here (lits (str "[/anon]")) (c :: b ++ T)) as [r'|] eqn:E.
    + intros [= <-]. left. apply match_here_lits_strip in E.
      destruct (strip_prefix_tag_within (str "/anon]") (c :: b) T' r')
        as (b' & Eb & ->); [apply not_In_mem; reflexivity | discriminate | exact E |].
      exists b'. split; [reflexivity|]. rewrite Eb, length_app. cbn. lia.
    + destruct (Ascii.eqb c newline); [discriminate|].
      intros H. destruct (IH r H) as [(b' & -> & Hl)| ->]; [left|right; reflexivity].
      exists b'. split; [reflexivity|]. cbn [length]. lia.
Qed.

Lemma match_reaches_span_end b r :
  b <> [] ->
  match_here re_anon_name (b ++ T) = Some r ->
  (exists b', r = b' ++ T /\ length b' < length b) \/ r = post.
Proof.
  intros Hb H.
  change re_anon_name
    with (lits (anon_open (str "name")) ++ [LazyAny] ++ lits (str "[/anon]")) in H.
  apply match_here_lits_Some in H. destruct H as (s' & E & H).
  assert (E' : strip_prefix (anon_open (str "name")) (b ++ T) = Some s')
    by (apply strip_prefix_Some; exact E).
  destruct (strip_prefix_tag_within
              (str "anon type=" ++ [dquote] ++ str "name" ++ [dquote] ++ str "]")
              b T' s') as (b1 & Eb & ->);
    [apply not_In_mem; reflexivity | exact Hb | exact E' |].
  change ([LazyAny] ++ lits (str "[/anon]")) with (LazyAny :: lits (str "[/anon]")) in H.
  rewrite match_here_lazy in H.
  destruct (lazy_reaches_span_end b1 r H) as [(b' & -> & Hl)| ->];
    [left | right; reflexivity].
  exists b'. split; [reflexivity|]. rewrite Eb, length_app. lia.
Qed.

Lemma name_rule_reaches_span n : forall b,
  length b <= n ->
  exists u, re_sub re_anon_name NAME (b ++ T)
            = u ++ NAME ++ re_sub re_anon_name NAME post.
Proof.
  destruct HZ as [Hnl Hc].
  assert (H0 : re_sub re_anon_name NAME T
               = NAME ++ re_sub re_anon_name NAME post).
  { rewrite span_then_post. apply re_sub_match_app; [discriminate|].
    apply (match_here_span_closes (anon_open (str "name"))); assumption. }
  induction n as [|n IH]; intros b Hb.
  - destruct b; [|cbn in Hb; lia]. exists []. exact H0.
  - destruct b as [|c b]; [exists []; exact H0|]. cbn [length] in Hb.
    destruct (match_here re_anon_name ((c :: b) ++ T)) as [r|] eqn:E.
    + destruct (match_here_span _ _ _ E) as [sp Esp].
      assert (Hsp : sp <> []).
      { intros ->. cbn [app] in Esp. subst r.
        destruct (match_reaches_span_end (c :: b) _ ltac:(discriminate) E)
          as [(b' & E1 & Hl)|E1].
        - apply (f_equal (@length ascii)) in E1.
          cbn [length app] in E1, Hl. rewrite !length_app in E1. lia.
        - apply (f_equal (@length ascii)) in E1.
          unfold T, T' in E1. cbn [length app] in E1.
          repeat (rewrite length_app in E1; cbn [length] in E1). lia. }
      rewrite Esp in E |- *. rewrite (re_sub_match_app _ _ _ _ Hsp E).
      rewrite <- Esp in E.
      destruct (match_reaches_span_end (c :: b) r ltac:(discriminate) E)
        as [(b' & -> & Hl)| ->].
      * destruct (IH b') as [u Hu]; [cbn [length] in Hl; lia|].
        exists (NAME ++ u). rewrite Hu, <- app_assoc. reflexivity.
      * exists []. reflexivity.
    + rewrite <- app_comm_cons in E |- *. rewrite (re_sub_nomatch _ _ _ _ E).
      destruct (IH b) as [u Hu]; [lia|]. exists (c :: u). rewrite Hu. reflexivity.
Qed.

End NameRuleFirst.

Lemma name_rule_first pre Z post :
  anon_name_content Z ->
  exists u,
    re_sub re_anon_name NAME
      (pre ++ (anon_open (str "name") ++ Z ++ str "[/anon]") ++ post)
    = u ++ NAME ++ re_sub re_anon_name NAME post.
Proof.
  intros HZ.
  destruct (name_rule_reaches_span Z post HZ (length pre) pre (le_n _))
    as [u Hu].
  exists u. rewrite <- Hu. unfold anon_open. rewrite <- !app_assoc.
  reflexivity.
Qed.

(** C6 (as amended). For every text that holds a span
    [[anon type="name"]Z[/anon]] whose content [Z] holds no line feed and
    is followed by the first [[/anon]], whatever stands before and after
    it, the name rule, which is applied first, replaces the span by
    [(NAME)]: the first substitution returns a text [u], then [(NAME)],
    then what it makes of [post] (the match that is replaced ends with the
    span; it begins before the span when [pre] holds an opening tag of the
    name rule that is not closed).  The generic rule matches the span as
    well and, applied alone, would put [(SENSITIVE)].  When the span is
    not nested in other markup -- [pre] is made of plain text and of
    complete spans -- the redactor returns the redaction of [pre], then
    [(NAME)], then the redaction of [post], and not [(SENSITIVE)] in the
    place of [(NAME)]. *)
Theorem C6_name_rule_has_priority (pre Z post : list ascii) :
  anon_name_content Z ->
  let span := anon_open (str "name") ++ Z ++ str "[/anon]" in
  let s := pre ++ span ++ post in
  (exists u,
     re_sub re_anon_name NAME s = u ++ NAME ++ re_sub re_anon_name NAME post) /\
  match_here re_anon_name (span ++ post) = Some post /\
  match_here re_anon_any (span ++ post) = Some post /\
  re_sub re_anon_any SENSITIVE (span ++ post)
  = SENSITIVE ++ re_sub re_anon_any SENSITIVE post /\
  (unnested pre ->
   anonymize_text s = anonymize_text pre ++ NAME ++ anonymize_text post /\
   _anonymize_text s = _anonymize_text pre ++ NAME ++ _anonymize_text post /\
   anonymize_text s <> anonymize_text pre ++ SENSITIVE ++ anonymize_text post).
Proof.
  intros HZ span s. pose proof HZ as (Hnl & Hc).
  assert (M3 : match_here re_anon_any (span ++ post) = Some post).
  { apply anon_any_matches; first [assumption | apply not_In_mem; reflexivity
                                  | repeat constructor; discriminate]. }
  split; [exact (name_rule_first pre Z post HZ)|].
  split; [apply (match_here_span_closes (anon_open (str "name"))); assumption|].
  split; [exact M3|].
  split; [apply re_sub_match_app; [discriminate | exact M3]|].
  intros Hpre.
  assert (E : anonymize_text s
              = anonymize_text pre ++ NAME ++ anonymize_text post).
  { unfold s, span. rewrite (unnested_split pre Hpre), <- !app_assoc.
    rewrite (redact_anon_name_first Z post HZ). reflexivity. }
  split; [exact E|]. split; [exact E|].
  rewrite E. intros H. apply app_inv_head in H. discriminate H.
Qed.

Lemma C6_witness :
  anonymize_text
    ((str "[sensitive]" ++ str "x" ++ str "[/sensitive]" ++ str " a[0] " ++ [])
       ++ (anon_open (str "name") ++ str "Zed" ++ str "[/anon]")
       ++ str " b [anon type=")
  = str "(SENSITIVE) a[0] (NAME) b [anon type=".
Proof.
  destruct (C6_name_rule_has_priority
              (str "[sensitive]" ++ str "x" ++ str "[/sensitive]"
                 ++ str " a[0] " ++ [])
              (str "Zed") (str " b [anon type=")) as (_ & _ & _ & _ & H).
  - span_content.
  - destruct H as [E _].
    + apply unnested_sensitive; [span_content|].
      apply unnested_plain; [repeat split; inert_text|]. apply unnested_nil.
    + rewrite E. vm_compute. reflexivity.
Defined.

(** C6 fails as stated.  In the first text the content of the well-formed
    span [[anon type="name"]...[/anon]] holds a line feed: no rule matches
    and the span is returned as it is, not replaced by [(NAME)].  In the
    second the span stands inside a generic span: the output is
    [(SENSITIVE)] alone, without [(NAME)]. *)
Lemma C6_counterexample :
  (let s := anon_open (str "name") ++ str "Al" ++ [newline] ++ str "Bo"
              ++ str "[/anon]" in
   anonymize_text s = s /\ contains NAME (anonymize_text s) = false) /\
  (let s := anon_open (str "x") ++ str "a " ++ anon_open (str "name")
              ++ str "Zed" ++ str "[/anon]" ++ str " b[/anon]" in
   anonymize_text s = SENSITIVE /\ contains NAME (anonymize_text s) = false).
Proof. vm_compute. repeat split. Qed.

(** ** More on the redactor *)

Lemma search_found p a t r :
  match_here p t = Some r -> search p (a ++ t) = true.
Proof.
  intros H. destruct (search p (a ++ t)) eqn:E; [reflexivity|].
  apply search_suffix in E. destruct t; simpl in E; rewrite H in E;
    discriminate.
Qed.

Lemma matchable_lits l q s :
  matchable q s -> matchable (lits l ++ q) (l ++ s).
Proof.
  induction l as [|c l IH]; intros H; [exact H|].
  simpl. exists (l ++ s). split; [reflexivity | exact (IH H)].
Qed.

Lemma matchable_lazy q m s :
  nonl m -> matchable q s -> matchable ([LazyAny] ++ q) (m ++ s).
Proof. intros Hm H. simpl. exists m, s. auto. Qed.

Lemma matchable_lits_end l s : matchable (lits l) (l ++ s).
Proof.
  rewrite <- (app_nil_r (lits l)). apply matchable_lits. exact I.
Qed.

(** X12.  No tagged span survives.  Whatever the text, the result of the
    redactor holds no complete span of the three kinds of tag (the content
    and the type holding no line feed): neither [[name]...[/name]], nor
    [[sensitive]...[/sensitive]], nor [[anon type="..."]...[/anon]]. *)
Theorem no_tagged_span_survives (s pre X T post : list ascii) :
  nonl X -> nonl T ->
  anonymize_text s <> pre ++ str "[name]" ++ X ++ str "[/name]" ++ post /\
  anonymize_text s
  <> pre ++ str "[sensitive]" ++ X ++ str "[/sensitive]" ++ post /\
  anonymize_text s <> pre ++ anon_open T ++ X ++ str "[/anon]" ++ post.
Proof.
  intros HX HT.
  destruct (anonymize_text_clean s) as (_ & Hn & Ha & Hs).
  assert (Hfound : forall p t,
            matchable p t -> search p (anonymize_text s) = false ->
            anonymize_text s <> pre ++ t).
  { intros p t Hm Hno E. rewrite E in Hno.
    destruct (matchable_match_here _ _ Hm) as [r Hr].
    rewrite (search_found _ _ _ _ Hr) in Hno. discriminate. }
  split; [|split].
  - apply (Hfound re_name); [|exact Hn].
    apply matchable_lits, matchable_lazy; [exact HX|].
    apply matchable_lits_end.
  - apply (Hfound re_sensitive); [|exact Hs].
    apply matchable_lits, matchable_lazy; [exact HX|].
    apply matchable_lits_end.
  - apply (Hfound re_anon_any); [|exact Ha].
    unfold anon_open, re_anon_any. rewrite <- !app_assoc.
    replace (str "[anon type=" ++ [dquote] ++ T ++ [dquote] ++ str "]" ++ X ++ str "[/anon]" ++ post)
      with ((str "[anon type=" ++ [dquote]) ++ T ++ ([dquote] ++ str "]") ++ X ++ str "[/anon]" ++ post)
      by (rewrite <- !app_assoc; reflexivity).
    apply matchable_lits, matchable_lazy; [exact HT|].
    apply matchable_lits, matchable_lazy; [exact HX|].
    apply matchable_lits_end.
Qed.

Lemma no_tagged_span_survives_witness :
  anonymize_text (str "[name][name]Bob[/name][/name]")
  <> str "[name]Bob[/name]".
Proof.
  refine (proj1 (no_tagged_span_survives _ [] (str "Bob") [] [] _ _)).
  - repeat constructor; discriminate.
  - constructor.
Defined.

Lemma matchable_lits_inv l q : forall t,
  matchable (lits l ++ q) t -> exists s', t = l ++ s' /\ matchable q s'.
Proof.
  induction l as [|c l IH]; intros t.
  - intros H. exists t. auto.
  - simpl. intros (s' & -> & H). destruct (IH _ H) as (s'' & -> & H').
    exists s''. auto.
Qed.

Lemma matchable_ends_with q l : forall t,
  matchable (q ++ lits l) t -> exists a b, t = a ++ l ++ b.
Proof.
  induction q as [|i q IH]; intros t.
  - rewrite app_nil_l, <- (app_nil_r (lits l)). intros H.
    destruct (matchable_lits_inv _ _ _ H) as (s' & -> & _).
    exists [], s'. reflexivity.
  - destruct i as [c| |c|alts]; simpl.
    + intros (s' & -> & H). destruct (IH _ H) as (a & b & ->).
      exists (c :: a), b. reflexivity.
    + intros (m & s' & -> & _ & H). destruct (IH _ H) as (a & b & ->).
      exists (m ++ a), b. rewrite <- app_assoc. reflexivity.
    + intros [H|(s' & -> & H)]; destruct (IH _ H) as (a & b & ->).
      * exists a, b. reflexivity.
      * exists (c :: a), b. reflexivity.
    + intros (x & s' & _ & -> & H). destruct (IH _ H) as (a & b & ->).
      exists (x ++ a), b. rewrite <- app_assoc. reflexivity.
Qed.

Lemma search_true_inv p s :
  search p s = true -> exists a t r, s = a ++ t /\ match_here p t = Some r.
Proof.
  induction s as [|c s IH]; simpl.
  - destruct (match_here p []) as [r|] eqn:E; [|discriminate].
    intros _. exists [], [], r. auto.
  - destruct (match_here p (c :: s)) as [r|] eqn:E.
    + intros _. exists [], (c :: s), r. auto.
    + intros H. destruct (IH H) as (a & t & r & -> & Hr).
      exists (c :: a), t, r. auto.
Qed.

Lemma search_needs_closing q tail s :
  search (q ++ lits (str "[/" ++ tail)) s = true ->
  contains (str "[/") s = true.
Proof.
  intros H. destruct (search_true_inv _ _ H) as (a & t & r & -> & Hr).
  apply match_here_matchable in Hr.
  destruct (matchable_ends_with _ _ _ Hr) as (a' & b & ->).
  replace (a ++ a' ++ (str "[/" ++ tail) ++ b)
    with ((a ++ a') ++ str "[/" ++ (tail ++ b))
    by (rewrite <- !app_assoc; reflexivity).
  apply contains_app.
Qed.

(** X13.  Markup that is not closed is left alone.  A text in which no
    closing tag begins (it holds no [[/]) is returned as it is, opening
    tags and the text after them included. *)
Theorem text_without_closing_tag_is_unchanged (s : list ascii) :
  contains (str "[/") s = false -> anonymize_text s = s.
Proof.
  intros H.
  assert (Hp : forall q tail,
            search (q ++ lits (str "[/" ++ tail)) s = false).
  { intros q tail.
    destruct (search (q ++ lits (str "[/" ++ tail)) s) eqn:E;
      [|reflexivity].
    rewrite (search_needs_closing _ _ _ E) in H. discriminate. }
  apply anonymize_text_fixed.
  - exact (Hp (lits (anon_open (str "name")) ++ [LazyAny]) (str "anon]")).
  - exact (Hp (lits (str "[name]") ++ [LazyAny]) (str "name]")).
  - exact (Hp (lits (str "[anon type=" ++ [dquote]) ++ [LazyAny]
                 ++ lits ([dquote] ++ str "]") ++ [LazyAny]) (str "anon]")).
  - exact (Hp (lits (str "[sensitive]") ++ [LazyAny]) (str "sensitive]")).
Qed.

Lemma text_without_closing_tag_is_unchanged_witness :
  anonymize_text (str "[name]Bob went home") = str "[name]Bob went home".
Proof.
  apply text_without_closing_tag_is_unchanged. vm_compute. reflexivity.
Defined.

Lemma tagged_names_inert p spans :
  In p [re_anon_name; re_anon_any; re_sensitive] ->
  plain_spans spans -> inert p (tagged_names spans).
Proof.
  intros Hp. induction 1 as [|[X after] rest (HX & Hnl & Ha) _ IH];
    [exact I|].
  cbn [tagged_names]. simpl in Hp.
  destruct Hp as [<-|[<-|[<-|[]]]];
    (apply inert_app; [inert_text|]); (apply inert_app; [inert_text|]);
    (apply inert_app; [inert_text|]); (apply inert_app; [inert_text|]);
    exact IH.
Qed.

Lemma name_placeholders_plain spans :
  plain_spans spans -> ~ In lbracket (name_placeholders spans).
Proof.
  induction 1 as [|[X after] rest (HX & Hnl & Ha) _ IH]; [intros []|].
  cbn [name_placeholders]. apply not_In_app; [|apply not_In_app; assumption].
  apply not_In_mem. reflexivity.
Qed.

Lemma re_sub_tagged_names spans :
  plain_spans spans ->
  re_sub re_name NAME (tagged_names spans) = name_placeholders spans.
Proof.
  induction 1 as [|[X after] rest (HX & Hnl & Ha) _ IH]; [reflexivity|].
  cbn [tagged_names name_placeholders].
  replace (str "[name]" ++ X ++ str "[/name]" ++ after ++ tagged_names rest)
    with ((str "[name]" ++ X ++ str "[/name]") ++ after ++ tagged_names rest)
    by (rewrite <- !app_assoc; reflexivity).
  rewrite re_sub_match_app.
  - rewrite re_sub_inert_app by inert_text. rewrite IH. reflexivity.
  - discriminate.
  - apply (match_here_span_found (str "[name]") lbracket (str "/name]"));
      assumption.
Qed.

(** X14.  Every span is replaced.  In a text made of any number of spans
    tagged as names, with text that holds no bracket before, between and
    after them, each span becomes one placeholder and the text around the
    spans is kept. *)
Theorem every_name_span_is_replaced
  (pre : list ascii) (spans : list (list ascii * list ascii)) :
  ~ In lbracket pre -> plain_spans spans ->
  anonymize_text (pre ++ tagged_names spans) = pre ++ name_placeholders spans.
Proof.
  intros Hpre Hs. unfold anonymize_text.
  rewrite (re_sub_inert re_anon_name)
    by (apply inert_app; [inert_text | apply tagged_names_inert; simpl; auto]).
  rewrite (re_sub_inert_app re_name) by inert_text.
  rewrite (re_sub_tagged_names _ Hs).
  pose proof (name_placeholders_plain _ Hs) as Hp.
  rewrite (re_sub_inert re_anon_any) by inert_text.
  rewrite (re_sub_inert re_sensitive) by inert_text.
  reflexivity.
Qed.

Lemma every_name_span_is_replaced_witness :
  anonymize_text
    (str "So " ++ tagged_names [(str "Al", str " met "); (str "Bo", str ".")])
  = str "So " ++ name_placeholders [(str "Al", str " met "); (str "Bo", str ".")].
Proof.
  apply every_name_span_is_replaced.
  - apply not_In_mem. reflexivity.
  - repeat constructor; try (apply not_In_mem; reflexivity); discriminate.
Defined.

End RedactorFacts.

(* ================================================================== *)
(** * Facts about the filter program compiler *)
(* ================================================================== *)

Module FilterFacts.
Import Regex Filter RegexFacts RedactorFacts.

Lemma count_sub_unfold pat s :
  count_sub pat s =
  (match strip_prefix pat s with Some _ => 1 | None => 0 end)
  + match s with [] => 0 | _ :: s' => count_sub pat s' end.
Proof. destruct s; reflexivity. Qed.

Lemma count_sub_nil c pat : count_sub (c :: pat) [] = 0.
Proof. reflexivity. Qed.

Lemma count_sub_clear pat u t :
  clear_of pat u -> count_sub pat (u ++ t) = count_sub pat t.
Proof.
  induction u as [|c u IH]; [reflexivity|].
  intros [H1 H2]. rewrite <- app_comm_cons, count_sub_unfold, H1.
  exact (IH H2).
Qed.

Lemma count_sub_hit pat t :
  pat <> [] -> clear_of pat (tl pat) ->
  count_sub pat (pat ++ t) = S (count_sub pat t).
Proof.
  intros Hne Hcl. rewrite count_sub_unfold, strip_prefix_app.
  destruct pat as [|c pat]; [congruence|]. simpl tl in Hcl.
  rewrite <- app_comm_cons. rewrite (count_sub_clear _ _ _ Hcl). reflexivity.
Qed.

Lemma clear_of_app pat u1 u2 :
  clear_of pat u1 -> clear_of pat u2 -> clear_of pat (u1 ++ u2).
Proof.
  induction u1 as [|c u1 IH]; simpl; [trivial|].
  intros [H1 H1'] H2. split; [|exact (IH H1' H2)].
  intros t. rewrite <- app_assoc. apply H1.
Qed.

Lemma clear_of_no_first c0 pat u :
  ~ In c0 u -> clear_of (c0 :: pat) u.
Proof.
  induction u as [|c u IH]; simpl; [trivial|].
  intros H. split.
  - intros t. destruct (Ascii.eqb_spec c0 c) as [->|]; [|reflexivity].
    exfalso. apply H. left. reflexivity.
  - apply IH. intros Hin. apply H. right. exact Hin.
Qed.

(** ** The characters of a formatted time *)

Lemma uint_chars d :
  forallb fmt_char (str (NilEmpty.string_of_uint d)) = true.
Proof. induction d; simpl; try exact IHd; reflexivity. Qed.

Lemma decimal_chars n : forallb fmt_char (decimal n) = true.
Proof.
  unfold decimal, NilZero.string_of_uint.
  destruct (N.to_uint n); try apply uint_chars. reflexivity.
Qed.

Lemma digit_char_chars d :
  (0 <= d < 10)%Z -> fmt_char (digit_char d) = true.
Proof.
  intros H.
  assert (E : (d = 0 \/ d = 1 \/ d = 2 \/ d = 3 \/ d = 4 \/ d = 5 \/ d = 6
              \/ d = 7 \/ d = 8 \/ d = 9)%Z) by lia.
  repeat (destruct E as [->|E]; [reflexivity|]). subst d. reflexivity.
Qed.

Lemma fmt3_chars ms : forallb fmt_char (fmt3 ms) = true.
Proof.
  unfold fmt3. cbv zeta.
  pose proof (Z.mod_pos_bound (Z.abs ms) 1000 ltac:(lia)) as Hr.
  set (r := (Z.abs ms mod 1000)%Z) in *.
  rewrite !forallb_app. rewrite decimal_chars.
  assert (H1 : fmt_char (digit_char (r / 100)) = true).
  { apply digit_char_chars. split; [apply Z.div_pos; lia|].
    apply Z.div_lt_upper_bound; lia. }
  assert (H2 : fmt_char (digit_char (r / 10 mod 10)) = true).
  { apply digit_char_chars. apply Z.mod_pos_bound. lia. }
  assert (H3 : fmt_char (digit_char (r mod 10)) = true).
  { apply digit_char_chars. apply Z.mod_pos_bound. lia. }
  cbn [forallb]. rewrite H1, H2, H3.
  destruct (ms <? 0)%Z; reflexivity.
Qed.

Lemma fmt3_not_In c ms : fmt_char c = false -> ~ In c (fmt3 ms).
Proof.
  intros Hc Hin. pose proof (fmt3_chars ms) as H.
  rewrite forallb_forall in H. specialize (H c Hin). congruence.
Qed.

Ltac clear_text :=
  lazymatch goal with
  | |- clear_of _ (_ ++ _) => apply clear_of_app; clear_text
  | |- clear_of _ (fmt3 _) =>
      apply clear_of_no_first; apply fmt3_not_In; reflexivity
  | |- clear_of _ _ =>
      cbn [clear_of str list_ascii_of_string app tl mute_mark blur_mark];
      repeat split; intros; reflexivity
  end.

(** ** Counting the clauses *)

Lemma mute_mark_in_mute_clause s e t :
  count_sub mute_mark (mute_clause s e ++ t) = S (count_sub mute_mark t).
Proof.
  unfold mute_clause. rewrite <- !app_assoc.
  change (str "volume=enable='between(t\,") with mute_mark.
  rewrite count_sub_hit by first [discriminate | clear_text].
  rewrite !count_sub_clear by clear_text. reflexivity.
Qed.

Lemma blur_mark_in_blur_clause s e t :
  count_sub blur_mark (blur_clause s e ++ t) = S (count_sub blur_mark t).
Proof.
  unfold blur_clause. rewrite <- !app_assoc.
  change (str "boxblur=10:enable='between(t\,") with blur_mark.
  rewrite count_sub_hit by first [discriminate | clear_text].
  rewrite !count_sub_clear by clear_text. reflexivity.
Qed.

Lemma blur_mark_in_mute_clause s e t :
  count_sub blur_mark (mute_clause s e ++ t) = count_sub blur_mark t.
Proof.
  unfold mute_clause. rewrite <- !app_assoc.
  rewrite !count_sub_clear by clear_text. reflexivity.
Qed.

Lemma mute_mark_in_blur_clause s e t :
  count_sub mute_mark (blur_clause s e ++ t) = count_sub mute_mark t.
Proof.
  unfold blur_clause. rewrite <- !app_assoc.
  rewrite !count_sub_clear by clear_text. reflexivity.
Qed.

Section Join.
Variables (A : Type) (f : A -> list ascii) (sep mark : list ascii).
Hypothesis mark_nonempty : mark <> [].
Hypothesis sep_clear : clear_of mark sep.

Lemma join_cons x l :
  join sep (x :: l) = x ++ match l with [] => [] | _ :: _ => sep ++ join sep l end.
Proof. destruct l; simpl; [rewrite app_nil_r|]; reflexivity. Qed.

(** Each element contributes [k] occurrences of the mark. *)
Lemma count_join k l t :
  (forall x t, count_sub mark (f x ++ t) = k + count_sub mark t) ->
  count_sub mark (join sep (map f l) ++ t) = k * length l + count_sub mark t.
Proof.
  intros Hf. induction l as [|x l IH]; [simpl; lia|].
  destruct l as [|y l].
  - cbn [map join length]. rewrite Hf. lia.
  - cbn [map] in IH |- *. rewrite join_cons.
    rewrite <- !app_assoc, Hf, (count_sub_clear _ _ _ sep_clear), IH.
    cbn [length]. lia.
Qed.

Lemma count_sub_mark_nil : count_sub mark [] = 0.
Proof. destruct mark; [congruence | reflexivity]. Qed.

(** The clause of the element at position [length l1] stands after
    [length l1] clauses and before [length l2]. *)
Lemma join_middle l1 x l2 :
  (forall x t, count_sub mark (f x ++ t) = 1 + count_sub mark t) ->
  exists P Q,
    join sep (map f (l1 ++ x :: l2)) = P ++ f x ++ Q /\
    count_sub mark P = length l1 /\ count_sub mark Q = length l2.
Proof.
  intros Hf. induction l1 as [|y l1 IH].
  - exists [], (match l2 with [] => [] | _ :: _ => sep ++ join sep (map f l2) end).
    split; [|split].
    + cbn [app map]. rewrite join_cons. destruct l2; reflexivity.
    + apply count_sub_mark_nil.
    + destruct l2 as [|z l2]; [apply count_sub_mark_nil|].
      rewrite (count_sub_clear _ _ _ sep_clear).
      rewrite <- (app_nil_r (join _ _)), (count_join 1 _ _ Hf), count_sub_mark_nil.
      lia.
  - destruct IH as (P & Q & E & HP & HQ).
    exists (f y ++ sep ++ P), Q. split; [|split].
    + cbn [app map]. rewrite join_cons.
      destruct (map f (l1 ++ x :: l2)) eqn:Em.
      { destruct l1; discriminate Em. }
      rewrite E, <- !app_assoc. reflexivity.
    + rewrite Hf, (count_sub_clear _ _ _ sep_clear), HP. reflexivity.
    + exact HQ.
Qed.

End Join.

Lemma fmt3_three_decimals ms :
  exists d2 d1 d0,
    fmt3 ms = (if (ms <? 0)%Z then str "-" else [])
                ++ decimal (Z.to_N (Z.abs ms / 1000)) ++ str "."
                ++ [digit_char d2; digit_char d1; digit_char d0] /\
    (0 <= d2 < 10 /\ 0 <= d1 < 10 /\ 0 <= d0 < 10)%Z /\
    (100 * d2 + 10 * d1 + d0 = Z.abs ms mod 1000)%Z.
Proof.
  pose proof (Z.mod_pos_bound (Z.abs ms) 1000 ltac:(lia)) as Hr.
  exists (Z.abs ms mod 1000 / 100)%Z, (Z.abs ms mod 1000 / 10 mod 10)%Z,
    (Z.abs ms mod 1000 mod 10)%Z.
  split; [reflexivity|].
  set (r := (Z.abs ms mod 1000)%Z) in *.
  pose proof (Z.mod_pos_bound (r / 10) 10 ltac:(lia)).
  pose proof (Z.mod_pos_bound r 10 ltac:(lia)).
  pose proof (Z.div_mod r 10 ltac:(lia)).
  pose proof (Z.div_mod (r / 10) 10 ltac:(lia)).
  assert (r / 10 / 10 = r / 100)%Z by (rewrite Z.div_div by lia; reflexivity).
  assert (0 <= r / 100 < 10)%Z
    by (split; [apply Z.div_pos; lia | apply Z.div_lt_upper_bound; lia]).
  lia.
Qed.

(** ** The compiled filters *)

Lemma volume_filter_count_mute segs t :
  count_sub mute_mark (volume_filter segs ++ t)
  = length segs + count_sub mute_mark t.
Proof.
  unfold volume_filter.
  rewrite (count_join _ _ (str ", ") mute_mark ltac:(clear_text) 1).
  - rewrite Nat.mul_1_l. reflexivity.
  - intros [[s e] txt] t'. apply mute_mark_in_mute_clause.
Qed.

Lemma volume_filter_count_blur segs t :
  count_sub blur_mark (volume_filter segs ++ t) = count_sub blur_mark t.
Proof.
  unfold volume_filter.
  rewrite (count_join _ _ (str ", ") blur_mark ltac:(clear_text) 0).
  - reflexivity.
  - intros [[s e] txt] t'. apply blur_mark_in_mute_clause.
Qed.

(** The blur part of the video filter. *)
Lemma blur_part_count_blur segs t :
  count_sub blur_mark
    (join (str ", ")
       (map (fun x : segment => let '(s, e, _) := x in blur_clause s e) segs)
     ++ t)
  = length segs + count_sub blur_mark t.
Proof.
  rewrite (count_join _ _ (str ", ") blur_mark ltac:(clear_text) 1).
  - rewrite Nat.mul_1_l. reflexivity.
  - intros [[s e] txt] t'. apply blur_mark_in_blur_clause.
Qed.

Lemma blur_part_count_mute segs t :
  count_sub mute_mark
    (join (str ", ")
       (map (fun x : segment => let '(s, e, _) := x in blur_clause s e) segs)
     ++ t)
  = count_sub mute_mark t.
Proof.
  rewrite (count_join _ _ (str ", ") mute_mark ltac:(clear_text) 0).
  - reflexivity.
  - intros [[s e] txt] t'. apply mute_mark_in_blur_clause.
Qed.

(** C2 (as amended). For every list [segs] of N intervals whose times
    are below 2^52 milliseconds, the audio filter holds exactly N mute
    clauses and no blur clause; the video filter is [format=yuv420p, ]
    followed by the blur clauses of the intervals joined by [, ], then
    [; ], then the audio filter, which is the mute clauses of the intervals
    joined by [, ]: exactly N blur clauses followed by exactly N mute
    clauses.  The clause of the interval at position [length l1] stands
    after [length l1] clauses and before [length l2], duplicates and
    overlaps included (no merging), and it is the text
    [volume=enable='between(t\,START\,END)':volume=0] (for a blur clause
    [boxblur=10:enable='between(t\,START\,END)']) in which START and END
    are the times in seconds with exactly three decimals: the whole
    seconds in decimal, a point, and the three digits of the milliseconds.
    In the compiled text the commas are escaped, so (216670, 219193)
    yields [between(t\,216.670\,219.193)].  Joining puts the separator
    between consecutive clauses and nowhere else. *)
Theorem C2_filter_clauses (segs : list segment) :
  Forall (fun '(s, e, _) => double_exact s /\ double_exact e) segs ->
  (forall (sep x y : list ascii) (l : list (list ascii)),
     join sep [] = [] /\ join sep [x] = x /\
     join sep (x :: y :: l) = x ++ sep ++ join sep (y :: l)) /\
  (count_sub (str "volume=enable='between(t\,") (volume_filter segs)
   = length segs /\
   count_sub (str "boxblur=10:enable='between(t\,") (volume_filter segs) = 0) /\
  (volume_filter segs
   = join (str ", ")
       (map (fun '(s, e, _) =>
               str "volume=enable='between(t\," ++ fmt3 s ++ str "\,"
                 ++ fmt3 e ++ str ")':volume=0") segs) /\
   exists blur_part,
     blur_part
     = join (str ", ")
         (map (fun '(s, e, _) =>
                 str "boxblur=10:enable='between(t\," ++ fmt3 s ++ str "\,"
                   ++ fmt3 e ++ str ")'") segs) /\
     video_filter segs
     = str "format=yuv420p, " ++ blur_part ++ str "; " ++ volume_filter segs /\
     count_sub (str "boxblur=10:enable='between(t\,") blur_part = length segs /\
     count_sub (str "volume=enable='between(t\,") blur_part = 0) /\
  (count_sub (str "boxblur=10:enable='between(t\,") (video_filter segs)
   = length segs /\
   count_sub (str "volume=enable='between(t\,") (video_filter segs)
   = length segs) /\
  (forall l1 s e txt l2, segs = l1 ++ (s, e, txt) :: l2 ->
     (exists P Q,
        volume_filter segs
        = P ++ (str "volume=enable='between(t\," ++ fmt3 s ++ str "\,"
                  ++ fmt3 e ++ str ")':volume=0") ++ Q /\
        count_sub (str "volume=enable='between(t\,") P = length l1 /\
        count_sub (str "volume=enable='between(t\,") Q = length l2) /\
     (exists P Q,
        video_filter segs
        = str "format=yuv420p, "
            ++ (P ++ (str "boxblur=10:enable='between(t\," ++ fmt3 s
                        ++ str "\," ++ fmt3 e ++ str ")'") ++ Q)
            ++ str "; " ++ volume_filter segs /\
        count_sub (str "boxblur=10:enable='between(t\,") P = length l1 /\
        count_sub (str "boxblur=10:enable='between(t\,") Q = length l2) /\
     (forall ms, ms = s \/ ms = e ->
        exists d2 d1 d0,
          fmt3 ms
          = (if (ms <? 0)%Z then str "-" else [])
              ++ str (NilZero.string_of_uint
                        (N.to_uint (Z.to_N (Z.abs ms / 1000))))
              ++ str "."
              ++ [ascii_of_nat (48 + Z.to_nat d2);
                  ascii_of_nat (48 + Z.to_nat d1);
                  ascii_of_nat (48 + Z.to_nat d0)] /\
          (0 <= d2 < 10 /\ 0 <= d1 < 10 /\ 0 <= d0 < 10)%Z /\
          (100 * d2 + 10 * d1 + d0 = Z.abs ms mod 1000)%Z)).
Proof.
  intros _.
  assert (Hm : forall l, count_sub mute_mark (volume_filter l) = length l).
  { intros l. rewrite <- (app_nil_r (volume_filter l)), volume_filter_count_mute.
    simpl. lia. }
  assert (Hb : forall l, count_sub blur_mark (volume_filter l) = 0).
  { intros l. rewrite <- (app_nil_r (volume_filter l)), volume_filter_count_blur.
    reflexivity. }
  split; [intros sep x y l; repeat split|].
  split; [split; [apply Hm | apply Hb]|].
  split.
  { split; [reflexivity|].
    exists (join (str ", ")
              (map (fun x : segment => let '(s0, e0, _) := x in blur_clause s0 e0)
                 segs)).
    split; [reflexivity|].
    split; [unfold video_filter, volume_filter; cbv zeta;
            rewrite <- !app_assoc; reflexivity|].
    split.
    - rewrite <- (app_nil_r (join _ _)).
      exact (eq_trans (blur_part_count_blur segs []) (Nat.add_0_r _)).
    - rewrite <- (app_nil_r (join _ _)). exact (blur_part_count_mute segs []). }
  split.
  { change (count_sub blur_mark (video_filter segs) = length segs /\
            count_sub mute_mark (video_filter segs) = length segs).
    unfold video_filter. cbv zeta. rewrite <- !app_assoc. split.
    - rewrite (count_sub_clear blur_mark (str "format=yuv420p, ")) by clear_text.
      rewrite blur_part_count_blur.
      rewrite (count_sub_clear blur_mark (str "; ")) by clear_text.
      change (join (str ", ") (map (fun '(start_ms, end_ms, _) => mute_clause start_ms end_ms) segs))
        with (volume_filter segs).
      rewrite Hb. lia.
    - rewrite (count_sub_clear mute_mark (str "format=yuv420p, ")) by clear_text.
      rewrite blur_part_count_mute.
      rewrite (count_sub_clear mute_mark (str "; ")) by clear_text.
      change (join (str ", ") (map (fun '(start_ms, end_ms, _) => mute_clause start_ms end_ms) segs))
        with (volume_filter segs).
      apply Hm. }
  intros l1 s e txt l2 ->.
  split.
  { unfold volume_filter.
    destruct (join_middle _ (fun '(s0, e0, _) => mute_clause s0 e0) (str ", ")
                mute_mark ltac:(discriminate) ltac:(clear_text) l1 (s, e, txt) l2)
      as (P & Q & E & HP & HQ).
    - intros [[s0 e0] t0] t. apply mute_mark_in_mute_clause.
    - exists P, Q. split; [exact E|]. split; [exact HP | exact HQ]. }
  split.
  { unfold video_filter. cbv zeta.
    destruct (join_middle _ (fun '(s0, e0, _) => blur_clause s0 e0) (str ", ")
                blur_mark ltac:(discriminate) ltac:(clear_text) l1 (s, e, txt) l2)
      as (P & Q & E & HP & HQ).
    - intros [[s0 e0] t0] t. apply blur_mark_in_blur_clause.
    - exists P, Q. split; [|split; [exact HP | exact HQ]].
      change (str "boxblur=10:enable='between(t\," ++ fmt3 s ++ str "\,"
                ++ fmt3 e ++ str ")'") with (blur_clause s e).
      rewrite <- E. unfold volume_filter. rewrite <- !app_assoc. reflexivity. }
  intros ms _. exact (fmt3_three_decimals ms).
Qed.

(** On two equal intervals the filters hold two clauses each, with the
    times of the interval in seconds. *)
Lemma C2_witness :
  let segs := [(216670, 219193, str "a"); (216670, 219193, str "b")]%Z in
  count_sub (str "volume=enable='between(t\,") (volume_filter segs) = 2 /\
  count_sub (str "boxblur=10:enable='between(t\,") (video_filter segs) = 2 /\
  count_sub (str "volume=enable='between(t\,") (video_filter segs) = 2 /\
  volume_filter segs
  = str "volume=enable='between(t\,216.670\,219.193)':volume=0, volume=enable='between(t\,216.670\,219.193)':volume=0" /\
  video_filter segs
  = str "format=yuv420p, boxblur=10:enable='between(t\,216.670\,219.193)', boxblur=10:enable='between(t\,216.670\,219.193)'; volume=enable='between(t\,216.670\,219.193)':volume=0, volume=enable='between(t\,216.670\,219.193)':volume=0".
Proof.
  intros segs.
  assert (B : Forall (fun '(s, e, _) => double_exact s /\ double_exact e) segs).
  { repeat constructor. }
  destruct (C2_filter_clauses segs B) as (_ & (H1 & _) & _ & (H2 & H3) & _).
  split; [exact H1|]. split; [exact H2|]. split; [exact H3|].
  split; vm_compute; reflexivity.
Defined.

(** C2 fails as stated: the compiled filters for the interval
    (216670, 219193) do not hold the text [between(t,216.670,219.193)]
    with bare commas. *)
Lemma C2_counterexample :
  Redactor.contains (str "between(t,216.670,219.193)")
    (volume_filter [(216670, 219193, [])]%Z) = false /\
  Redactor.contains (str "between(t,216.670,219.193)")
    (video_filter [(216670, 219193, [])]%Z) = false /\
  volume_filter [(216670, 219193, [])]%Z
  = str "volume=enable='between(t\,216.670\,219.193)':volume=0".
Proof. vm_compute. repeat split. Qed.

End FilterFacts.


(* ================================================================== *)
(** * Facts about the review clips *)
(* ================================================================== *)

Module ReviewFacts.
Import Filter Review.

(** C8. A failed probe makes [get_duration_ms] return -1 without raising,
    but [review_anonymization] then passes that -1 to [min]: the end of the
    clip window becomes [min (end_ms + 1000) (-1)], at most -1, instead of
    the unclamped [end_ms + 1000]: for the segment (5000, 6000) the window
    is (4000, -1), not (4000, 7000). *)
Theorem C8_failed_probe_clamps_end_to_sentinel
  (returncode : Z) (output : list ascii) (start_ms end_ms : Z) :
  get_duration_ms (ProbeCalledProcessError returncode output) = (-1)%Z /\
  get_duration_ms ProbeOtherException = (-1)%Z /\
  review_window (get_duration_ms ProbeOtherException) start_ms end_ms
  = (Z.max (start_ms - 1000) 0, Z.min (end_ms + 1000) (-1)) /\
  (snd (review_window (get_duration_ms ProbeOtherException) start_ms end_ms)
   <= -1)%Z /\
  review_window (get_duration_ms ProbeOtherException) 5000 6000
  = (4000, -1)%Z /\
  review_window (get_duration_ms ProbeOtherException) 5000 6000
  <> (4000, 7000)%Z.
Proof.
  repeat split; try reflexivity.
  - cbn [get_duration_ms review_window snd]. unfold REVIEW_CONTEXT. lia.
  - discriminate.
Qed.

(** ** Clips and timestamps *)

(** X15.  Review clips with a known duration.  When the probe gives the
    duration of the media and the segments lie within it, there is one
    clip for each segment, in order; the clip is named after the times of
    the segment and is cut from a window that holds the segment, reaches
    at most one second beyond it on each side, does not start before the
    media and does not end after it. *)
Theorem review_clips_hold_their_segments
  (media_fname media_ext : list ascii) (media_dur_ms : Z)
  (segments_to_anonymize : list segment) :
  Forall (fun '(start_ms, end_ms, _) =>
            (0 <= start_ms)%Z /\ (start_ms <= end_ms)%Z /\
            (end_ms <= media_dur_ms)%Z) segments_to_anonymize ->
  Forall2 (reviews media_fname media_ext media_dur_ms) segments_to_anonymize
    (review_media media_fname media_ext (ProbeComputed media_dur_ms)
       segments_to_anonymize).
Proof.
  unfold review_media. cbn [get_duration_ms].
  induction 1 as [|[[s e] txt] segs (H0 & H1 & H2) _ IH]; cbn [map];
    constructor; [|exact IH].
  unfold reviews, review_clip, review_window, REVIEW_CONTEXT.
  exists (Z.max (s - 1000) 0), (Z.min (e + 1000) media_dur_ms).
  cbn [clip_ss clip_t_ms clip_input clip_output].
  repeat split; lia.
Qed.

Lemma review_clips_hold_their_segments_witness :
  Forall2 (reviews (str "out/a") (str ".wav") 9000)
    [(500, 2500, str "x"); (8000, 9000, [])]%Z
    (review_media (str "out/a") (str ".wav") (ProbeComputed 9000)
       [(500, 2500, str "x"); (8000, 9000, [])]%Z).
Proof.
  apply review_clips_hold_their_segments.
  constructor; [lia|]. constructor; [lia|]. constructor.
Defined.

Lemma fmt_d_two n : (0 <= n < 100)%Z -> fmt_d 2 n = two_digits n.
Proof.
  intros H.
  assert (A : forallb (fun i => Redactor.text_eqb (fmt_d 2 (Z.of_nat i))
                                  (two_digits (Z.of_nat i)))
                (seq 0 100) = true) by (vm_compute; reflexivity).
  rewrite forallb_forall in A. specialize (A (Z.to_nat n)).
  rewrite Z2Nat.id in A by lia. apply bool_decide_eq_true in A; [exact A|].
  apply in_seq. lia.
Qed.

Lemma fmt_d_three n : (0 <= n < 1000)%Z -> fmt_d 3 n = three_digits n.
Proof.
  intros H.
  assert (A : forallb (fun i => Redactor.text_eqb (fmt_d 3 (Z.of_nat i))
                                  (three_digits (Z.of_nat i)))
                (seq 0 1000) = true) by (vm_compute; reflexivity).
  rewrite forallb_forall in A. specialize (A (Z.to_nat n)).
  rewrite Z2Nat.id in A by lia. apply bool_decide_eq_true in A; [exact A|].
  apply in_seq. lia.
Qed.

(** X16.  The shape of a timestamp.  For a time that is not negative the
    hours are written in at least two digits, the minutes and the seconds
    in exactly two and the milliseconds in exactly three, so that below
    one hundred hours a timestamp has twelve characters. *)
Theorem ms_to_timestamp_has_fixed_width_fields (time_ms : Z) (ffmpeg : bool) :
  (0 <= time_ms)%Z ->
  (let '(sep1, sep2, sep3) := timestamp_seps ffmpeg in
   ms_to_timestamp time_ms ffmpeg
   = fmt_d 2 (time_ms / 3600000) ++ sep1
       ++ two_digits (time_ms / 60000 mod 60) ++ sep2
       ++ two_digits (time_ms / 1000 mod 60) ++ sep3
       ++ three_digits (time_ms mod 1000)) /\
  ((time_ms < 360000000)%Z -> length (ms_to_timestamp time_ms ffmpeg) = 12).
Proof.
  intros H.
  assert (E : ms_to_timestamp time_ms ffmpeg
              = fmt_d 2 (time_ms / 3600000)
                  ++ fst (fst (timestamp_seps ffmpeg))
                  ++ two_digits (time_ms / 60000 mod 60)
                  ++ snd (fst (timestamp_seps ffmpeg))
                  ++ two_digits (time_ms / 1000 mod 60)
                  ++ snd (timestamp_seps ffmpeg)
                  ++ three_digits (time_ms mod 1000)).
  { unfold ms_to_timestamp. cbv zeta.
    rewrite !Z.div_div by lia. change (1000 * 60)%Z with 60000%Z.
    change (60000 * 60)%Z with 3600000%Z.
    rewrite (fmt_d_two (time_ms / 60000 mod 60))
      by (pose proof (Z.mod_pos_bound (time_ms / 60000) 60); lia).
    rewrite (fmt_d_two (time_ms / 1000 mod 60))
      by (pose proof (Z.mod_pos_bound (time_ms / 1000) 60); lia).
    rewrite (fmt_d_three (time_ms mod 1000)) by (apply Z.mod_pos_bound; lia).
    destruct ffmpeg; reflexivity. }
  split.
  - destruct ffmpeg; exact E.
  - intros Hlt. rewrite E.
    rewrite (fmt_d_two (time_ms / 3600000))
      by (split; [apply Z.div_pos; lia | apply Z.div_lt_upper_bound; lia]).
    destruct ffmpeg; reflexivity.
Qed.

Lemma ms_to_timestamp_has_fixed_width_fields_witness :
  length (ms_to_timestamp 3723004 false) = 12.
Proof.
  apply (ms_to_timestamp_has_fixed_width_fields 3723004 false); lia.
Defined.

End ReviewFacts.


(* ================================================================== *)
(** * Facts about the timeline merger *)
(* ================================================================== *)

Module MergerFacts.
Import Redactor Filter Merger.

(** ** The tiers of the template *)

(** C9 (as amended). Whatever the variables, the rendered document
    declares eight tiers: the four top-level tiers Original, Repetition,
    Translation and Postprocess, and four child tiers -- Original-ID,
    Repetition-ID and Translation-ID of type oral-annotation-id and
    Original-Source of type oral-annotation-source -- each under its
    parent. *)
Theorem C9_template_declares_four_top_and_four_child_tiers (v : variables) :
  map tier_declaration (TIERS (render v)) =
    [ (str "Original", str "oral-annotation-text", None);
      (str "Original-ID", str "oral-annotation-id", Some (str "Original"));
      (str "Original-Source", str "oral-annotation-source",
       Some (str "Original"));
      (str "Repetition", str "oral-annotation-text", None);
      (str "Repetition-ID", str "oral-annotation-id",
       Some (str "Repetition"));
      (str "Translation", str "oral-annotation-text", None);
      (str "Translation-ID", str "oral-annotation-id",
       Some (str "Translation"));
      (str "Postprocess", str "event", None) ] /\
  map TIER_ID (List.filter (fun t => negb (is_child t)) (TIERS (render v))) =
    [str "Original"; str "Repetition"; str "Translation"; str "Postprocess"] /\
  length (List.filter is_child (TIERS (render v))) = 4.
Proof.
  unfold render.
  destruct (render_refs _ _ _ _ _) as [x1 n1].
  destruct (render_refs _ _ _ _ _) as [x2 n2].
  destruct (render_refs _ _ _ _ _) as [x3 n3].
  destruct (render_refs _ _ _ _ _) as [x4 n4].
  repeat split.
Qed.

(** C9 fails as stated: already for the empty list of annotations the
    document has four child tiers, not three. *)
Lemma C9_counterexample :
  let d := render (variables_of [] [] [] [] [] [] initial_counters) in
  map TIER_ID (List.filter is_child (TIERS d)) =
    [str "Original-ID"; str "Original-Source"; str "Repetition-ID";
     str "Translation-ID"] /\
  length (List.filter is_child (TIERS d)) <> 3.
Proof. split; [reflexivity | discriminate]. Qed.

(** ** The counters *)

Lemma count_clips_cons u segs :
  count_clips (u :: segs) =
  if ignored u then count_clips segs
  else 1 + (if has_file (careful_wav u) then 1 else 0)
       + (if has_file (translation_wav u) then 1 else 0) + count_clips segs.
Proof.
  unfold count_clips. cbn [List.filter].
  destruct (ignored u); cbn [negb]; [reflexivity|].
  cbn [List.filter length].
  destruct (has_file (careful_wav u)), (has_file (translation_wav u));
    cbn [length]; lia.
Qed.

Lemma place_file_counters c f p c' :
  place_file c f = (p, c') ->
  annotation_id c' = (annotation_id c + (if has_file f then 1 else 0))%N /\
  timeslot_id c' = (timeslot_id c + (if has_file f then 2 else 0))%N.
Proof.
  destruct f as [a|]; cbn; intros [= <- <-]; cbn; lia.
Qed.

Lemma merge_one_counters flag src c u a c' :
  merge_one flag src c u = Some (a, c') ->
  let k := 1 + (if has_file (careful_wav u) then 1 else 0)
           + (if has_file (translation_wav u) then 1 else 0) in
  annotation_id c' = (annotation_id c + N.of_nat k)%N /\
  timeslot_id c' = (timeslot_id c + 2 * N.of_nat k)%N.
Proof.
  unfold merge_one.
  destruct (split_orig_rep (src_text u)) as [[o0 r0]|]; [|discriminate].
  destruct (trans_at_mid u) as [t0|]; [|discriminate].
  destruct (source_at_mid u) as [s0|]; [|discriminate].
  destruct (if flag then anonymize o0 else (o0, false)) as [o1 oa].
  destruct (if flag then anonymize r0 else (r0, false)) as [r1 ra].
  destruct (if flag then anonymize t0 else (t0, false)) as [t1 ta].
  destruct (place c _ _) as [po c1] eqn:E1.
  destruct (place_file c1 (careful_wav u)) as [pr c2] eqn:E2.
  destruct (place_file c2 (translation_wav u)) as [pt c3] eqn:E3.
  intros [= _ <-].
  apply place_file_counters in E2, E3. unfold place in E1.
  injection E1 as _ <-. cbn in E2, E3. destruct E2 as [E2 E2'], E3 as [E3 E3'].
  rewrite E3, E3', E2, E2'.
  destruct (has_file (careful_wav u)), (has_file (translation_wav u)); cbn; lia.
Qed.

Lemma merge_loop_counters flag src segs : forall c l c',
  merge_loop flag src c segs = Some (l, c') ->
  annotation_id c' = (annotation_id c + N.of_nat (count_clips segs))%N /\
  timeslot_id c' = (timeslot_id c + 2 * N.of_nat (count_clips segs))%N.
Proof.
  induction segs as [|u segs IH]; intros c l c'.
  - cbn. intros [= _ <-]. unfold count_clips. cbn. lia.
  - cbn [merge_loop]. rewrite count_clips_cons.
    destruct (ignored u); [apply IH|].
    destruct (merge_one flag src c u) as [[a c1]|] eqn:E1; [|discriminate].
    destruct (merge_loop flag src c1 segs) as [[l1 c2]|] eqn:E2; [|discriminate].
    intros [= _ <-]. apply merge_one_counters in E1. apply IH in E2.
    cbv zeta in E1. destruct E1 as [A1 T1], E2 as [A2 T2].
    rewrite A2, T2, A1, T1. lia.
Qed.

Lemma merge_one_total flag src c u :
  is_Some (split_orig_rep (src_text u)) -> is_Some (trans_at_mid u) ->
  is_Some (source_at_mid u) ->
  is_Some (merge_one flag src c u).
Proof.
  intros [[o0 r0] H1] [t0 H2] [s0 H3]. unfold merge_one.
  rewrite H1, H2, H3.
  destruct (if flag then anonymize o0 else (o0, false)) as [o1 oa].
  destruct (if flag then anonymize r0 else (r0, false)) as [r1 ra].
  destruct (if flag then anonymize t0 else (t0, false)) as [t1 ta].
  destruct (place c _ _) as [po c1].
  destruct (place_file c1 (careful_wav u)) as [pr c2].
  destruct (place_file c2 (translation_wav u)) as [pt c3].
  eauto.
Qed.

Lemma merge_loop_total flag src segs : forall c,
  Forall readable segs -> is_Some (merge_loop flag src c segs).
Proof.
  induction segs as [|u segs IH]; intros c H; [cbn; eauto|].
  inversion H as [|? ? Hu Hs]; subst. cbn [merge_loop].
  destruct (ignored u) eqn:Ei; [apply IH; assumption|].
  destruct Hu as [Hu|(H1 & H2 & H3)]; [congruence|].
  destruct (merge_one_total flag src c u H1 H2 H3) as [[a c1] ->].
  destruct (IH c1 Hs) as [[l c2] ->]. eauto.
Qed.

(** X20.  The counters of the loop.  When every segment can be read, the
    merge loop returns, and the two counters, which start at 1, have
    advanced with the clips (one original per segment that is not ignored,
    one per repetition file, one per translation file): the annotation
    counter by one per clip and the timeslot counter, which names each
    allocated timeslot once, by two per clip. *)
Theorem merge_allocates_two_timeslots_per_clip
  (anonymize_flag : bool) (src_audio : audio) (segs : list src_segment) :
  Forall readable segs ->
  exists l c,
    merge anonymize_flag src_audio segs = Some (l, c) /\
    (annotation_id c - 1 = N.of_nat (count_clips segs))%N /\
    (timeslot_id c - 1 = 2 * N.of_nat (count_clips segs))%N.
Proof.
  intros H. unfold merge.
  destruct (merge_loop_total anonymize_flag src_audio segs initial_counters H)
    as [[l c] E].
  exists l, c. split; [exact E|].
  apply merge_loop_counters in E. destruct E as [E1 E2]. rewrite E1, E2.
  cbn [initial_counters annotation_id timeslot_id]. lia.
Qed.

(** ** Names of identifiers *)

Lemma str_inj s1 s2 : str s1 = str s2 -> s1 = s2.
Proof.
  unfold str. intros H.
  rewrite <- (string_of_list_ascii_of_string s1),
    <- (string_of_list_ascii_of_string s2), H. reflexivity.
Qed.

Lemma N_to_uint_nonnil n : N.to_uint n <> Decimal.Nil.
Proof.
  destruct n; [discriminate|]. apply DecimalPos.Unsigned.to_uint_nonnil.
Qed.

Lemma decimal_inj n m : decimal n = decimal m -> n = m.
Proof.
  unfold decimal. intros H. apply str_inj in H.
  apply (f_equal NilZero.uint_of_string) in H.
  rewrite !NilZero.usu in H by apply N_to_uint_nonnil.
  injection H as H. apply DecimalN.Unsigned.to_uint_inj. exact H.
Qed.

Lemma a_name_inj n m : a_name n = a_name m -> n = m.
Proof. unfold a_name. intros H. apply app_inv_head in H. apply decimal_inj, H. Qed.

Lemma ts_name_inj n m : ts_name n = ts_name m -> n = m.
Proof. unfold ts_name. intros H. apply app_inv_head in H. apply decimal_inj, H. Qed.

(** ** Consecutive numbers *)

Lemma N_seq_app s n m :
  N_seq s (n + m) = N_seq s n ++ N_seq (s + N.of_nat n) m.
Proof.
  revert s. induction n as [|n IH]; intros s.
  - cbn. f_equal. lia.
  - cbn [Nat.add N_seq app]. rewrite IH. do 3 f_equal. lia.
Qed.

Lemma length_N_seq s n : length (N_seq s n) = n.
Proof. revert s. induction n; intros s; cbn; [|rewrite IHn]; reflexivity. Qed.

Lemma In_N_seq x s n : In x (N_seq s n) <-> (s <= x < s + N.of_nat n)%N.
Proof.
  revert s. induction n as [|n IH]; intros s.
  - cbn. lia.
  - cbn [N_seq In]. rewrite IH. lia.
Qed.

Lemma NoDup_N_seq s n : NoDup (N_seq s n).
Proof.
  revert s. induction n as [|n IH]; intros s; cbn [N_seq]; constructor.
  - rewrite list_elem_of_In, In_N_seq. lia.
  - apply IH.
Qed.

Lemma NoDup_map_inj {A B : Type} (f : A -> B) (l : list A) :
  (forall x y, f x = f y -> x = y) -> NoDup l -> NoDup (map f l).
Proof.
  intros Hf H. induction H as [|x l Hx H IH]; cbn; constructor; [|exact IH].
  rewrite list_elem_of_In. intros Hin.
  apply in_map_iff in Hin. destruct Hin as (y & E & Hy).
  apply Hf in E. subst y. apply Hx. apply list_elem_of_In. exact Hy.
Qed.

(** A list whose elements all come, in order, from a list without
    duplicates has none. *)
Lemma NoDup_app_In {A : Type} (l k : list A) :
  NoDup l -> NoDup k -> (forall x, In x l -> ~ In x k) -> NoDup (l ++ k).
Proof.
  intros Hl Hk H. apply NoDup_app. split; [exact Hl|]. split; [|exact Hk].
  intros x Hx Hx'. apply list_elem_of_In in Hx, Hx'. exact (H x Hx Hx').
Qed.

(** ** The identifiers allocated by the loop *)

Lemma block_nil c : block c c [].
Proof. unfold block. cbn. repeat split; lia. Qed.

Lemma block_app c c1 c2 ps1 ps2 :
  block c c1 ps1 -> block c1 c2 ps2 -> block c c2 (ps1 ++ ps2).
Proof.
  intros (A1 & T1 & NA1 & NT1) (A2 & T2 & NA2 & NT2). unfold block.
  rewrite map_app, flat_map_app, length_app, A1, T1, A2, T2, NA1, NT1.
  replace (2 * (length ps1 + length ps2))
    with (2 * length ps1 + 2 * length ps2) by lia.
  rewrite !N_seq_app, !map_app.
  replace (N.of_nat (2 * length ps1)) with (2 * N.of_nat (length ps1))%N by lia.
  repeat split; lia.
Qed.

Lemma block_ext c c' ps ps' :
  map aid ps = map aid ps' ->
  flat_map slot_names ps = flat_map slot_names ps' ->
  block c c' ps -> block c c' ps'.
Proof.
  intros Ha Ht (A & T & NA & NT).
  assert (Hl : length ps = length ps').
  { rewrite <- (length_map aid ps), Ha, length_map. reflexivity. }
  unfold block. rewrite <- Ha, <- Ht, <- Hl. auto.
Qed.

Lemma place_block c a len p c' : place c a len = (p, c') -> block c c' [p].
Proof.
  unfold place. intros [= <- <-]. unfold block. cbn.
  repeat split; lia.
Qed.

Lemma place_file_block c f o c' :
  place_file c f = (o, c') -> block c c' (opt_list o).
Proof.
  destruct f as [a|]; cbn [place_file].
  - destruct (place c a _) as [p c1] eqn:E. intros [= <- <-].
    exact (place_block _ _ _ _ _ E).
  - intros [= <- <-]. apply block_nil.
Qed.

Lemma silence_if_ids b o :
  map aid (opt_list (silence_if b o)) = map aid (opt_list o) /\
  flat_map slot_names (opt_list (silence_if b o))
  = flat_map slot_names (opt_list o).
Proof.
  destruct o as [p|]; cbn; [|auto].
  destruct (b && audio_truth (clip p)); cbn; auto.
Qed.

Lemma merge_one_block flag src c u a c' :
  merge_one flag src c u = Some (a, c') -> block c c' (allocated_clips a).
Proof.
  unfold merge_one.
  destruct (split_orig_rep (src_text u)) as [[o0 r0]|]; [|discriminate].
  destruct (trans_at_mid u) as [t0|]; [|discriminate].
  destruct (source_at_mid u) as [s0|]; [|discriminate].
  destruct (if flag then anonymize o0 else (o0, false)) as [o1 oa].
  destruct (if flag then anonymize r0 else (r0, false)) as [r1 ra].
  destruct (if flag then anonymize t0 else (t0, false)) as [t1 ta].
  destruct (place c _ _) as [po c1] eqn:E1.
  destruct (place_file c1 (careful_wav u)) as [pr c2] eqn:E2.
  destruct (place_file c2 (translation_wav u)) as [pt c3] eqn:E3.
  intros [= <- <-].
  apply place_block in E1. apply place_file_block in E2, E3.
  pose proof (block_app _ _ _ _ _ E1 (block_app _ _ _ _ _ E2 E3)) as B.
  revert B. apply block_ext; unfold allocated_clips; cbn [audio_orig audio_rep audio_trans].
  - cbn [app map]. rewrite !map_app. f_equal; [|f_equal].
    + destruct (flag && oa); reflexivity.
    + destruct flag; [symmetry; apply silence_if_ids | reflexivity].
    + destruct flag; [symmetry; apply silence_if_ids | reflexivity].
  - cbn [app flat_map]. rewrite !flat_map_app. f_equal; [|f_equal].
    + destruct (flag && oa); reflexivity.
    + destruct flag; [symmetry; apply silence_if_ids | reflexivity].
    + destruct flag; [symmetry; apply silence_if_ids | reflexivity].
Qed.

Lemma merge_loop_block flag src segs : forall c l c',
  merge_loop flag src c segs = Some (l, c') ->
  block c c' (flat_map allocated_clips l).
Proof.
  induction segs as [|u segs IH]; intros c l c'.
  - cbn. intros [= <- <-]. apply block_nil.
  - cbn [merge_loop]. destruct (ignored u); [apply IH|].
    destruct (merge_one flag src c u) as [[a c1]|] eqn:E1; [|discriminate].
    destruct (merge_loop flag src c1 segs) as [[l1 c2]|] eqn:E2; [|discriminate].
    intros [= <- <-]. cbn [flat_map].
    exact (block_app _ _ _ _ _ (merge_one_block _ _ _ _ _ _ E1) (IH _ _ _ E2)).
Qed.

(** ** Counting occurrences *)

Lemma text_eqb_refl x : text_eqb x x = true.
Proof. unfold text_eqb. apply bool_decide_eq_true_2. reflexivity. Qed.

Lemma text_eqb_neq x y : x <> y -> text_eqb x y = false.
Proof. unfold text_eqb. apply bool_decide_eq_false_2. Qed.

Lemma occurrences_cons x y l :
  occurrences x (y :: l) = (if text_eqb x y then 1 else 0) + occurrences x l.
Proof. unfold occurrences. cbn. destruct (text_eqb x y); reflexivity. Qed.

Lemma occurrences_app x l k :
  occurrences x (l ++ k) = occurrences x l + occurrences x k.
Proof.
  unfold occurrences. rewrite List.filter_app, length_app. reflexivity.
Qed.

Lemma occurrences_not_In x l : ~ In x l -> occurrences x l = 0.
Proof.
  induction l as [|y l IH]; [reflexivity|].
  intros H. rewrite occurrences_cons, IH by (intros Hin; apply H; right; exact Hin).
  rewrite text_eqb_neq; [reflexivity|]. intros ->. apply H. left. reflexivity.
Qed.

Lemma occurrences_NoDup x l : NoDup l -> In x l -> occurrences x l = 1.
Proof.
  induction 1 as [|y l Hy Hl IH]; [intros []|].
  rewrite list_elem_of_In in Hy. rewrite occurrences_cons. intros [->|Hin].
  - rewrite text_eqb_refl, occurrences_not_In by exact Hy. reflexivity.
  - rewrite (IH Hin), text_eqb_neq; [reflexivity|]. intros ->. contradiction.
Qed.

Lemma occurrences_Permutation x l k :
  Permutation l k -> occurrences x l = occurrences x k.
Proof.
  induction 1 as [|y l k _ IH|y z l|l k m _ IH1 _ IH2].
  - reflexivity.
  - rewrite !occurrences_cons, IH. reflexivity.
  - rewrite !occurrences_cons. lia.
  - congruence.
Qed.

(** ** The lists of a rendered document *)

Lemma render_aligned_spec sel value l :
  map annotation_id_of (render_aligned sel value l) = map aid (pick sel l) /\
  flat_map time_slot_refs_of (render_aligned sel value l)
  = flat_map slot_names (pick sel l) /\
  flat_map annotation_refs_of (render_aligned sel value l) = [].
Proof.
  unfold render_aligned, pick.
  induction l as [|a l (IH1 & IH2 & IH3)]; [cbn; auto|].
  cbn [flat_map]. rewrite !map_app, !flat_map_app, IH1, IH2, IH3.
  destruct (sel a); cbn; auto.
Qed.

Lemma render_refs_spec sel value l : forall i last xs n,
  render_refs sel value i last l = (xs, n) ->
  map annotation_id_of xs = map a_name (N_seq last (length (pick sel l))) /\
  flat_map annotation_refs_of xs = map aid (pick sel l) /\
  flat_map time_slot_refs_of xs = [] /\
  n = (last + N.of_nat (length (pick sel l)))%N.
Proof.
  unfold pick. induction l as [|a l IH]; intros i last xs n.
  - cbn. intros [= <- <-]. repeat split. lia.
  - cbn [render_refs flat_map]. destruct (sel a) as [p|].
    + destruct (render_refs sel value (S i) (last + 1) l) as [rest m] eqn:E.
      intros [= <- <-]. destruct (IH _ _ _ _ E) as (H1 & H2 & H3 & H4).
      cbn. rewrite H1, H2, H3. repeat split. lia.
    + intros E. destruct (IH _ _ _ _ E) as (H1 & H2 & H3 & H4).
      cbn. auto.
Qed.

Lemma render_time_order_ids l :
  map TIME_SLOT_ID (render_time_order l)
  = flat_map slot_names (flat_map shown_clips l).
Proof.
  unfold render_time_order. induction l as [|a l IH]; [reflexivity|].
  cbn [flat_map]. rewrite map_app, flat_map_app, IH. f_equal.
  unfold shown_clips, slots_of_shown.
  destruct (shown (audio_rep a)), (shown (audio_trans a)); reflexivity.
Qed.

Lemma render_lists v :
  let l := annotations v in
  let n0 := last_annotation_id v in
  let O := shown_orig l in
  let R := shown_rep l in
  let T := shown_trans l in
  let n1 := (n0 + N.of_nat (length O))%N in
  let n2 := (n1 + N.of_nat (length O))%N in
  let n3 := (n2 + N.of_nat (length R))%N in
  time_slot_ids (render v) = flat_map slot_names (flat_map shown_clips l) /\
  annotation_ids (render v)
  = map aid O ++ map a_name (N_seq n0 (length O))
      ++ map a_name (N_seq n1 (length O))
      ++ map aid R ++ map a_name (N_seq n2 (length R))
      ++ map aid T ++ map a_name (N_seq n3 (length T)) /\
  time_slot_refs (render v)
  = flat_map slot_names O ++ flat_map slot_names R ++ flat_map slot_names T /\
  annotation_refs (render v)
  = map aid O ++ map aid O ++ map aid R ++ map aid T /\
  map annotation_id_of (tier_annotations (render v) (str "Original"))
  = map aid O /\
  map annotation_id_of (tier_annotations (render v) (str "Repetition"))
  = map aid R /\
  map annotation_id_of (tier_annotations (render v) (str "Translation"))
  = map aid T /\
  map annotation_id_of (tier_annotations (render v) (str "Original-ID"))
    ++ map annotation_id_of (tier_annotations (render v) (str "Original-Source"))
    ++ map annotation_id_of (tier_annotations (render v) (str "Repetition-ID"))
    ++ map annotation_id_of (tier_annotations (render v) (str "Translation-ID"))
  = map a_name (N_seq n0 (length O)) ++ map a_name (N_seq n1 (length O))
      ++ map a_name (N_seq n2 (length R)) ++ map a_name (N_seq n3 (length T)).
Proof.
  intros l n0 O R T n1 n2 n3.
  unfold time_slot_ids, annotation_ids, time_slot_refs, annotation_refs,
    tier_annotations, all_annotations, render.
  fold l. fold n0.
  destruct (render_refs _ index_value 0 n0 l) as [x1 m1] eqn:E1.
  destruct (render_refs _ _ 0 m1 l) as [x2 m2] eqn:E2.
  destruct (render_refs _ _ 0 m2 l) as [x3 m3] eqn:E3.
  destruct (render_refs _ _ 0 m3 l) as [x4 m4] eqn:E4.
  apply render_refs_spec in E1, E2, E3, E4.
  destruct E1 as (I1 & A1 & S1 & ->), E2 as (I2 & A2 & S2 & ->),
    E3 as (I3 & A3 & S3 & ->), E4 as (I4 & A4 & S4 & _).
  destruct (render_aligned_spec (fun a => Some (audio_orig a)) orig l)
    as (OI & OS & OA).
  destruct (render_aligned_spec (fun a => shown (audio_rep a)) rep l)
    as (RI & RS & RA).
  destruct (render_aligned_spec (fun a => shown (audio_trans a)) trans l)
    as (TI & TS & TA).
  cbn [TIME_ORDER TIERS ANNOTATIONS TIER_ID flat_map].
  change (text_eqb (str "Original") (str "Original")) with true.
  repeat match goal with
         | |- context [text_eqb (str ?a) (str ?b)] =>
             let v := eval vm_compute in (text_eqb (str a) (str b)) in
             change (text_eqb (str a) (str b)) with v
         end.
  cbn iota.
  rewrite ?app_nil_r, ?app_nil_l, ?map_app, ?flat_map_app.
  rewrite render_time_order_ids.
  rewrite ?OI, ?OS, ?OA, ?RI, ?RS, ?RA, ?TI, ?TS, ?TA,
    ?I1, ?I2, ?I3, ?I4, ?A1, ?A2, ?A3, ?A4, ?S1, ?S2, ?S3, ?S4.
  rewrite ?app_nil_r, ?app_nil_l.
  repeat split.
Qed.

(** ** Shown clips against allocated clips *)

Lemma Permutation_interleave {A : Type} (r t O R T : list A) :
  Permutation (r ++ t ++ O ++ R ++ T) (O ++ (r ++ R) ++ (t ++ T)).
Proof.
  transitivity (O ++ (r ++ t) ++ (R ++ T)).
  - rewrite (app_assoc r t). apply Permutation_app_swap_app.
  - apply Permutation_app_head. rewrite <- !app_assoc.
    apply Permutation_app_head. apply Permutation_app_swap_app.
Qed.

Lemma shown_clips_Permutation l :
  Permutation (flat_map shown_clips l)
    (shown_orig l ++ shown_rep l ++ shown_trans l).
Proof.
  unfold shown_orig, shown_rep, shown_trans, pick.
  induction l as [|a l IH]; [constructor|].
  cbn [flat_map]. unfold shown_clips at 1. cbn [opt_list app].
  constructor.
  etransitivity; [|apply Permutation_interleave].
  rewrite <- !app_assoc.
  apply Permutation_app_head. apply Permutation_app_head. exact IH.
Qed.

Lemma shown_sublist o : opt_list (shown o) `sublist_of` opt_list o.
Proof.
  destruct o as [p|]; cbn; [|constructor].
  destruct (audio_truth (clip p)); cbn; repeat constructor.
Qed.

Lemma shown_clips_sublist l :
  flat_map shown_clips l `sublist_of` flat_map allocated_clips l.
Proof.
  induction l as [|a l IH]; [constructor|].
  cbn [flat_map]. apply sublist_app; [|exact IH].
  unfold shown_clips, allocated_clips. constructor.
  apply sublist_app; apply shown_sublist.
Qed.

Lemma sublist_map {A B : Type} (f : A -> B) (l k : list A) :
  l `sublist_of` k -> map f l `sublist_of` map f k.
Proof. induction 1; cbn; constructor; assumption. Qed.

Lemma sublist_flat_map {A B : Type} (f : A -> list B) (l k : list A) :
  l `sublist_of` k -> flat_map f l `sublist_of` flat_map f k.
Proof.
  induction 1 as [|x l k _ IH|x l k _ IH]; cbn.
  - constructor.
  - apply sublist_app; [reflexivity | exact IH].
  - apply sublist_inserts_l. exact IH.
Qed.

Lemma sublist_In {A : Type} (l k : list A) x :
  l `sublist_of` k -> In x l -> In x k.
Proof.
  induction 1 as [|y l k _ IH|y l k _ IH]; cbn; [tauto| |]; intuition.
Qed.

(** ** Uniqueness and reference counts *)

Lemma NoDup_app_inv_In {A : Type} (l k : list A) :
  NoDup (l ++ k) ->
  NoDup l /\ NoDup k /\ (forall x, In x l -> ~ In x k).
Proof.
  intros H. apply NoDup_app in H. destruct H as (Hl & Hd & Hk).
  split; [exact Hl|]. split; [exact Hk|].
  intros x Hx Hx'. apply (Hd x); apply list_elem_of_In; assumption.
Qed.

Lemma reference_counts (XO XR XT : list (list ascii)) :
  NoDup (XO ++ XR ++ XT) ->
  let refs := XO ++ XO ++ XR ++ XT in
  (forall x, In x XO -> occurrences x refs = 2) /\
  (forall x, In x (XR ++ XT) -> occurrences x refs = 1) /\
  (forall x, ~ In x (XO ++ XR ++ XT) -> occurrences x refs = 0).
Proof.
  intros H refs.
  destruct (NoDup_app_inv_In _ _ H) as (HO & HRT & HdO).
  destruct (NoDup_app_inv_In _ _ HRT) as (HR & HT & HdR).
  unfold refs. split; [|split]; intros x Hx; rewrite !occurrences_app.
  - assert (~ In x XR /\ ~ In x XT) as [H1 H2].
    { split; intros Hin; apply (HdO x Hx); apply in_or_app; auto. }
    rewrite (occurrences_NoDup x XO HO Hx), (occurrences_not_In x XR H1),
      (occurrences_not_In x XT H2). reflexivity.
  - assert (~ In x XO) as H0 by (intros Hin; exact (HdO x Hin Hx)).
    rewrite (occurrences_not_In x XO H0).
    apply in_app_or in Hx. destruct Hx as [Hx|Hx].
    + rewrite (occurrences_NoDup x XR HR Hx),
        (occurrences_not_In x XT (HdR x Hx)). reflexivity.
    + assert (~ In x XR) as H1 by (intros Hin; exact (HdR x Hin Hx)).
      rewrite (occurrences_not_In x XR H1), (occurrences_NoDup x XT HT Hx).
      reflexivity.
  - rewrite !occurrences_not_In; [reflexivity|..];
      intros Hin; apply Hx; repeat (apply in_or_app; auto; right).
Qed.

Lemma Permutation_regroup {A : Type} (X1 Y1 Y2 X2 Y3 X3 Y4 : list A) :
  Permutation (X1 ++ Y1 ++ Y2 ++ X2 ++ Y3 ++ X3 ++ Y4)
    ((X1 ++ X2 ++ X3) ++ (Y1 ++ Y2 ++ Y3 ++ Y4)).
Proof.
  rewrite <- !app_assoc. apply Permutation_app_head.
  transitivity (X2 ++ (Y1 ++ Y2) ++ Y3 ++ X3 ++ Y4).
  { replace (Y1 ++ Y2 ++ X2 ++ Y3 ++ X3 ++ Y4)
      with ((Y1 ++ Y2) ++ X2 ++ Y3 ++ X3 ++ Y4)
      by (rewrite <- !app_assoc; reflexivity).
    apply Permutation_app_swap_app. }
  apply Permutation_app_head.
  replace ((Y1 ++ Y2) ++ Y3 ++ X3 ++ Y4)
    with ((Y1 ++ Y2 ++ Y3) ++ X3 ++ Y4)
    by (rewrite <- !app_assoc; reflexivity).
  replace (Y1 ++ Y2 ++ Y3 ++ Y4) with ((Y1 ++ Y2 ++ Y3) ++ Y4)
    by (rewrite <- !app_assoc; reflexivity).
  apply Permutation_app_swap_app.
Qed.

(** C7 (as amended). After the merge loop, in the document rendered with
    [last_annotation_id = annotation_id + 1]: the timeslot identifiers are
    pairwise distinct and so are the annotation identifiers, those of the
    aligned annotations and those of the -ID and -Source child annotations
    together; every timeslot is referred to by exactly one annotation and
    every reference resolves; an annotation of the Original tier is
    referred to exactly twice (by its Original-ID and its Original-Source
    child), an annotation of the Repetition or Translation tier exactly
    once, and a child annotation never. *)
Theorem C7_identifiers_unique_and_reference_counts
  (anonymize_flag : bool) (src_audio : audio) (segs : list src_segment)
  (repeater translator original_annotator repetition_annotator
     translation_annotator : list ascii)
  (l : list annotation) (c : counters) :
  merge anonymize_flag src_audio segs = Some (l, c) ->
  let d := render (variables_of repeater translator original_annotator
                     repetition_annotator translation_annotator l c) in
  let ids_of name := map annotation_id_of (tier_annotations d (str name)) in
  NoDup (time_slot_ids d) /\
  NoDup (annotation_ids d) /\
  (forall x, In x (time_slot_ids d) -> occurrences x (time_slot_refs d) = 1) /\
  (forall x, In x (time_slot_refs d) -> In x (time_slot_ids d)) /\
  (forall x, In x (ids_of "Original") ->
     occurrences x (annotation_refs d) = 2) /\
  (forall x, In x (ids_of "Repetition" ++ ids_of "Translation") ->
     occurrences x (annotation_refs d) = 1) /\
  (forall x, In x (ids_of "Original-ID" ++ ids_of "Original-Source"
                     ++ ids_of "Repetition-ID" ++ ids_of "Translation-ID") ->
     occurrences x (annotation_refs d) = 0) /\
  (forall x, In x (annotation_refs d) -> In x (annotation_ids d)).
Proof.
  intros Hm d ids_of. unfold merge in Hm.
  apply merge_loop_block in Hm. destruct Hm as (HA & HT & Hc & _).
  cbn [initial_counters annotation_id timeslot_id] in HA, HT, Hc.
  set (A := flat_map allocated_clips l) in *.
  set (S := flat_map shown_clips l).
  assert (Hsub : S `sublist_of` A) by apply shown_clips_sublist.
  assert (NDa : NoDup (map aid S)).
  { apply (sublist_NoDup _ (map aid A)); [|apply sublist_map; exact Hsub].
    rewrite HA. apply NoDup_map_inj; [apply a_name_inj | apply NoDup_N_seq]. }
  assert (NDt : NoDup (flat_map slot_names S)).
  { apply (sublist_NoDup _ (flat_map slot_names A));
      [|apply sublist_flat_map; exact Hsub].
    rewrite HT. apply NoDup_map_inj; [apply ts_name_inj | apply NoDup_N_seq]. }
  pose proof (shown_clips_Permutation l) as HP. fold S in HP.
  destruct (render_lists (variables_of repeater translator original_annotator
              repetition_annotator translation_annotator l c))
    as (E1 & E2 & E3 & E4 & E5 & E6 & E7 & E8).
  cbn [annotations last_annotation_id variables_of] in E1, E2, E3, E4, E5, E6, E7, E8.
  fold d in E1, E2, E3, E4, E5, E6, E7, E8. fold S in E1.
  set (O := shown_orig l) in *. set (R := shown_rep l) in *.
  set (T := shown_trans l) in *.
  set (n0 := (annotation_id c + 1)%N) in *.
  set (Y1 := map a_name (N_seq n0 (length O))) in *.
  set (Y2 := map a_name (N_seq (n0 + N.of_nat (length O)) (length O))) in *.
  set (Y3 := map a_name (N_seq (n0 + N.of_nat (length O) + N.of_nat (length O))
                           (length R))) in *.
  set (Y4 := map a_name (N_seq (n0 + N.of_nat (length O) + N.of_nat (length O)
                                + N.of_nat (length R)) (length T))) in *.
  assert (EY : Y1 ++ Y2 ++ Y3 ++ Y4
               = map a_name (N_seq n0 (length O + (length O + (length R + length T))))).
  { unfold Y1, Y2, Y3, Y4. rewrite !N_seq_app, !map_app. reflexivity. }
  assert (PX : Permutation (map aid O ++ map aid R ++ map aid T) (map aid S)).
  { rewrite <- !map_app. apply Permutation_map. symmetry. exact HP. }
  assert (NDX : NoDup (map aid O ++ map aid R ++ map aid T)).
  { rewrite PX. exact NDa. }
  assert (Hlow : forall x, In x (map aid O ++ map aid R ++ map aid T) ->
                 exists k, x = a_name k /\ (k < annotation_id c)%N).
  { intros x Hx. apply (Permutation_in _ PX) in Hx.
    apply (sublist_In _ _ _ (sublist_map aid _ _ Hsub)) in Hx.
    rewrite HA in Hx. apply in_map_iff in Hx. destruct Hx as (k & <- & Hk).
    apply In_N_seq in Hk. exists k. split; [reflexivity | lia]. }
  assert (Hhigh : forall x, In x (Y1 ++ Y2 ++ Y3 ++ Y4) ->
                  exists k, x = a_name k /\ (annotation_id c < k)%N).
  { intros x Hx. rewrite EY in Hx. apply in_map_iff in Hx.
    destruct Hx as (k & <- & Hk). apply In_N_seq in Hk.
    exists k. split; [reflexivity | unfold n0 in Hk; lia]. }
  assert (Hdisj : forall x, In x (map aid O ++ map aid R ++ map aid T) ->
                  ~ In x (Y1 ++ Y2 ++ Y3 ++ Y4)).
  { intros x Hx Hy. destruct (Hlow x Hx) as (k & -> & Hk).
    destruct (Hhigh _ Hy) as (k' & E & Hk'). apply a_name_inj in E. lia. }
  assert (PT : Permutation (time_slot_refs d) (time_slot_ids d)).
  { rewrite E1, E3, <- !flat_map_app. apply Permutation_flat_map.
    symmetry. exact HP. }
  destruct (reference_counts _ _ _ NDX) as (C2 & C1 & C0).
  rewrite <- E4 in C2, C1, C0.
  split; [rewrite E1; exact NDt|].
  split.
  { rewrite E2, Permutation_regroup. apply NoDup_app_In.
    - exact NDX.
    - rewrite EY. apply NoDup_map_inj; [apply a_name_inj | apply NoDup_N_seq].
    - exact Hdisj. }
  split.
  { intros x Hx. rewrite (occurrences_Permutation _ _ _ PT).
    apply occurrences_NoDup; [rewrite E1; exact NDt | exact Hx]. }
  split; [intros x; apply Permutation_in; exact PT|].
  split; [intros x Hx; apply C2; unfold ids_of in Hx; rewrite E5 in Hx; exact Hx|].
  split.
  { intros x Hx. apply C1. unfold ids_of in Hx. rewrite E6, E7 in Hx. exact Hx. }
  split.
  { intros x Hx. apply C0. unfold ids_of in Hx. rewrite E8 in Hx.
    intros Hin. exact (Hdisj x Hin Hx). }
  intros x Hx. rewrite E4 in Hx. rewrite E2.
  apply (Permutation_in _ (Permutation_sym (Permutation_regroup _ _ _ _ _ _ _))).
  apply in_or_app. left.
  apply in_app_or in Hx. destruct Hx as [Hx|Hx]; [apply in_or_app; auto|exact Hx].
Qed.

Lemma example_merge_eq :
  merge true example_audio example_segs
  = Some (example_annotations, example_counters).
Proof. vm_compute. reflexivity. Qed.

Lemma example_readable : Forall readable example_segs.
Proof.
  unfold example_segs.
  constructor; [right; vm_compute; repeat split; eexists; reflexivity|].
  constructor; [right; vm_compute; repeat split; eexists; reflexivity|].
  constructor.
Qed.

Lemma merge_allocates_two_timeslots_per_clip_witness :
  merge true example_audio example_segs
  = Some (example_annotations, example_counters) /\
  count_clips example_segs = 5 /\
  annotation_id example_counters = 6%N /\
  timeslot_id example_counters = 11%N.
Proof.
  destruct (merge_allocates_two_timeslots_per_clip true example_audio
              example_segs example_readable) as (l & c & E & Ha & Ht).
  rewrite example_merge_eq in E. injection E as <- <-.
  split; [reflexivity|]. split; [reflexivity|].
  change (count_clips example_segs) with 5 in Ha, Ht. split; lia.
Defined.

Lemma C7_witness :
  NoDup (annotation_ids
           (render (variables_of [] [] [] [] [] example_annotations
                      example_counters))).
Proof.
  refine (proj1 (proj2 (C7_identifiers_unique_and_reference_counts
                          true example_audio example_segs [] [] [] [] []
                          example_annotations example_counters _))).
  vm_compute. reflexivity.
Defined.

(** C7 fails as stated: for one segment with its original clip only, the
    annotation [a1] of the Original tier is referred to twice (by [a3] on
    Original-ID and [a4] on Original-Source), and the child annotation
    [a3] is referred to by nothing. *)
Lemma C7_counterexample :
  let d := render (variables_of [] [] [] [] [] single_annotations
                     single_counters) in
  merge false example_audio [single_seg]
  = Some (single_annotations, single_counters) /\
  annotation_ids d = [a_name 1; a_name 3; a_name 4] /\
  occurrences (a_name 1) (annotation_refs d) = 2 /\
  occurrences (a_name 3) (annotation_refs d) = 0.
Proof. vm_compute. repeat split. Qed.

(** ** What one pass of the loop stores *)

Lemma audio_truth_false a : audio_truth a = false -> a = [].
Proof. destruct a; [reflexivity | discriminate]. Qed.

(** X7.  Texts and clips of one segment.  The annotation that the loop
    builds holds the three texts, redacted when anonymization is asked
    for, and the source information as it is; its original clip is the
    slice of the source audio, its repetition and translation clips are
    the oral annotation files; and with anonymization each clip whose text
    the redaction changed is replaced by silence of the same length. *)
Theorem merge_one_redacts_texts_and_silences_clips
  (anonymize_flag : bool) (src_audio : audio) (c c' : counters)
  (u : src_segment) (a : annotation) (o0 r0 t0 s0 : list ascii) :
  merge_one anonymize_flag src_audio c u = Some (a, c') ->
  split_orig_rep (src_text u) = Some (o0, r0) ->
  trans_at_mid u = Some t0 -> source_at_mid u = Some s0 ->
  orig a = redacted_if anonymize_flag o0 /\
  rep a = redacted_if anonymize_flag r0 /\
  trans a = redacted_if anonymize_flag t0 /\
  source a = s0 /\
  clip (audio_orig a)
  = hushed_if anonymize_flag o0
      (slice_ms src_audio (src_start_ms u) (src_end_ms u)) /\
  option_map clip (audio_rep a)
  = option_map (hushed_if anonymize_flag r0) (careful_wav u) /\
  option_map clip (audio_trans a)
  = option_map (hushed_if anonymize_flag t0) (translation_wav u).
Proof.
  intros H Hs Ht Hso. unfold merge_one in H. rewrite Hs, Ht, Hso in H.
  set (sl := slice_ms src_audio (src_start_ms u) (src_end_ms u)) in *.
  unfold anonymize, place_file, place, silence_if in H.
  unfold redacted_if, hushed_if.
  destruct anonymize_flag;
    destruct (careful_wav u) as [fr|], (translation_wav u) as [ft|];
    cbv beta iota zeta in H; injection H as <- <-;
    cbn [orig rep trans source audio_orig audio_rep audio_trans andb];
    repeat match goal with
           | |- context [text_eqb ?x ?y] => destruct (text_eqb x y)
           end;
    cbn [negb andb];
    repeat match goal with
           | |- context [audio_truth ?x] =>
               let E := fresh "E" in
               destruct (audio_truth x) eqn:E;
               [|apply audio_truth_false in E; subst x]
           end;
    repeat split.
Qed.

Lemma merge_one_redacts_texts_and_silences_clips_witness :
  match merge_one true example_audio initial_counters tagged_seg with
  | Some (a, _) =>
      orig a = str "(NAME)" /\ rep a = str "Bob" /\ trans a = str "(NAME)" /\
      source a = str "src" /\
      clip (audio_orig a) = [0; 0]%Z /\
      option_map clip (audio_rep a) = Some [4; 5; 6]%Z /\
      option_map clip (audio_trans a) = Some [0; 0; 0]%Z
  | None => False
  end.
Proof.
  destruct (merge_one true example_audio initial_counters tagged_seg)
    as [[a c']|] eqn:E; [|vm_compute in E; discriminate].
  exact (merge_one_redacts_texts_and_silences_clips true example_audio
           initial_counters c' tagged_seg a
           (str "[name]Bob[/name]") (str "Bob") (str "[name]Bob[/name]")
           (str "src") E eq_refl eq_refl eq_refl).
Defined.

(** X8.  Ignored segments leave no trace.  A segment whose text is
    [%ignore%] takes no identifier, no timeslot and no time on the merged
    timeline: the loop gives the same annotations and counters as on the
    segments without it. *)
Theorem ignored_segments_leave_no_trace
  (anonymize_flag : bool) (src_audio : audio) (segs : list src_segment) :
  merge anonymize_flag src_audio segs
  = merge anonymize_flag src_audio
      (List.filter (fun u => negb (ignored u)) segs).
Proof.
  unfold merge. generalize initial_counters.
  induction segs as [|u segs IH]; intros c; [reflexivity|].
  cbn [merge_loop List.filter].
  destruct (ignored u) eqn:E; cbn [negb]; [apply IH|].
  cbn [merge_loop]. rewrite E.
  destruct (merge_one anonymize_flag src_audio c u) as [[a c1]|];
    [|reflexivity].
  rewrite IH. reflexivity.
Qed.

(** ** Splitting a text into original and repetition *)

Lemma contains_split pat s :
  contains pat s = true -> exists a t, s = a ++ pat ++ t.
Proof.
  induction s as [|c s IH]; rewrite RedactorFacts.contains_unfold.
  - destruct (Regex.strip_prefix pat []) as [r|] eqn:E; [|discriminate].
    intros _. apply RegexFacts.strip_prefix_Some in E. exists [], r. exact E.
  - destruct (Regex.strip_prefix pat (c :: s)) as [r|] eqn:E.
    + intros _. apply RegexFacts.strip_prefix_Some in E. exists [], r. exact E.
    + intros H. destruct (IH H) as (a & t & ->). exists (c :: a), t.
      reflexivity.
Qed.

Lemma find_sep_None sep s : find_sep sep s = None -> contains sep s = false.
Proof.
  induction s as [|c s IH]; cbn [find_sep];
    rewrite RedactorFacts.contains_unfold.
  - destruct (Regex.strip_prefix sep []); [discriminate | reflexivity].
  - destruct (Regex.strip_prefix sep (c :: s)); [discriminate|].
    destruct (find_sep sep s) as [[b a]|]; [discriminate|].
    intros _. apply IH. reflexivity.
Qed.

Lemma find_sep_Some sep s b a :
  sep <> [] -> find_sep sep s = Some (b, a) ->
  s = b ++ sep ++ a /\ contains sep b = false.
Proof.
  intros Hsep. revert b. induction s as [|c s IH]; intros b; cbn [find_sep].
  - destruct (Regex.strip_prefix sep []) as [r|] eqn:E; [|discriminate].
    apply RegexFacts.strip_prefix_Some in E. destruct sep; [congruence|].
    discriminate.
  - destruct (Regex.strip_prefix sep (c :: s)) as [r|] eqn:E.
    + intros [= <- <-]. apply RegexFacts.strip_prefix_Some in E.
      split; [exact E|]. destruct sep; [congruence | reflexivity].
    + destruct (find_sep sep s) as [[b' a']|]; [|discriminate].
      intros [= <- <-]. destruct (IH b' eq_refl) as [-> Hb]. split;
        [reflexivity|].
      rewrite RedactorFacts.contains_unfold.
      destruct (Regex.strip_prefix sep (c :: b')) as [x|] eqn:Ex; [|exact Hb].
      apply RegexFacts.strip_prefix_Some in Ex.
      assert (Regex.strip_prefix sep (c :: b' ++ sep ++ a')
              = Some (x ++ sep ++ a')) as E'.
      { apply RegexFacts.strip_prefix_Some.
        rewrite app_comm_cons, Ex, <- app_assoc. reflexivity. }
      congruence.
Qed.

(** X9.  The split loses nothing.  When the text holds no separator, the
    original is the whole text and the repetition is empty; when it holds
    one, the two parts put back around the separator give the text, and
    neither holds a separator; and the unpacking raises only on texts in
    which a separator is followed by a second one. *)
Theorem split_orig_rep_round_trip (text : list ascii) :
  match split_orig_rep text with
  | Some (o, r) =>
      (contains orig_rep_sep text = false /\ o = text /\ r = []) \/
      (text = o ++ orig_rep_sep ++ r /\
       contains orig_rep_sep o = false /\ contains orig_rep_sep r = false)
  | None =>
      exists a b c, text = a ++ orig_rep_sep ++ b ++ orig_rep_sep ++ c
  end.
Proof.
  unfold split_orig_rep. fold orig_rep_sep.
  destruct (find_sep orig_rep_sep text) as [[b a]|] eqn:E.
  - destruct (find_sep_Some orig_rep_sep text b a) as [-> Hb];
      [discriminate | exact E |].
    destruct (contains orig_rep_sep a) eqn:Ea.
    + destruct (contains_split _ _ Ea) as (x & y & ->). exists b, x, y.
      reflexivity.
    + right. auto.
  - left. split; [exact (find_sep_None _ _ E) | auto].
Qed.

(** ** The texts and links of the rendered document *)

Lemma render_aligned_texts sel value l :
  flat_map text_of (render_aligned sel value l) = texts sel value l.
Proof.
  unfold render_aligned, texts. induction l as [|a l IH]; [reflexivity|].
  cbn [flat_map]. rewrite flat_map_app, IH.
  destruct (sel a); reflexivity.
Qed.

Lemma render_aligned_no_links sel value l :
  flat_map link_of (render_aligned sel value l) = [].
Proof.
  unfold render_aligned. induction l as [|a l IH]; [reflexivity|].
  cbn [flat_map]. rewrite flat_map_app, IH.
  destruct (sel a); reflexivity.
Qed.

Lemma render_refs_links sel value l : forall i last xs n,
  render_refs sel value i last l = (xs, n) ->
  flat_map link_of xs
  = flat_map (fun '(j, a) =>
                match sel a with
                | Some p => [(aid p, value j a)]
                | None => []
                end) (numbered i l).
Proof.
  induction l as [|a l IH]; intros i last xs n.
  - cbn. intros [= <- <-]. reflexivity.
  - cbn [render_refs numbered flat_map]. destruct (sel a) as [p|].
    + destruct (render_refs sel value (S i) (last + 1) l) as [rest m] eqn:E.
      intros [= <- <-]. cbn [flat_map link_of app].
      rewrite (IH _ _ _ _ E). reflexivity.
    + intros E. rewrite (IH _ _ _ _ E). reflexivity.
Qed.

(** X10.  What the tiers of the merged document hold.  The three text
    tiers hold, under the identifiers allocated by the loop, the texts of
    the annotations whose clip is shown; each ID tier refers to the clips
    shown on its parent and gives each the position of its segment in the
    list, so that the clips of one segment carry the same number on the
    three ID tiers; the source tier gives the source of each original. *)
Theorem rendered_tiers_hold_the_texts_and_number_the_segments
  (v : variables) :
  let l := annotations v in
  let d := render v in
  flat_map text_of (tier_annotations d (str "Original"))
  = texts (fun a => Some (audio_orig a)) orig l /\
  flat_map text_of (tier_annotations d (str "Repetition"))
  = texts (fun a => shown (audio_rep a)) rep l /\
  flat_map text_of (tier_annotations d (str "Translation"))
  = texts (fun a => shown (audio_trans a)) trans l /\
  flat_map link_of (tier_annotations d (str "Original-ID"))
  = links (fun a => Some (audio_orig a)) index_value l /\
  flat_map link_of (tier_annotations d (str "Original-Source"))
  = links (fun a => Some (audio_orig a)) (fun _ a => source a) l /\
  flat_map link_of (tier_annotations d (str "Repetition-ID"))
  = links (fun a => shown (audio_rep a)) index_value l /\
  flat_map link_of (tier_annotations d (str "Translation-ID"))
  = links (fun a => shown (audio_trans a)) index_value l /\
  tier_annotations d (str "Postprocess") = [].
Proof.
  intros l d. unfold d, tier_annotations, render, links. fold l.
  destruct (render_refs _ index_value 0 (last_annotation_id v) l)
    as [x1 m1] eqn:E1.
  destruct (render_refs _ _ 0 m1 l) as [x2 m2] eqn:E2.
  destruct (render_refs _ _ 0 m2 l) as [x3 m3] eqn:E3.
  destruct (render_refs _ _ 0 m3 l) as [x4 m4] eqn:E4.
  apply render_refs_links in E1, E2, E3, E4.
  cbn [TIERS ANNOTATIONS TIER_ID flat_map].
  repeat match goal with
         | |- context [text_eqb (str ?a) (str ?b)] =>
             let v := eval vm_compute in (text_eqb (str a) (str b)) in
             change (text_eqb (str a) (str b)) with v
         end.
  cbn iota. rewrite ?app_nil_r, ?app_nil_l.
  rewrite !render_aligned_texts, E1, E2, E3, E4.
  repeat split.
Qed.

(** ** The names of the oral annotation files *)

Lemma uint_digits d :
  forallb is_digit (str (NilEmpty.string_of_uint d)) = true.
Proof. induction d; simpl; try exact IHd; reflexivity. Qed.

Lemma decimal_digits n : forallb is_digit (decimal n) = true.
Proof.
  unfold decimal, NilZero.string_of_uint.
  destruct (N.to_uint n); try apply uint_digits. reflexivity.
Qed.

Lemma lstrip_dot_digits s :
  forallb is_digit s = true -> lstrip "."%char s = s.
Proof.
  destruct s as [|c s]; [reflexivity|]. cbn [forallb lstrip].
  intros H. apply andb_prop in H as [H _].
  destruct (Ascii.eqb_spec c "."%char) as [->|]; [discriminate | reflexivity].
Qed.

Lemma digit_char_cases d :
  (0 <= d < 10)%Z ->
  Ascii.eqb (digit_char d) "0"%char = (d =? 0)%Z /\
  Ascii.eqb (digit_char d) "."%char = false.
Proof.
  intros H.
  assert (E : (d = 0 \/ d = 1 \/ d = 2 \/ d = 3 \/ d = 4 \/ d = 5 \/ d = 6
              \/ d = 7 \/ d = 8 \/ d = 9)%Z) by lia.
  repeat (destruct E as [->|E]; [split; reflexivity|]). subst d.
  split; reflexivity.
Qed.

Lemma forallb_rev_true {A : Type} (f : A -> bool) l :
  forallb f l = true -> forallb f (rev l) = true.
Proof.
  intros H. apply forallb_forall. intros x Hx.
  rewrite forallb_forall in H. apply H. apply in_rev. exact Hx.
Qed.

Lemma oa_seconds_spec (ms : Z) :
  (0 <= ms)%Z ->
  oa_seconds ms = decimal (Z.to_N (ms / 1000)) ++ oa_fraction (ms mod 1000).
Proof.
  intros Hms. unfold oa_seconds, fmt3, oa_fraction. cbv zeta.
  rewrite (Z.abs_eq ms Hms).
  destruct (Z.ltb_spec ms 0) as [|_]; [lia|]. rewrite app_nil_l.
  pose proof (Z.mod_pos_bound ms 1000 ltac:(lia)) as Hr.
  set (r := (ms mod 1000)%Z) in *.
  set (D := decimal (Z.to_N (ms / 1000))).
  assert (H2 : (0 <= r / 100 < 10)%Z) by (Z.div_mod_to_equations; lia).
  assert (H1 : (0 <= r / 10 mod 10 < 10)%Z) by (Z.div_mod_to_equations; lia).
  assert (H0 : (0 <= r mod 10 < 10)%Z) by (Z.div_mod_to_equations; lia).
  destruct (digit_char_cases _ H2) as [Z2 P2].
  destruct (digit_char_cases _ H1) as [Z1 P1].
  destruct (digit_char_cases _ H0) as [Z0 P0].
  assert (E0 : (r mod 10 =? 0)%Z = (r mod 10 =? 0)%Z) by reflexivity.
  assert (E100 : (r mod 100 =? 0)%Z
                 = ((r mod 10 =? 0) && (r / 10 mod 10 =? 0))%Z).
  { destruct (Z.eqb_spec (r mod 100) 0), (Z.eqb_spec (r mod 10) 0),
      (Z.eqb_spec (r / 10 mod 10) 0); cbn; try reflexivity;
      exfalso; Z.div_mod_to_equations; lia. }
  assert (E1000 : (r =? 0)%Z
                  = ((r mod 10 =? 0) && (r / 10 mod 10 =? 0) && (r / 100 =? 0))%Z).
  { destruct (Z.eqb_spec r 0), (Z.eqb_spec (r mod 10) 0),
      (Z.eqb_spec (r / 10 mod 10) 0), (Z.eqb_spec (r / 100) 0); cbn;
      try reflexivity; exfalso; Z.div_mod_to_equations; lia. }
  rewrite E1000, E100.
  unfold rstrip. rewrite rev_involutive.
  change (str ".") with ["."%char].
  replace (rev (D ++ ["."%char] ++ [digit_char (r / 100); digit_char (r / 10 mod 10); digit_char (r mod 10)]))
    with (digit_char (r mod 10) :: digit_char (r / 10 mod 10) :: digit_char (r / 100) :: "."%char :: rev D)
    by (rewrite !rev_app_distr; reflexivity).
  cbn [lstrip]. rewrite Z0, Z1, Z2.
  pose proof (lstrip_dot_digits (rev D)
                (forallb_rev_true _ _ (decimal_digits _))) as HD.
  assert (Ed : Ascii.eqb "."%char "0"%char = false) by reflexivity.
  assert (Edd : Ascii.eqb "."%char "."%char = true) by reflexivity.
  destruct (r mod 10 =? 0)%Z;
    [destruct (r / 10 mod 10 =? 0)%Z; [destruct (r / 100 =? 0)%Z|]|];
    cbn [andb lstrip]; rewrite ?Ed; cbn [lstrip]; rewrite ?P0, ?P1, ?P2, ?Edd, ?HD;
    cbn [rev]; rewrite rev_involutive, <- ?app_assoc, ?app_nil_r; reflexivity.
Qed.

(** X11.  The name of an oral annotation file.  For times that are not
    negative and lie below 2^52 milliseconds (the range in which the
    division by [1000.0] and the three-digit rounding of the double print
    the exact quotient), [to_oa] writes each time in seconds with the
    decimals that are needed and no more: the whole seconds, then, unless
    the milliseconds are zero, a point and the decimals without trailing
    zeros. *)
Theorem to_oa_writes_seconds_without_trailing_zeros
  (start_ms end_ms : Z) (oa_type : list ascii) :
  (0 <= start_ms < 2 ^ 52)%Z -> (0 <= end_ms < 2 ^ 52)%Z ->
  to_oa start_ms end_ms oa_type
  = decimal (Z.to_N (start_ms / 1000)) ++ oa_fraction (start_ms mod 1000)
      ++ str "_to_"
      ++ decimal (Z.to_N (end_ms / 1000)) ++ oa_fraction (end_ms mod 1000)
      ++ str "_" ++ oa_type ++ str ".wav".
Proof.
  intros [Hs _] [He _]. unfold to_oa.
  rewrite (oa_seconds_spec _ Hs), (oa_seconds_spec _ He).
  rewrite <- !app_assoc. reflexivity.
Qed.

Lemma to_oa_writes_seconds_without_trailing_zeros_witness :
  to_oa 12000 13250 (str "Careful") = str "12_to_13.25_Careful.wav".
Proof.
  rewrite (to_oa_writes_seconds_without_trailing_zeros 12000 13250
             (str "Careful")) by lia.
  vm_compute. reflexivity.
Defined.

(** ** The order of the time values *)

Lemma ascending_app lo l1 mid l2 hi :
  ascending lo l1 mid -> ascending mid l2 hi -> ascending lo (l1 ++ l2) hi.
Proof.
  revert lo. induction l1 as [|x l1 IH]; intros lo; cbn.
  - intros H1 H2. destruct l2 as [|y l2]; cbn in *; [lia|].
    destruct H2 as [H2 H3]. split; [lia | exact H3].
  - intros [H1 H2] H3. split; [exact H1 | exact (IH _ H2 H3)].
Qed.

Lemma merge_one_ascending flag src c u a c' :
  merge_one flag src c u = Some (a, c') ->
  (src_start_ms u <= src_end_ms u)%Z ->
  ascending (offset c) (time_values a) (offset c').
Proof.
  intros H W. unfold merge_one in H.
  set (sl := slice_ms src (src_start_ms u) (src_end_ms u)) in *.
  destruct (split_orig_rep (src_text u)) as [[o0 r0]|]; [|discriminate].
  destruct (trans_at_mid u) as [t0|]; [|discriminate].
  destruct (source_at_mid u) as [s0|]; [|discriminate].
  destruct (if flag then anonymize o0 else (o0, false)) as [o1 oa].
  destruct (if flag then anonymize r0 else (r0, false)) as [r1 ra].
  destruct (if flag then anonymize t0 else (t0, false)) as [t1 ta].
  unfold place_file, place in H.
  destruct (careful_wav u) as [[|x fr]|], (translation_wav u) as [[|y ft]|];
    cbv beta iota zeta in H; injection H as <- <-;
    unfold time_values, slots_of_shown, shown, silence_if;
    cbn [audio_orig audio_rep audio_trans offset];
    destruct flag, oa, ra, ta;
    cbn [andb audio_truth length Nat.eqb negb with_clip clip ts1 ts2 silent
         repeat slots_of app map TIME_VALUE ascending];
    lia.
Qed.

Lemma render_time_order_cons a l :
  map TIME_VALUE (render_time_order (a :: l))
  = time_values a ++ map TIME_VALUE (render_time_order l).
Proof.
  unfold render_time_order, time_values. cbn [flat_map].
  rewrite map_app. reflexivity.
Qed.

Lemma merge_loop_ascending flag src segs : forall c l c',
  merge_loop flag src c segs = Some (l, c') ->
  Forall (fun u => ignored u = false ->
                   (src_start_ms u <= src_end_ms u)%Z) segs ->
  ascending (offset c) (map TIME_VALUE (render_time_order l)) (offset c').
Proof.
  induction segs as [|u segs IH]; intros c l c' H Hw.
  - cbn in H. injection H as <- <-. cbn. lia.
  - inversion Hw as [|? ? Hu Hw']; subst. cbn [merge_loop] in H.
    destruct (ignored u) eqn:Ei; [exact (IH _ _ _ H Hw')|].
    destruct (merge_one flag src c u) as [[a c1]|] eqn:E1; [|discriminate].
    destruct (merge_loop flag src c1 segs) as [[l1 c2]|] eqn:E2; [|discriminate].
    injection H as <- <-. rewrite render_time_order_cons.
    apply (ascending_app _ _ (offset c1)).
    + exact (merge_one_ascending _ _ _ _ _ _ E1 (Hu eq_refl)).
    + exact (IH _ _ _ E2 Hw').
Qed.

(** X19.  The time order goes up.  When no segment that is not ignored
    ends before it starts, the time values of the [TIME_ORDER] of the
    merged document, in the order in which the template writes them,
    start at or after 0, never go down, and end at or before the final
    offset. *)
Theorem merged_time_order_is_ascending
  (anonymize_flag : bool) (src_audio : audio) (segs : list src_segment)
  (l : list annotation) (c : counters)
  (repeater translator original_annotator repetition_annotator
     translation_annotator : list ascii) :
  Forall (fun u => ignored u = false ->
                   (src_start_ms u <= src_end_ms u)%Z) segs ->
  merge anonymize_flag src_audio segs = Some (l, c) ->
  ascending 0
    (map TIME_VALUE
       (TIME_ORDER
          (render (variables_of repeater translator original_annotator
                     repetition_annotator translation_annotator l c))))
    (offset c).
Proof.
  intros Hw H.
  assert (E : TIME_ORDER
                (render (variables_of repeater translator original_annotator
                           repetition_annotator translation_annotator l c))
              = render_time_order l).
  { unfold render, variables_of. cbn [annotations last_annotation_id].
    destruct (render_refs _ index_value _ _ _) as [x1 m1].
    destruct (render_refs _ _ _ m1 _) as [x2 m2].
    destruct (render_refs _ _ _ m2 _) as [x3 m3].
    destruct (render_refs _ _ _ m3 _) as [x4 m4]. reflexivity. }
  rewrite E. exact (merge_loop_ascending _ _ _ _ _ _ H Hw).
Qed.

Lemma merged_time_order_is_ascending_witness :
  ascending 0
    (map TIME_VALUE
       (TIME_ORDER
          (render (variables_of [] [] [] [] [] example_annotations
                     example_counters))))
    (offset example_counters).
Proof.
  apply (merged_time_order_is_ascending true example_audio example_segs).
  - constructor; [intros _; cbn; lia|].
    constructor; [intros _; cbn; lia|]. constructor.
  - vm_compute. reflexivity.
Defined.

End MergerFacts.

(* ================================================================== *)
(** * Facts about the annotation store *)
(* ================================================================== *)

Module StoreFacts.
Import Regex Redactor Store StoreSamples RegexFacts RedactorFacts.

(** ** Dictionaries *)

Section Assoc.
Context {V : Type}.
Implicit Types (d : list (string * V)) (k : string) (v : V).

Lemma assoc_get_set_eq k v v0 d :
  assoc_get k d = Some v0 -> assoc_get k (assoc_set k v d) = Some v.
Proof.
  induction d as [|[k' v'] d IH]; cbn; [discriminate|].
  destruct (String.eqb k k') eqn:E; cbn; rewrite E; auto.
Qed.

Lemma assoc_get_set_ne k k' v d :
  k <> k' -> assoc_get k' (assoc_set k v d) = assoc_get k' d.
Proof.
  intros Hne. induction d as [|[k0 v0] d IH]; cbn; [reflexivity|].
  destruct (String.eqb k k0) eqn:E; cbn.
  - apply String.eqb_eq in E. subst k0.
    destruct (String.eqb k' k) eqn:E'; [|reflexivity].
    apply String.eqb_eq in E'. congruence.
  - rewrite IH. reflexivity.
Qed.

Lemma assoc_set_same k v d : assoc_get k d = Some v -> assoc_set k v d = d.
Proof.
  induction d as [|[k' v'] d IH]; cbn; [reflexivity|].
  destruct (String.eqb k k'); [intros [= ->]; reflexivity|].
  intros H. rewrite (IH H). reflexivity.
Qed.

Lemma assoc_set_set k v1 v2 d :
  assoc_set k v2 (assoc_set k v1 d) = assoc_set k v2 d.
Proof.
  induction d as [|[k' v'] d IH]; cbn; [reflexivity|].
  destruct (String.eqb k k') eqn:E; cbn; rewrite E; [reflexivity|].
  rewrite IH. reflexivity.
Qed.

Lemma assoc_set_keys k v d : map fst (assoc_set k v d) = map fst d.
Proof.
  induction d as [|[k' v'] d IH]; cbn; [reflexivity|].
  destruct (String.eqb k k'); cbn; [|rewrite IH]; reflexivity.
Qed.

Lemma assoc_get_In k v d : assoc_get k d = Some v -> In (k, v) d.
Proof.
  induction d as [|[k' v'] d IH]; cbn; [discriminate|].
  destruct (String.eqb k k') eqn:E.
  - apply String.eqb_eq in E. intros [= ->]. left. congruence.
  - intros H. right. exact (IH H).
Qed.

End Assoc.

Lemma assoc_get_map {V W : Type} (f : V -> W) k (d : list (string * V)) :
  assoc_get k (map (fun '(n, x) => (n, f x)) d) = option_map f (assoc_get k d).
Proof.
  induction d as [|[k' v'] d IH]; cbn; [reflexivity|].
  destruct (String.eqb k k'); [reflexivity | exact IH].
Qed.

Lemma assoc_set_map {V W : Type} (f : V -> W) k v (d : list (string * V)) :
  map (fun '(n, x) => (n, f x)) (assoc_set k v d)
  = assoc_set k (f v) (map (fun '(n, x) => (n, f x)) d).
Proof.
  induction d as [|[k' v'] d IH]; cbn; [reflexivity|].
  destruct (String.eqb k k'); cbn; [|rewrite IH]; reflexivity.
Qed.

(** ** The two loops *)

(** What the loop of [set_aligned_annotation] does to the items: nothing
    when no annotation has the span, otherwise the first annotation with
    the span, and it alone, gets the new value. *)
Lemma set_aligned_loop_spec ts s e nv items items' :
  set_aligned_loop ts s e nv items = Some items' ->
  (items' = items /\
   forall x, In x items -> aligned_span ts (snd x) <> Some (s, e)) \/
  (exists pre i a post,
     items = pre ++ (i, a) :: post /\
     items' = pre ++ (i, with_value a nv) :: post /\
     aligned_span ts a = Some (s, e) /\
     forall x, In x pre -> aligned_span ts (snd x) <> Some (s, e)).
Proof.
  revert items'. induction items as [|[i a] rest IH]; intros items'.
  - cbn. intros [= <-]. left. split; [reflexivity | intros x []].
  - cbn [set_aligned_loop].
    destruct (ts !! a_start_ts a) as [s'|] eqn:Es; [|discriminate].
    assert (Hcont : forall rest',
      aligned_span ts a <> Some (s, e) ->
      set_aligned_loop ts s e nv rest = Some rest' ->
      (((i, a) :: rest' = (i, a) :: rest /\
        forall x, In x ((i, a) :: rest) -> aligned_span ts (snd x) <> Some (s, e)) \/
       exists pre i0 a0 post,
         (i, a) :: rest = pre ++ (i0, a0) :: post /\
         (i, a) :: rest' = pre ++ (i0, with_value a0 nv) :: post /\
         aligned_span ts a0 = Some (s, e) /\
         forall x, In x pre -> aligned_span ts (snd x) <> Some (s, e))).
    { intros rest' Hne Hr. destruct (IH _ Hr) as [[-> Hno]|(pre & i0 & a0 & post & -> & -> & Hsp & Hpre)].
      - left. split; [reflexivity|]. intros x [<-|Hx]; [exact Hne | exact (Hno x Hx)].
      - right. exists ((i, a) :: pre), i0, a0, post.
        repeat split; [exact Hsp|]. intros x [<-|Hx]; [exact Hne | exact (Hpre x Hx)]. }
    destruct (s' =? s)%Z eqn:E1.
    + apply Z.eqb_eq in E1. subst s'.
      destruct (ts !! a_end_ts a) as [e'|] eqn:Ee; [|discriminate].
      destruct (e' =? e)%Z eqn:E2.
      * apply Z.eqb_eq in E2. subst e'. intros [= <-]. right.
        exists [], i, a, rest. repeat split; [|intros x []].
        unfold aligned_span. rewrite Es, Ee. reflexivity.
      * apply Z.eqb_neq in E2.
        destruct (set_aligned_loop ts s e nv rest) as [rest'|] eqn:Er; [|discriminate].
        intros [= <-]. apply Hcont; [|reflexivity].
        unfold aligned_span. rewrite Es, Ee. congruence.
    + apply Z.eqb_neq in E1.
      destruct (set_aligned_loop ts s e nv rest) as [rest'|] eqn:Er; [|discriminate].
      intros [= <-]. apply Hcont; [|reflexivity].
      unfold aligned_span. rewrite Es. destruct (ts !! a_end_ts a); congruence.
Qed.


(** The loop of [set_ref_annotation], with the span borrowed from the
    parent. *)
Lemma set_ref_loop_spec t pt s e nv items items' :
  set_ref_loop t pt s e nv items = Some items' ->
  (items' = items /\
   forall x, In x items -> ref_span t pt (snd x) <> Some (s, e)) \/
  (exists pre i r post,
     items = pre ++ (i, r) :: post /\
     items' = pre ++ (i, with_ref_value r nv) :: post /\
     ref_span t pt r = Some (s, e) /\
     forall x, In x pre -> ref_span t pt (snd x) <> Some (s, e)).
Proof.
  revert items'. induction items as [|[i r] rest IH]; intros items'.
  - cbn. intros [= <-]. left. split; [reflexivity | intros x []].
  - cbn [set_ref_loop].
    destruct (parent_annotation t pt (r_parent r)) as [p|] eqn:Ep; [|discriminate].
    destruct (timeslots t !! a_start_ts p) as [s'|] eqn:Es; [|discriminate].
    assert (Hcont : forall rest',
      ref_span t pt r <> Some (s, e) ->
      set_ref_loop t pt s e nv rest = Some rest' ->
      (((i, r) :: rest' = (i, r) :: rest /\
        forall x, In x ((i, r) :: rest) -> ref_span t pt (snd x) <> Some (s, e)) \/
       exists pre i0 r0 post,
         (i, r) :: rest = pre ++ (i0, r0) :: post /\
         (i, r) :: rest' = pre ++ (i0, with_ref_value r0 nv) :: post /\
         ref_span t pt r0 = Some (s, e) /\
         forall x, In x pre -> ref_span t pt (snd x) <> Some (s, e))).
    { intros rest' Hne Hr. destruct (IH _ Hr) as [[-> Hno]|(pre & i0 & r0 & post & -> & -> & Hsp & Hpre)].
      - left. split; [reflexivity|]. intros x [<-|Hx]; [exact Hne | exact (Hno x Hx)].
      - right. exists ((i, r) :: pre), i0, r0, post.
        repeat split; [exact Hsp|]. intros x [<-|Hx]; [exact Hne | exact (Hpre x Hx)]. }
    destruct (s' =? s)%Z eqn:E1.
    + apply Z.eqb_eq in E1. subst s'.
      destruct (timeslots t !! a_end_ts p) as [e'|] eqn:Ee; [|discriminate].
      destruct (e' =? e)%Z eqn:E2.
      * apply Z.eqb_eq in E2. subst e'. intros [= <-]. right.
        exists [], i, r, rest. repeat split; [|intros x []].
        unfold ref_span, aligned_span. rewrite Ep, Es, Ee. reflexivity.
      * apply Z.eqb_neq in E2.
        destruct (set_ref_loop t pt s e nv rest) as [rest'|] eqn:Er; [|discriminate].
        intros [= <-]. apply Hcont; [|reflexivity].
        unfold ref_span, aligned_span. rewrite Ep, Es, Ee. congruence.
    + apply Z.eqb_neq in E1.
      destruct (set_ref_loop t pt s e nv rest) as [rest'|] eqn:Er; [|discriminate].
      intros [= <-]. apply Hcont; [|reflexivity].
      unfold ref_span, aligned_span. rewrite Ep, Es.
      destruct (timeslots t !! a_end_ts p); congruence.
Qed.


(** ** The two setters *)

Lemma with_aligned_same td : with_aligned td (aligned td) = td.
Proof. destruct td; reflexivity. Qed.

Lemma with_reference_same td : with_reference td (reference td) = td.
Proof. destruct td; reflexivity. Qed.

Lemma with_value_same a : with_value a (a_value a) = a.
Proof. destruct a; reflexivity. Qed.

Lemma with_ref_value_same r : with_ref_value r (r_value r) = r.
Proof. destruct r; reflexivity. Qed.

Lemma with_tier_same t n td :
  assoc_get n (tiers t) = Some td -> with_tier t n td = t.
Proof.
  intros H. destruct t as [ts tr]. unfold with_tier. cbn in *.
  rewrite (assoc_set_same _ _ _ H). reflexivity.
Qed.

Lemma with_tier_with_tier t n td1 td2 :
  with_tier (with_tier t n td1) n td2 = with_tier t n td2.
Proof. unfold with_tier. cbn. rewrite assoc_set_set. reflexivity. Qed.

Lemma skeleton_with_tier t n td td' :
  assoc_get n (tiers t) = Some td ->
  skeleton_tier td' = skeleton_tier td ->
  skeleton (with_tier t n td') = skeleton t.
Proof.
  intros H E. unfold skeleton, with_tier. cbn. f_equal.
  rewrite (assoc_set_map skeleton_tier). rewrite E. apply assoc_set_same.
  rewrite (assoc_get_map skeleton_tier). rewrite H. reflexivity.
Qed.

Lemma skeleton_tier_aligned td pre i a nv post :
  aligned td = pre ++ (i, a) :: post ->
  skeleton_tier (with_aligned td (pre ++ (i, with_value a nv) :: post))
  = skeleton_tier td.
Proof.
  intros E. unfold skeleton_tier, with_aligned. cbn. rewrite E.
  rewrite !map_app. reflexivity.
Qed.

Lemma skeleton_tier_reference td pre i r nv post :
  reference td = pre ++ (i, r) :: post ->
  skeleton_tier (with_reference td (pre ++ (i, with_ref_value r nv) :: post))
  = skeleton_tier td.
Proof.
  intros E. unfold skeleton_tier, with_reference. cbn. rewrite E.
  rewrite !map_app. reflexivity.
Qed.

(** A call of [set_aligned_annotation] that returns either left the
    transcript as it was, no annotation having the span, or replaced one
    value. *)
Lemma set_aligned_annotation_spec t n s e nv t' :
  set_aligned_annotation t n s e nv = Some t' ->
  (t' = t /\ no_aligned_match t n s e) \/
  aligned_value_replaced t n s e nv t'.
Proof.
  unfold set_aligned_annotation.
  destruct (assoc_get n (tiers t)) as [td|] eqn:Et; [|discriminate].
  destruct (set_aligned_loop (timeslots t) s e nv (aligned td)) as [items|] eqn:El;
    [|discriminate].
  intros [= <-].
  destruct (set_aligned_loop_spec _ _ _ _ _ _ El)
    as [[-> Hno]|(pre & i & a & post & E & -> & Hsp & Hpre)].
  - left. split.
    + rewrite with_aligned_same. apply with_tier_same. exact Et.
    + intros td0 x Ht0 Hx. rewrite Et in Ht0. injection Ht0 as <-. auto.
  - right. exists td, pre, i, a, post. auto.
Qed.

Lemma set_ref_annotation_spec t n s e nv t' :
  set_ref_annotation t n s e nv = Some t' ->
  (t' = t /\ no_reference_match t n s e) \/
  reference_value_replaced t n s e nv t'.
Proof.
  unfold set_ref_annotation.
  destruct (assoc_get n (tiers t)) as [td|] eqn:Et; [|discriminate].
  destruct (attributes td !! "PARENT_REF"%string) as [pt|] eqn:Ep; [|discriminate].
  destruct (set_ref_loop t pt s e nv (reference td)) as [items|] eqn:El;
    [|discriminate].
  intros [= <-].
  destruct (set_ref_loop_spec _ _ _ _ _ _ _ El)
    as [[-> Hno]|(pre & i & r & post & E & -> & Hsp & Hpre)].
  - left. split.
    + rewrite with_reference_same. apply with_tier_same. exact Et.
    + intros td0 pt0 x Ht0 Hp0 Hx. rewrite Et in Ht0. injection Ht0 as <-.
      rewrite Ep in Hp0. injection Hp0 as <-. auto.
  - right. exists td, pt, pre, i, r, post. repeat split; auto.
Qed.

Lemma aligned_value_replaced_skeleton t n s e nv t' :
  aligned_value_replaced t n s e nv t' -> skeleton t' = skeleton t.
Proof.
  intros (td & pre & i & a & post & Et & E & _ & _ & ->).
  apply (skeleton_with_tier _ _ td); [exact Et|].
  apply skeleton_tier_aligned. exact E.
Qed.

Lemma reference_value_replaced_skeleton t n s e nv t' :
  reference_value_replaced t n s e nv t' -> skeleton t' = skeleton t.
Proof.
  intros (td & pt & pre & i & r & post & Et & _ & E & _ & _ & ->).
  apply (skeleton_with_tier _ _ td); [exact Et|].
  apply skeleton_tier_reference. exact E.
Qed.

Lemma set_aligned_annotation_skeleton t n s e nv t' :
  set_aligned_annotation t n s e nv = Some t' -> skeleton t' = skeleton t.
Proof.
  intros H. destruct (set_aligned_annotation_spec _ _ _ _ _ _ H) as [[-> _]|Hr];
    [reflexivity|]. exact (aligned_value_replaced_skeleton _ _ _ _ _ _ Hr).
Qed.

Lemma set_ref_annotation_skeleton t n s e nv t' :
  set_ref_annotation t n s e nv = Some t' -> skeleton t' = skeleton t.
Proof.
  intros H. destruct (set_ref_annotation_spec _ _ _ _ _ _ H) as [[-> _]|Hr];
    [reflexivity|]. exact (reference_value_replaced_skeleton _ _ _ _ _ _ Hr).
Qed.






(** ** Lists of results *)

Lemma all_some_app {A B : Type} (f : A -> option B) l1 l2 :
  all_some f (l1 ++ l2) =
  match all_some f l1 with
  | Some ys1 =>
      match all_some f l2 with
      | Some ys2 => Some (ys1 ++ ys2)
      | None => None
      end
  | None => None
  end.
Proof.
  induction l1 as [|x l1 IH]; cbn.
  - destruct (all_some f l2); reflexivity.
  - destruct (f x); [|reflexivity]. rewrite IH.
    destruct (all_some f l1); [|reflexivity].
    destruct (all_some f l2); reflexivity.
Qed.

Lemma all_some_ext {A B : Type} (f g : A -> option B) l :
  (forall x, In x l -> f x = g x) -> all_some f l = all_some g l.
Proof.
  induction l as [|x l IH]; intros H; cbn; [reflexivity|].
  rewrite (H x (or_introl eq_refl)), IH; [reflexivity|].
  intros y Hy. apply H. right. exact Hy.
Qed.

Lemma all_some_map {A B C : Type} (f : B -> option C) (g : A -> B) l :
  all_some f (map g l) = all_some (fun x => f (g x)) l.
Proof.
  induction l as [|x l IH]; cbn; [reflexivity|]. rewrite IH. reflexivity.
Qed.

Lemma all_some_proj {A B C : Type} (f : A -> option B) (g : A -> option C)
  (p : B -> C) l ys :
  (forall x y, f x = Some y -> g x = Some (p y)) ->
  all_some f l = Some ys -> all_some g l = Some (map p ys).
Proof.
  intros H. revert ys. induction l as [|x l IH]; intros ys; cbn.
  - intros [= <-]. reflexivity.
  - destruct (f x) as [y|] eqn:E; [|discriminate].
    destruct (all_some f l) as [ys'|]; [|discriminate].
    intros [= <-]. rewrite (H _ _ E), (IH _ eq_refl). reflexivity.
Qed.

Lemma all_some_In {A B : Type} (f : A -> option B) l ys x y :
  all_some f l = Some ys -> In x l -> f x = Some y -> In y ys.
Proof.
  revert ys. induction l as [|x0 l IH]; intros ys; cbn; [intros _ []|].
  destruct (f x0) as [y0|] eqn:E; [|discriminate].
  destruct (all_some f l) as [ys'|]; [|discriminate].
  intros [= <-] [->|Hx] Hy.
  - left. congruence.
  - right. exact (IH _ eq_refl Hx Hy).
Qed.

Lemma all_some_length {A B : Type} (f : A -> option B) l ys :
  all_some f l = Some ys -> length ys = length l.
Proof.
  revert ys. induction l as [|x l IH]; intros ys; cbn.
  - intros [= <-]. reflexivity.
  - destruct (f x); [|discriminate].
    destruct (all_some f l) as [ys'|]; [|discriminate].
    intros [= <-]. cbn. rewrite (IH _ eq_refl). reflexivity.
Qed.

(** When the results are pairwise distinct, the items before an item have
    results other than its own. *)
Lemma all_some_NoDup_pre {A B : Type} (f : A -> option B) pre x post ys y :
  all_some f (pre ++ x :: post) = Some ys -> NoDup ys -> f x = Some y ->
  Forall (fun z => exists y', f z = Some y' /\ y' <> y) pre.
Proof.
  revert ys. induction pre as [|z pre IH]; intros ys Hall Hnd Hx;
    [constructor|].
  cbn in Hall. destruct (f z) as [y0|] eqn:E; [|discriminate].
  destruct (all_some f (pre ++ x :: post)) as [ys'|] eqn:E'; [|discriminate].
  injection Hall as <-. apply NoDup_cons in Hnd as [Hnot Hnd].
  constructor.
  - exists y0. split; [exact E|]. intros ->. apply Hnot.
    apply list_elem_of_In. apply (all_some_In f _ _ x y E'); [|exact Hx].
    apply in_or_app. right. left. reflexivity.
  - exact (IH _ eq_refl Hnd Hx).
Qed.

(** ** The setters on tiers with pairwise distinct spans *)

Lemma set_aligned_loop_hit ts s e nv pre i a post :
  Forall (fun z => exists sp,
            (let '(_, a0) := z in aligned_span ts a0) = Some sp /\
            sp <> (s, e)) pre ->
  aligned_span ts a = Some (s, e) ->
  set_aligned_loop ts s e nv (pre ++ (i, a) :: post)
  = Some (pre ++ (i, with_value a nv) :: post).
Proof.
  intros Hpre Ha.
  induction Hpre as [|[i0 a0] pre (sp & Hsp & Hne) _ IH];
    cbn [app set_aligned_loop].
  - unfold aligned_span in Ha.
    destruct (ts !! a_start_ts a); [|discriminate].
    destruct (ts !! a_end_ts a); [|discriminate].
    injection Ha as -> ->. rewrite !Z.eqb_refl. reflexivity.
  - unfold aligned_span in Hsp.
    destruct (ts !! a_start_ts a0) as [s0|]; [|discriminate].
    destruct (ts !! a_end_ts a0) as [e0|]; [|discriminate].
    injection Hsp as <-. rewrite IH.
    destruct (Z.eqb_spec s0 s); [destruct (Z.eqb_spec e0 e)|];
      try reflexivity.
    subst. congruence.
Qed.

Lemma set_ref_loop_hit t pt s e nv pre i r post :
  Forall (fun z => exists sp,
            (let '(_, r0) := z in ref_span t pt r0) = Some sp /\
            sp <> (s, e)) pre ->
  ref_span t pt r = Some (s, e) ->
  set_ref_loop t pt s e nv (pre ++ (i, r) :: post)
  = Some (pre ++ (i, with_ref_value r nv) :: post).
Proof.
  intros Hpre Hr.
  induction Hpre as [|[i0 r0] pre (sp & Hsp & Hne) _ IH];
    cbn [app set_ref_loop].
  - unfold ref_span, aligned_span in Hr.
    destruct (parent_annotation t pt (r_parent r)) as [p|]; [|discriminate].
    destruct (timeslots t !! a_start_ts p); [|discriminate].
    destruct (timeslots t !! a_end_ts p); [|discriminate].
    injection Hr as -> ->. rewrite !Z.eqb_refl. reflexivity.
  - unfold ref_span, aligned_span in Hsp.
    destruct (parent_annotation t pt (r_parent r0)) as [p|]; [|discriminate].
    destruct (timeslots t !! a_start_ts p) as [s0|]; [|discriminate].
    destruct (timeslots t !! a_end_ts p) as [e0|]; [|discriminate].
    injection Hsp as <-. rewrite IH.
    destruct (Z.eqb_spec s0 s); [destruct (Z.eqb_spec e0 e)|];
      try reflexivity.
    subst. congruence.
Qed.

Lemma parent_annotation_with_reference t n td l pt id :
  assoc_get n (tiers t) = Some td ->
  parent_annotation (with_tier t n (with_reference td l)) pt id
  = parent_annotation t pt id.
Proof.
  intros Et. unfold parent_annotation. cbn [tiers with_tier].
  destruct (String.eqb_spec n pt) as [<-|Hne].
  - rewrite (assoc_get_set_eq _ _ td _ Et), Et. reflexivity.
  - rewrite (assoc_get_set_ne _ _ _ _ Hne). reflexivity.
Qed.

Lemma ref_span_with_reference t n td l pt r :
  assoc_get n (tiers t) = Some td ->
  ref_span (with_tier t n (with_reference td l)) pt r = ref_span t pt r.
Proof.
  intros Et. unfold ref_span.
  rewrite (parent_annotation_with_reference _ _ _ _ _ _ Et). reflexivity.
Qed.

(** ** The loop over one tier *)

(** On an aligned tier with pairwise distinct spans the inner loop, with
    or without the pre-check, ends with the redactor applied to the value
    of each annotation. *)
Lemma redact_tuples_aligned b n :
  forall todo tuples done t td spans,
    assoc_get n (tiers t) = Some td ->
    aligned td = done ++ todo ->
    all_some (fun '(_, a) => aligned_span (timeslots t) a) (done ++ todo)
    = Some spans ->
    NoDup spans ->
    all_some (fun '(_, a) =>
                match aligned_span (timeslots t) a with
                | Some (s, e) => Some (s, e, a_value a)
                | None => None
                end) todo = Some tuples ->
    redact_tuples b set_aligned_annotation n tuples t
    = Some (with_tier t n
              (with_aligned td
                 (done ++ map (fun '(i, a) =>
                                 (i, with_value a (anonymize_text (a_value a))))
                            todo))).
Proof.
  induction todo as [|[i a] rest IH];
    intros tuples done t td spans Et Ea Hs Hnd Htu.
  - cbn in Htu. injection Htu as <-. cbn [redact_tuples map].
    rewrite <- Ea, with_aligned_same, (with_tier_same _ _ _ Et). reflexivity.
  - cbn [all_some] in Htu.
    destruct (aligned_span (timeslots t) a) as [[s e]|] eqn:Esp; [|discriminate].
    destruct (all_some _ rest) as [tuples'|] eqn:Er; [|discriminate].
    injection Htu as <-.
    set (nv := anonymize_text (a_value a)).
    set (t1 := with_tier t n
                 (with_aligned td (done ++ (i, with_value a nv) :: rest))).
    assert (Hset : set_aligned_annotation t n s e nv = Some t1).
    { unfold set_aligned_annotation. rewrite Et, Ea.
      rewrite (set_aligned_loop_hit (timeslots t) s e nv done i a rest);
        [reflexivity| |exact Esp].
      exact (all_some_NoDup_pre _ _ _ _ _ _ Hs Hnd Esp). }
    assert (Hstep :
      redact_tuples b set_aligned_annotation n ((s, e, a_value a) :: tuples') t
      = redact_tuples b set_aligned_annotation n tuples' t1).
    { cbn [redact_tuples].
      destruct (negb b || search anonymous_text_re (a_value a)) eqn:Eb.
      - fold nv. rewrite Hset. reflexivity.
      - apply orb_false_elim in Eb as [_ Hno]. f_equal. symmetry.
        unfold t1, nv. rewrite (precheck_sound _ Hno), with_value_same.
        rewrite <- Ea, with_aligned_same. exact (with_tier_same _ _ _ Et). }
    rewrite Hstep.
    rewrite (IH tuples' (done ++ [(i, with_value a nv)]) t1
               (with_aligned td (done ++ (i, with_value a nv) :: rest)) spans).
    + unfold t1. rewrite with_tier_with_tier. cbn [map].
      rewrite <- app_assoc. reflexivity.
    + unfold t1. cbn [tiers with_tier]. exact (assoc_get_set_eq _ _ td _ Et).
    + cbn [aligned with_aligned]. rewrite <- app_assoc. reflexivity.
    + unfold t1. cbn [timeslots with_tier]. rewrite <- app_assoc. cbn [app].
      rewrite <- Hs. rewrite !all_some_app. reflexivity.
    + exact Hnd.
    + exact Er.
Qed.

Lemma redact_tuples_reference b n pt :
  forall todo l done t td spans,
    assoc_get n (tiers t) = Some td ->
    attributes td !! "PARENT_REF"%string = Some pt ->
    reference td = done ++ todo ->
    all_some (fun '(_, r) => ref_span t pt r) (done ++ todo) = Some spans ->
    NoDup spans ->
    all_some (fun '(_, r) =>
                match parent_annotation t pt (r_parent r) with
                | None => None
                | Some p =>
                    match aligned_span (timeslots t) p with
                    | Some (s, e) => Some (s, e, r_value r, a_value p)
                    | None => None
                    end
                end) todo = Some l ->
    redact_tuples b set_ref_annotation n
      (map (fun '(s, e, v, _) => (s, e, v)) l) t
    = Some (with_tier t n
              (with_reference td
                 (done ++ map (fun '(i, r) =>
                                 (i, with_ref_value r (anonymize_text (r_value r))))
                            todo))).
Proof.
  induction todo as [|[i r] rest IH];
    intros l done t td spans Et Ep Ea Hs Hnd Htu.
  - cbn in Htu. injection Htu as <-. cbn [redact_tuples map].
    rewrite <- Ea, with_reference_same, (with_tier_same _ _ _ Et). reflexivity.
  - cbn [all_some] in Htu.
    destruct (parent_annotation t pt (r_parent r)) as [p|] eqn:Epa; [|discriminate].
    destruct (aligned_span (timeslots t) p) as [[s e]|] eqn:Esp; [|discriminate].
    destruct (all_some _ rest) as [l'|] eqn:Er; [|discriminate].
    injection Htu as <-.
    assert (Hsp : ref_span t pt r = Some (s, e)).
    { unfold ref_span. rewrite Epa. exact Esp. }
    set (nv := anonymize_text (r_value r)).
    set (td1 := with_reference td (done ++ (i, with_ref_value r nv) :: rest)).
    set (t1 := with_tier t n td1).
    assert (Hset : set_ref_annotation t n s e nv = Some t1).
    { unfold set_ref_annotation. rewrite Et, Ep, Ea.
      rewrite (set_ref_loop_hit t pt s e nv done i r rest);
        [reflexivity| |exact Hsp].
      exact (all_some_NoDup_pre _ _ _ _ _ _ Hs Hnd Hsp). }
    assert (Hstep :
      redact_tuples b set_ref_annotation n
        (map (fun '(s, e, v, _) => (s, e, v)) ((s, e, r_value r, a_value p) :: l')) t
      = redact_tuples b set_ref_annotation n
          (map (fun '(s, e, v, _) => (s, e, v)) l') t1).
    { cbn [map redact_tuples].
      destruct (negb b || search anonymous_text_re (r_value r)) eqn:Eb.
      - fold nv. rewrite Hset. reflexivity.
      - apply orb_false_elim in Eb as [_ Hno]. f_equal. symmetry.
        unfold t1, td1, nv. rewrite (precheck_sound _ Hno), with_ref_value_same.
        rewrite <- Ea, with_reference_same. exact (with_tier_same _ _ _ Et). }
    rewrite Hstep.
    rewrite (IH l' (done ++ [(i, with_ref_value r nv)]) t1 td1 spans).
    + unfold t1. rewrite with_tier_with_tier. cbn [map].
      rewrite <- app_assoc. reflexivity.
    + unfold t1. cbn [tiers with_tier]. exact (assoc_get_set_eq _ _ td _ Et).
    + exact Ep.
    + unfold td1. cbn [reference with_reference]. rewrite <- app_assoc.
      reflexivity.
    + rewrite <- app_assoc. cbn [app]. rewrite <- Hs.
      rewrite (all_some_ext _ (fun '(_, r0) => ref_span t pt r0)).
      * rewrite !all_some_app. reflexivity.
      * intros [i0 r0] _. exact (ref_span_with_reference _ _ _ _ _ _ Et).
    + exact Hnd.
    + rewrite <- Er. apply all_some_ext. intros [i0 r0] _.
      unfold t1, td1. rewrite (parent_annotation_with_reference _ _ _ _ _ _ Et).
      reflexivity.
Qed.

(** ** The accessor when the parents are aligned annotations *)

Lemma parent_aligned_direct fuel t pt id p :
  parent_annotation t pt id = Some p ->
  parent_aligned_annotation (S fuel) t pt id = Some p.
Proof.
  unfold parent_annotation. cbn [parent_aligned_annotation].
  destruct (assoc_get pt (tiers t)) as [ptd|]; [|discriminate].
  intros ->. reflexivity.
Qed.

Lemma assoc_get_length {V : Type} k (d : list (string * V)) v :
  assoc_get k d = Some v -> exists m, length d = S m.
Proof. destruct d; [discriminate | cbn; eauto]. Qed.

Lemma get_annotation_data_direct t n :
  parents_aligned t ->
  get_annotation_data_for_tier t n = direct_annotation_data t n.
Proof.
  intros Hp. unfold get_annotation_data_for_tier, direct_annotation_data.
  destruct (assoc_get n (tiers t)) as [td|] eqn:Et; [|reflexivity].
  destruct (assoc_get_length _ _ _ Et) as [m Em]. rewrite Em.
  pose proof (Hp n td Et) as Hn.
  destruct (reference td) as [|x l]; [reflexivity|].
  destruct Hn as (pt & -> & Hall); [discriminate|].
  f_equal. apply all_some_ext. intros [i r] Hin.
  rewrite List.Forall_forall in Hall.
  destruct (Hall (i, r) Hin) as [p Epa]. cbn [snd] in Epa.
  rewrite (parent_aligned_direct m _ _ _ _ Epa), Epa. reflexivity.
Qed.




(** The body of the loop over the tiers, in closed form. *)
Lemma redact_tier_closed b t n :
  spans_distinct t -> parents_aligned t ->
  redact_tier b t n =
  match get_annotation_data_for_tier t n with
  | Some _ =>
      option_map (fun td => with_tier t n (redacted_tier td))
        (assoc_get n (tiers t))
  | None => None
  end.
Proof.
  intros Hd Hp. unfold redact_tier.
  rewrite (get_annotation_data_direct t n Hp).
  destruct (direct_annotation_data t n) as [d|] eqn:Eg; [|reflexivity].
  unfold direct_annotation_data in Eg.
  pose proof (Hd n) as Hn. unfold tier_spans in Hn.
  destruct (assoc_get n (tiers t)) as [td|] eqn:Et; [|discriminate].
  cbn [option_map]. unfold redacted_tier.
  destruct (reference td) as [|x l0] eqn:Erf.
  - destruct (all_some _ (aligned td)) as [l|] eqn:El in Eg; [|discriminate].
    cbn in Eg. injection Eg as <-. cbn [set_annotation_for tuples_of].
    assert (Hsp : all_some (fun '(_, a) => aligned_span (timeslots t) a)
                    (aligned td)
                  = Some (map (fun '(s, e, _) => (s, e)) l)).
    { refine (all_some_proj _ _ _ _ _ _ El).
      intros [i a] [[s e] v]. cbv beta iota.
      destruct (aligned_span (timeslots t) a) as [[s' e']|]; [|discriminate].
      intros [= -> -> _]. reflexivity. }
    apply (redact_tuples_aligned b n (aligned td) l [] t td
             (map (fun '(s, e, _) => (s, e)) l)); auto.
  - destruct (attributes td !! "PARENT_REF"%string) as [pt|] eqn:Ep; [|discriminate].
    destruct (all_some _ (x :: l0)) as [l|] eqn:El in Eg; [|discriminate].
    cbn in Eg. injection Eg as <-.
    assert (Hsp : all_some (fun '(_, r) => ref_span t pt r) (x :: l0)
                  = Some (map (fun '(s, e, _, _) => (s, e)) l)).
    { refine (all_some_proj _ _ _ _ _ _ El).
      intros [i r] [[[s e] v] pv]. cbv beta iota. unfold ref_span.
      destruct (parent_annotation t pt (r_parent r)) as [p|]; [|discriminate].
      destruct (aligned_span (timeslots t) p) as [[s' e']|]; [|discriminate].
      intros [= -> -> _ _]. reflexivity. }
    destruct l as [|y l].
    { apply all_some_length in El. discriminate. }
    cbn [set_annotation_for tuples_of].
    apply (redact_tuples_reference b n pt (x :: l0) (y :: l) [] t td
             (map (fun '(s, e, _, _) => (s, e)) (y :: l))); auto.
Qed.

(** ** The traversal keeps the skeleton *)

Lemma redact_tuples_skeleton b
  (set_annotation : Eaf -> string -> Z -> Z -> list ascii -> option Eaf) n :
  (forall t s e nv t',
     set_annotation t n s e nv = Some t' -> skeleton t' = skeleton t) ->
  forall tuples t t',
    redact_tuples b set_annotation n tuples t = Some t' ->
    skeleton t' = skeleton t.
Proof.
  intros Hset. induction tuples as [|[[s e] v] rest IH]; intros t t'.
  - cbn. intros [= <-]. reflexivity.
  - cbn [redact_tuples].
    destruct (negb b || search anonymous_text_re v); [|apply IH].
    destruct (set_annotation t n s e (anonymize_text v)) as [t1|] eqn:E;
      [|discriminate].
    intros H. rewrite (IH _ _ H). exact (Hset _ _ _ _ _ E).
Qed.

Lemma redact_tier_skeleton b t n t' :
  redact_tier b t n = Some t' -> skeleton t' = skeleton t.
Proof.
  unfold redact_tier.
  destruct (get_annotation_data_for_tier t n) as [d|]; [|discriminate].
  apply redact_tuples_skeleton. intros t0 s e nv t0'.
  destruct d as [l|[|x l]]; cbn [set_annotation_for].
  - apply set_aligned_annotation_skeleton.
  - apply set_aligned_annotation_skeleton.
  - apply set_ref_annotation_skeleton.
Qed.

Lemma redact_tiers_skeleton b names :
  forall t t', redact_tiers b names t = Some t' -> skeleton t' = skeleton t.
Proof.
  induction names as [|n names IH]; intros t t'; cbn.
  - intros [= <-]. reflexivity.
  - destruct (redact_tier b t n) as [t1|] eqn:E; [|discriminate].
    intros H. rewrite (IH _ _ H). exact (redact_tier_skeleton _ _ _ _ E).
Qed.

Lemma parent_annotation_skeleton t pt id :
  parent_annotation (skeleton t) pt id
  = option_map (fun a => with_value a []) (parent_annotation t pt id).
Proof.
  unfold parent_annotation, skeleton. cbn [tiers].
  rewrite (assoc_get_map skeleton_tier).
  destruct (assoc_get pt (tiers t)) as [ptd|]; [|reflexivity].
  cbn [option_map skeleton_tier aligned].
  apply (assoc_get_map (fun a => with_value a [])).
Qed.

Lemma ref_span_skeleton t pt r :
  ref_span (skeleton t) pt (with_ref_value r []) = ref_span t pt r.
Proof.
  unfold ref_span. cbn [r_parent with_ref_value].
  rewrite parent_annotation_skeleton.
  destruct (parent_annotation t pt (r_parent r)); reflexivity.
Qed.

(** The effective spans depend on the skeleton only. *)
Lemma tier_spans_skeleton t n : tier_spans (skeleton t) n = tier_spans t n.
Proof.
  unfold tier_spans. cbn [tiers skeleton timeslots].
  rewrite (assoc_get_map skeleton_tier).
  destruct (assoc_get n (tiers t)) as [td|]; [|reflexivity].
  cbn [option_map reference skeleton_tier attributes aligned].
  destruct (reference td) as [|[i0 r0] l].
  - cbn [map]. rewrite all_some_map. apply all_some_ext.
    intros [i a] _. reflexivity.
  - destruct (attributes td !! "PARENT_REF"%string) as [pt|]; [|reflexivity].
    cbn [map all_some]. rewrite ref_span_skeleton.
    destruct (ref_span t pt r0); [|reflexivity].
    rewrite all_some_map.
    rewrite (all_some_ext _ (fun '(_, r) => ref_span t pt r)); [reflexivity|].
    intros [i r] _. apply ref_span_skeleton.
Qed.

Lemma spans_distinct_skeleton t t' :
  skeleton t' = skeleton t -> spans_distinct t -> spans_distinct t'.
Proof.
  intros E Hd n spans H. apply (Hd n).
  rewrite <- tier_spans_skeleton, <- E, tier_spans_skeleton. exact H.
Qed.

(** ** The pre-check *)

Lemma assoc_get_skeleton_inv t t' n td' :
  skeleton t' = skeleton t -> assoc_get n (tiers t') = Some td' ->
  exists td, assoc_get n (tiers t) = Some td /\
             skeleton_tier td = skeleton_tier td'.
Proof.
  intros E Et'.
  assert (H : assoc_get n (tiers (skeleton t)) = Some (skeleton_tier td')).
  { rewrite <- E. unfold skeleton. cbn [tiers].
    rewrite (assoc_get_map skeleton_tier), Et'. reflexivity. }
  unfold skeleton in H. cbn [tiers] in H.
  rewrite (assoc_get_map skeleton_tier) in H.
  destruct (assoc_get n (tiers t)) as [td|]; [|discriminate].
  exists td. split; [reflexivity|]. cbn [option_map] in H.
  exact (f_equal (fun o => match o with
                           | Some x => x
                           | None => skeleton_tier td
                           end) H).
Qed.

Lemma parent_annotation_is_Some_skeleton t t' pt id :
  skeleton t' = skeleton t ->
  is_Some (parent_annotation t pt id) -> is_Some (parent_annotation t' pt id).
Proof.
  intros E [p Hp].
  pose proof (parent_annotation_skeleton t' pt id) as H'.
  rewrite E, parent_annotation_skeleton, Hp in H'.
  destruct (parent_annotation t' pt id); [eauto | discriminate].
Qed.

Lemma parents_aligned_skeleton t t' :
  skeleton t' = skeleton t -> parents_aligned t -> parents_aligned t'.
Proof.
  intros E Hp n td' Et' Href.
  destruct (assoc_get_skeleton_inv _ _ _ _ E Et') as (td & Et & Etd).
  assert (Er : map (fun '(i, r) => (i, with_ref_value r [])) (reference td)
               = map (fun '(i, r) => (i, with_ref_value r [])) (reference td'))
    by exact (f_equal reference Etd).
  assert (Ea : attributes td = attributes td')
    by exact (f_equal attributes Etd).
  destruct (Hp n td Et) as (pt & Ept & Hall).
  { intros H0. rewrite H0 in Er. destruct (reference td'); [congruence|].
    discriminate. }
  exists pt. split; [rewrite <- Ea; exact Ept|].
  rewrite List.Forall_forall in Hall |- *. intros [i r'] Hin.
  assert (Hin' : In (i, with_ref_value r' [])
                   (map (fun '(i, r) => (i, with_ref_value r [])) (reference td))).
  { rewrite Er. apply (in_map (fun '(i, r) => (i, with_ref_value r [])) _ _ Hin). }
  apply in_map_iff in Hin' as ([i0 r] & Heq & Hin0).
  assert (Hpar : r_parent r = r_parent r')
    by exact (f_equal (fun x => r_parent (snd x)) Heq).
  pose proof (Hall _ Hin0) as H. cbn [snd] in H |- *.
  rewrite <- Hpar.
  exact (parent_annotation_is_Some_skeleton _ _ _ _ E H).
Qed.

Lemma redact_tier_precheck t n :
  spans_distinct t -> parents_aligned t ->
  redact_tier true t n = redact_tier false t n.
Proof.
  intros Hd Hp. rewrite !(redact_tier_closed _ _ _ Hd Hp). reflexivity.
Qed.

Lemma redact_tiers_precheck names :
  forall t, spans_distinct t -> parents_aligned t ->
            redact_tiers true names t = redact_tiers false names t.
Proof.
  induction names as [|n names IH]; intros t Hd Hp; cbn [redact_tiers];
    [reflexivity|].
  rewrite <- (redact_tier_precheck _ _ Hd Hp).
  destruct (redact_tier true t n) as [t1|] eqn:E; [|reflexivity].
  pose proof (redact_tier_skeleton _ _ _ _ E) as Hs.
  apply IH.
  - exact (spans_distinct_skeleton t _ Hs Hd).
  - exact (parents_aligned_skeleton t _ Hs Hp).
Qed.

(** ** The sample transcripts *)

Lemma NoDup_two {A : Type} (x y : A) : x <> y -> NoDup [x; y].
Proof.
  intros Hne. apply NoDup_cons. split.
  - rewrite list_elem_of_In. intros [H|[]]. congruence.
  - apply NoDup_cons. split; [|apply NoDup_nil; exact I].
    rewrite list_elem_of_In. intros [].
Qed.

Lemma sample_store_spans_distinct : spans_distinct sample_store.
Proof.
  intros n spans. unfold tier_spans. cbn [tiers sample_store assoc_get].
  destruct (String.eqb n "Text");
    [|destruct (String.eqb n "Gloss"); [|discriminate]];
    vm_compute; intros [= <-]; apply NoDup_two; discriminate.
Qed.






Lemma sample_store_parents_aligned : parents_aligned sample_store.
Proof.
  intros n td Et Href. cbn [tiers sample_store assoc_get] in Et.
  destruct (String.eqb n "Text").
  { injection Et as <-. exfalso. apply Href. reflexivity. }
  destruct (String.eqb n "Gloss"); [|discriminate].
  injection Et as <-. exists "Text"%string. split; [reflexivity|].
  repeat constructor; eexists; reflexivity.
Qed.

(** C10 (as amended).  The pre-check is sound: a text in which
    [anonymous_text_re] finds nothing is returned unchanged by the
    redactor.  Consequently, on a transcript in which no two annotations
    of a tier have the same effective span and the parent of every
    reference annotation is an aligned annotation of the declared parent
    tier, the traversal that calls the redactor only where the pre-check
    matches ends in the same state, or raises in the same cases, as the
    traversal that applies the redactor to every annotation value. *)
Theorem C10_precheck_sound_and_traversal_equivalent :
  (forall s : list ascii,
     search anonymous_text_re s = false -> anonymize_text s = s) /\
  (forall t : Eaf,
     spans_distinct t -> parents_aligned t ->
     redact t = redact_unconditionally t).
Proof.
  split.
  - exact precheck_sound.
  - intros t Hd Hp. unfold redact, redact_unconditionally.
    apply redact_tiers_precheck; assumption.
Qed.

Lemma C10_witness :
  redact sample_store = redact_unconditionally sample_store /\
  reference_values "Gloss" (store_after sample_store (redact sample_store))
  = Some [str "(NAME) ging"; str "heim"].
Proof.
  split; [|vm_compute; reflexivity].
  apply (proj2 C10_precheck_sound_and_traversal_equivalent sample_store).
  - exact sample_store_spans_distinct.
  - exact sample_store_parents_aligned.
Defined.

(** C10 fails as stated.  On the tier [Words] of the first transcript the
    two annotations are under the same parent and so have the same span;
    the setter changes the first annotation with the span.  The traversal
    with the pre-check leaves [(NAME)] and [went]; applying the redactor to
    every value writes [went] over [(NAME)].  In the second transcript the
    annotations of the tier [Notes] are under reference annotations of the
    tier [Gloss]; the accessor resolves their spans through [Gloss], the
    traversal with the pre-check finds no markup on [Notes] and returns,
    and the traversal that sets every value raises in
    [set_ref_annotation], which looks for the parents among the aligned
    annotations of [Gloss]. *)
Lemma C10_counterexample :
  (words_after (redact subdivided_store)
   = Some [str "(NAME)"; str "went"] /\
   words_after (redact_unconditionally subdivided_store)
   = Some [str "went"; str "went"] /\
   redact subdivided_store <> redact_unconditionally subdivided_store) /\
  (option_map tuples_of (get_annotation_data_for_tier nested_store "Notes")
   = Some [(0, 1000, str "proper noun"); (1000, 2500, str "adverb")]%Z /\
   aligned_values "Text" (store_after nested_store (redact nested_store))
   = Some [str "(NAME) went"; str "home"] /\
   is_Some (redact nested_store) /\
   redact_unconditionally nested_store = None).
Proof.
  assert (H1 : words_after (redact subdivided_store)
               = Some [str "(NAME)"; str "went"]) by (vm_compute; reflexivity).
  assert (H2 : words_after (redact_unconditionally subdivided_store)
               = Some [str "went"; str "went"]) by (vm_compute; reflexivity).
  split.
  - split; [exact H1|]. split; [exact H2|].
    intros E. rewrite E, H2 in H1. discriminate.
  - split; [vm_compute; reflexivity|]. split; [vm_compute; reflexivity|].
    split; [|vm_compute; reflexivity].
    destruct (redact nested_store) as [t|] eqn:E; [eauto|].
    vm_compute in E. discriminate.
Qed.

(** ** Looking up what was set *)

Lemma value_at_skip ts s e pre l :
  (forall x, In x pre -> aligned_span ts (snd x) <> Some (s, e)) ->
  value_at ts s e (pre ++ l) = value_at ts s e l.
Proof.
  induction pre as [|[i a] pre IH]; intros H; [reflexivity|].
  cbn [app value_at].
  assert (Ha := H (i, a) (or_introl eq_refl)). cbn [snd] in Ha.
  assert (IH' := IH (fun x Hx => H x (or_intror Hx))).
  destruct (aligned_span ts a) as [[s' e']|]; [|exact IH'].
  destruct (Z.eqb_spec s' s); [destruct (Z.eqb_spec e' e)|]; cbn [andb];
    try exact IH'.
  subst. congruence.
Qed.

Lemma value_at_here ts s e i a l :
  aligned_span ts a = Some (s, e) ->
  value_at ts s e ((i, a) :: l) = Some (a_value a).
Proof.
  intros H. cbn [value_at]. rewrite H, !Z.eqb_refl. reflexivity.
Qed.

Lemma ref_value_at_skip t pt s e pre l :
  (forall x, In x pre -> ref_span t pt (snd x) <> Some (s, e)) ->
  ref_value_at t pt s e (pre ++ l) = ref_value_at t pt s e l.
Proof.
  induction pre as [|[i r] pre IH]; intros H; [reflexivity|].
  cbn [app ref_value_at].
  assert (Hr := H (i, r) (or_introl eq_refl)). cbn [snd] in Hr.
  assert (IH' := IH (fun x Hx => H x (or_intror Hx))).
  destruct (ref_span t pt r) as [[s' e']|]; [|exact IH'].
  destruct (Z.eqb_spec s' s); [destruct (Z.eqb_spec e' e)|]; cbn [andb];
    try exact IH'.
  subst. congruence.
Qed.

Lemma ref_value_at_here t pt s e i r l :
  ref_span t pt r = Some (s, e) ->
  ref_value_at t pt s e ((i, r) :: l) = Some (r_value r).
Proof.
  intros H. cbn [ref_value_at]. rewrite H, !Z.eqb_refl. reflexivity.
Qed.

Lemma ref_value_at_ext t t' pt s e l :
  (forall r, ref_span t' pt r = ref_span t pt r) ->
  ref_value_at t' pt s e l = ref_value_at t pt s e l.
Proof.
  intros H. induction l as [|[i r] l IH]; [reflexivity|].
  cbn [ref_value_at]. rewrite H, IH. reflexivity.
Qed.

(** X1.  Set, then look up.  After a call of [set_aligned_annotation] or
    [set_ref_annotation] that returns, the look-up by the same span on the
    same tier gives the new value whenever it gave a value before the
    call, and gives nothing when it gave nothing before. *)
Theorem lookup_by_span_after_set
  (t t' : Eaf) (tier_name : string) (start_ms end_ms : Z)
  (new_value : list ascii) :
  (set_aligned_annotation t tier_name start_ms end_ms new_value = Some t' ->
   aligned_value_of t' tier_name start_ms end_ms
   = match aligned_value_of t tier_name start_ms end_ms with
     | Some _ => Some new_value
     | None => None
     end) /\
  (set_ref_annotation t tier_name start_ms end_ms new_value = Some t' ->
   reference_value_of t' tier_name start_ms end_ms
   = match reference_value_of t tier_name start_ms end_ms with
     | Some _ => Some new_value
     | None => None
     end).
Proof.
  split; intros H.
  - destruct (set_aligned_annotation_spec _ _ _ _ _ _ H)
      as [[-> Hno]|(td & pre & i & a & post & Et & E & Hsp & Hpre & ->)].
    + destruct (aligned_value_of t tier_name start_ms end_ms) eqn:Ev;
        [|reflexivity].
      exfalso. unfold aligned_value_of in Ev.
      destruct (assoc_get tier_name (tiers t)) as [td|] eqn:Et; [|discriminate].
      rewrite <- (app_nil_r (aligned td)) in Ev.
      rewrite value_at_skip in Ev; [discriminate|].
      intros x Hx. exact (Hno td x Et Hx).
    + unfold aligned_value_of. cbn [tiers timeslots with_tier].
      rewrite (assoc_get_set_eq _ _ td _ Et), Et. cbn [aligned with_aligned].
      rewrite E, !(value_at_skip _ _ _ _ _ Hpre).
      rewrite !value_at_here by exact Hsp. reflexivity.
  - destruct (set_ref_annotation_spec _ _ _ _ _ _ H)
      as [[-> Hno]|(td & pt & pre & i & r & post & Et & Ep & E & Hsp & Hpre & ->)].
    + destruct (reference_value_of t tier_name start_ms end_ms) eqn:Ev;
        [|reflexivity].
      exfalso. unfold reference_value_of in Ev.
      destruct (assoc_get tier_name (tiers t)) as [td|] eqn:Et; [|discriminate].
      destruct (attributes td !! "PARENT_REF"%string) as [pt|] eqn:Ep;
        [|discriminate].
      rewrite <- (app_nil_r (reference td)) in Ev.
      rewrite ref_value_at_skip in Ev; [discriminate|].
      intros x Hx. exact (Hno td pt x Et Ep Hx).
    + unfold reference_value_of. cbn [tiers with_tier].
      rewrite (assoc_get_set_eq _ _ td _ Et), Et.
      cbn [attributes reference with_reference]. rewrite Ep.
      rewrite (ref_value_at_ext t); [|intros r0; exact (ref_span_with_reference _ _ _ _ _ _ Et)].
      rewrite E, !(ref_value_at_skip _ _ _ _ _ _ Hpre).
      rewrite !ref_value_at_here by exact Hsp. reflexivity.
Qed.

Lemma lookup_by_span_after_set_witness :
  aligned_value_of
    (store_after sample_store
       (set_aligned_annotation sample_store "Text" 1000 2500 (str "x")))
    "Text" 1000 2500 = Some (str "x").
Proof.
  refine (proj1 (lookup_by_span_after_set sample_store _ "Text" 1000 2500
                   (str "x")) _).
  vm_compute. reflexivity.
Defined.

(** ** Setting twice *)

Lemma set_aligned_loop_again ts s e v1 v2 items items1 :
  set_aligned_loop ts s e v1 items = Some items1 ->
  set_aligned_loop ts s e v2 items1 = set_aligned_loop ts s e v2 items.
Proof.
  revert items1. induction items as [|[i a] rest IH]; intros items1.
  - cbn. intros [= <-]. reflexivity.
  - cbn [set_aligned_loop].
    destruct (ts !! a_start_ts a) as [s'|] eqn:Es; [|discriminate].
    destruct (s' =? s)%Z eqn:E1.
    + destruct (ts !! a_end_ts a) as [e'|] eqn:Ee; [|discriminate].
      destruct (e' =? e)%Z eqn:E2.
      * intros [= <-]. cbn [set_aligned_loop a_start_ts a_end_ts with_value].
        rewrite Es, E1, Ee, E2. reflexivity.
      * destruct (set_aligned_loop ts s e v1 rest) as [rest1|]; [|discriminate].
        intros [= <-]. cbn [set_aligned_loop]. rewrite Es, E1, Ee, E2.
        rewrite (IH _ eq_refl). reflexivity.
    + destruct (set_aligned_loop ts s e v1 rest) as [rest1|]; [|discriminate].
      intros [= <-]. cbn [set_aligned_loop]. rewrite Es, E1.
      rewrite (IH _ eq_refl). reflexivity.
Qed.

Lemma set_ref_loop_again t pt s e v1 v2 items items1 :
  set_ref_loop t pt s e v1 items = Some items1 ->
  set_ref_loop t pt s e v2 items1 = set_ref_loop t pt s e v2 items.
Proof.
  revert items1. induction items as [|[i r] rest IH]; intros items1.
  - cbn. intros [= <-]. reflexivity.
  - cbn [set_ref_loop].
    destruct (parent_annotation t pt (r_parent r)) as [p|] eqn:Ep; [|discriminate].
    destruct (timeslots t !! a_start_ts p) as [s'|] eqn:Es; [|discriminate].
    destruct (s' =? s)%Z eqn:E1.
    + destruct (timeslots t !! a_end_ts p) as [e'|] eqn:Ee; [|discriminate].
      destruct (e' =? e)%Z eqn:E2.
      * intros [= <-]. cbn [set_ref_loop r_parent with_ref_value].
        rewrite Ep, Es, E1, Ee, E2. reflexivity.
      * destruct (set_ref_loop t pt s e v1 rest) as [rest1|]; [|discriminate].
        intros [= <-]. cbn [set_ref_loop]. rewrite Ep, Es, E1, Ee, E2.
        rewrite (IH _ eq_refl). reflexivity.
    + destruct (set_ref_loop t pt s e v1 rest) as [rest1|]; [|discriminate].
      intros [= <-]. cbn [set_ref_loop]. rewrite Ep, Es, E1.
      rewrite (IH _ eq_refl). reflexivity.
Qed.

Lemma set_ref_loop_ext t t' pt s e nv items :
  timeslots t' = timeslots t ->
  (forall id, parent_annotation t' pt id = parent_annotation t pt id) ->
  set_ref_loop t' pt s e nv items = set_ref_loop t pt s e nv items.
Proof.
  intros Hts Hp. induction items as [|[i r] rest IH]; [reflexivity|].
  cbn [set_ref_loop]. rewrite Hp, Hts, IH. reflexivity.
Qed.

(** X2.  The last write wins.  When a call of a setter has returned, a
    second call for the same tier and span behaves as if it had been the
    only one: it ends in the state that it would have produced from the
    transcript before the first call. *)
Theorem second_set_overwrites_first
  (t t1 : Eaf) (tier_name : string) (start_ms end_ms : Z)
  (first second : list ascii) :
  (set_aligned_annotation t tier_name start_ms end_ms first = Some t1 ->
   set_aligned_annotation t1 tier_name start_ms end_ms second
   = set_aligned_annotation t tier_name start_ms end_ms second) /\
  (set_ref_annotation t tier_name start_ms end_ms first = Some t1 ->
   set_ref_annotation t1 tier_name start_ms end_ms second
   = set_ref_annotation t tier_name start_ms end_ms second).
Proof.
  split.
  - unfold set_aligned_annotation.
    destruct (assoc_get tier_name (tiers t)) as [td|] eqn:Et; [|discriminate].
    destruct (set_aligned_loop (timeslots t) start_ms end_ms first (aligned td))
      as [items1|] eqn:E1; [|discriminate].
    intros [= <-]. cbn [tiers timeslots with_tier].
    rewrite (assoc_get_set_eq _ _ td _ Et). cbn [aligned with_aligned].
    rewrite (set_aligned_loop_again _ _ _ _ _ _ _ E1).
    destruct (set_aligned_loop (timeslots t) start_ms end_ms second (aligned td))
      as [items2|]; [|reflexivity].
    rewrite with_tier_with_tier. reflexivity.
  - unfold set_ref_annotation.
    destruct (assoc_get tier_name (tiers t)) as [td|] eqn:Et; [|discriminate].
    destruct (attributes td !! "PARENT_REF"%string) as [pt|] eqn:Ep;
      [|discriminate].
    destruct (set_ref_loop t pt start_ms end_ms first (reference td))
      as [items1|] eqn:E1; [|discriminate].
    intros [= <-]. cbn [tiers with_tier].
    rewrite (assoc_get_set_eq _ _ td _ Et).
    cbn [attributes reference with_reference]. rewrite Ep.
    rewrite (set_ref_loop_ext t);
      [|reflexivity
       |intros id; exact (parent_annotation_with_reference _ _ _ _ _ _ Et)].
    rewrite (set_ref_loop_again _ _ _ _ _ _ _ _ E1).
    destruct (set_ref_loop t pt start_ms end_ms second (reference td))
      as [items2|]; [|reflexivity].
    rewrite with_tier_with_tier. reflexivity.
Qed.

Lemma second_set_overwrites_first_witness :
  set_ref_annotation
    (store_after sample_store
       (set_ref_annotation sample_store "Gloss" 0 1000 (str "x")))
    "Gloss" 0 1000 (str "y")
  = set_ref_annotation sample_store "Gloss" 0 1000 (str "y").
Proof.
  refine (proj2 (second_set_overwrites_first sample_store _ "Gloss" 0 1000
                   (str "x") (str "y")) _).
  vm_compute. reflexivity.
Defined.

(** ** Annotations that share a span *)

Lemma nth_error_replace_other {A : Type} (pre post : list A) (x0 x0' : A) k :
  k <> length pre ->
  nth_error (pre ++ x0' :: post) k = nth_error (pre ++ x0 :: post) k.
Proof.
  intros Hk. destruct (Nat.lt_ge_cases k (length pre)) as [Hlt|Hge].
  - rewrite !nth_error_app1 by exact Hlt. reflexivity.
  - rewrite !nth_error_app2 by exact Hge.
    destruct (k - length pre) as [|m] eqn:Em; [lia|]. reflexivity.
Qed.

Lemma shadowed_item_kept {A : Type} (P : A -> Prop) (pre post : list A)
  (x0 x0' x y : A) j k :
  (forall z, In z pre -> ~ P z) -> P x0 ->
  nth_error (pre ++ x0 :: post) j = Some x ->
  nth_error (pre ++ x0 :: post) k = Some y ->
  j < k -> (P y -> P x) ->
  nth_error (pre ++ x0' :: post) k = Some y.
Proof.
  intros Hpre H0 Hj Hk Hlt Hxy.
  destruct (Nat.eq_dec k (length pre)) as [->|Hne].
  - exfalso. rewrite nth_error_app1 in Hj by exact Hlt.
    apply nth_error_In in Hj. apply (Hpre x Hj). apply Hxy.
    rewrite nth_error_app2, Nat.sub_diag in Hk by lia.
    injection Hk as <-. exact H0.
  - rewrite (nth_error_replace_other pre post x0 x0' k Hne). exact Hk.
Qed.

(** X3.  Only the first annotation with a given span can be set.  When
    two annotations of a tier have the same effective span, no call of the
    setter, whatever its span and value, changes the later one. *)
Theorem later_annotation_with_same_span_is_never_set
  (t t' : Eaf) (tier_name : string) (start_ms end_ms : Z)
  (new_value : list ascii) (j k : nat) :
  j < k ->
  (forall x y,
     set_aligned_annotation t tier_name start_ms end_ms new_value = Some t' ->
     aligned_item t tier_name j = Some x ->
     aligned_item t tier_name k = Some y ->
     aligned_span (timeslots t) (snd x) = aligned_span (timeslots t) (snd y) ->
     aligned_item t' tier_name k = Some y) /\
  (forall x y,
     set_ref_annotation t tier_name start_ms end_ms new_value = Some t' ->
     reference_item t tier_name j = Some x ->
     reference_item t tier_name k = Some y ->
     reference_span_in t tier_name (snd x)
     = reference_span_in t tier_name (snd y) ->
     reference_item t' tier_name k = Some y).
Proof.
  intros Hlt. split; intros x y H Hx Hy Hsame.
  - destruct (set_aligned_annotation_spec _ _ _ _ _ _ H)
      as [[-> _]|(td & pre & i & a & post & Et & E & Hsp & Hpre & ->)];
      [exact Hy|].
    unfold aligned_item in *. cbn [tiers with_tier].
    rewrite (assoc_get_set_eq _ _ td _ Et). rewrite Et in Hx, Hy.
    cbn [aligned with_aligned]. rewrite E in Hx, Hy.
    apply (shadowed_item_kept
             (fun z => aligned_span (timeslots t) (snd z)
                       = Some (start_ms, end_ms))
             pre post (i, a) _ x y j k); auto.
    intros Hpy. rewrite Hsame. exact Hpy.
  - destruct (set_ref_annotation_spec _ _ _ _ _ _ H)
      as [[-> _]|(td & pt & pre & i & r & post & Et & Ep & E & Hsp & Hpre & ->)];
      [exact Hy|].
    unfold reference_item, reference_span_in in *. cbn [tiers with_tier].
    rewrite (assoc_get_set_eq _ _ td _ Et). rewrite Et in Hx, Hy, Hsame.
    rewrite Ep in Hsame.
    cbn [reference with_reference]. rewrite E in Hx, Hy.
    apply (shadowed_item_kept
             (fun z => ref_span t pt (snd z) = Some (start_ms, end_ms))
             pre post (i, r) _ x y j k); auto.
    intros Hpy. rewrite Hsame. exact Hpy.
Qed.

Lemma later_annotation_with_same_span_is_never_set_witness :
  reference_item
    (store_after subdivided_store
       (set_ref_annotation subdivided_store "Words" 0 1000 (str "x")))
    "Words" 1
  = reference_item subdivided_store "Words" 1.
Proof.
  refine (proj2 (later_annotation_with_same_span_is_never_set
                   subdivided_store _ "Words" 0 1000 (str "x") 0 1 _)
            _ _ _ _ _ _).
  - lia.
  - vm_compute. reflexivity.
  - vm_compute. reflexivity.
  - vm_compute. reflexivity.
  - vm_compute. reflexivity.
Defined.

(** ** The traversal as a whole *)

Lemma skeleton_names t : map fst (tiers (skeleton t)) = map fst (tiers t).
Proof.
  unfold skeleton. cbn [tiers]. rewrite map_map. apply map_ext.
  intros [n td]. reflexivity.
Qed.

(** X4.  The text redaction changes values only.  When the traversal of
    the tiers returns, the transcript has the timeslots, the tiers and the
    annotations it had, with their identifiers, timeslot references and
    links, and every annotation has the effective span it had. *)
Theorem redaction_changes_values_only (t t' : Eaf) :
  redact t = Some t' ->
  skeleton t' = skeleton t /\
  timeslots t' = timeslots t /\
  map fst (tiers t') = map fst (tiers t) /\
  (forall tier_name, tier_spans t' tier_name = tier_spans t tier_name).
Proof.
  intros H. unfold redact in H.
  assert (Hs : skeleton t' = skeleton t)
    by exact (redact_tiers_skeleton _ _ _ _ H).
  split; [exact Hs|]. split; [|split].
  - exact (f_equal timeslots Hs).
  - rewrite <- (skeleton_names t'), Hs. apply skeleton_names.
  - intros n. rewrite <- (tier_spans_skeleton t'), Hs.
    apply tier_spans_skeleton.
Qed.

Lemma redaction_changes_values_only_witness :
  skeleton (redacted subdivided_store) = skeleton subdivided_store.
Proof.
  refine (proj1 (redaction_changes_values_only subdivided_store
                   (store_after subdivided_store (redact subdivided_store)) _)).
  vm_compute. reflexivity.
Defined.











(** ** Running the traversal again *)







End StoreFacts.

(* ================================================================== *)
(** * Facts about the media descriptors *)
(* ================================================================== *)

Module MediaFacts.
Import Regex Media.

Lemma take_drop_until_slash s :
  take_until_slash s ++ drop_until_slash s = s.
Proof.
  induction s as [|c s IH]; [reflexivity|]. cbn.
  destruct (Ascii.eqb c slash); [reflexivity|]. cbn. rewrite IH. reflexivity.
Qed.

Lemma take_until_slash_no_slash s : ~ In slash (take_until_slash s).
Proof.
  induction s as [|c s IH]; [intros []|]. cbn.
  destruct (Ascii.eqb_spec c slash) as [->|Hne]; [intros []|].
  intros [E|H]; [congruence | exact (IH H)].
Qed.

Lemma url_dir_basename p : url_dir p ++ basename p = p.
Proof.
  unfold url_dir, basename. rewrite <- rev_app_distr, take_drop_until_slash.
  apply rev_involutive.
Qed.

Lemma removesuffix_app x suffix : removesuffix (x ++ suffix) suffix = x.
Proof.
  unfold removesuffix. destruct suffix as [|c suffix]; [apply app_nil_r|].
  rewrite rev_app_distr, RegexFacts.strip_prefix_app. apply rev_involutive.
Qed.

(** X18.  The media links keep their directory.  A path is its part up
    to the last slash followed by its base name, which holds no slash; a
    descriptor whose media file was not anonymized is left as it is; for
    one whose file was, the new [MEDIA_URL] is the directory part of the
    old one followed by the name of the anonymized file, and so is the
    new [RELATIVE_MEDIA_URL] when the old one ends with the name of the
    media file. *)
Theorem media_links_keep_their_directory
  (original_to_anonymized_media : gmap (list ascii) (list ascii))
  (d : media_descriptor) :
  let media_fname := basename (MEDIA_URL d) in
  MEDIA_URL d = url_dir (MEDIA_URL d) ++ media_fname /\
  ~ In slash media_fname /\
  (original_to_anonymized_media !! media_fname = None ->
   rewrite_descriptor original_to_anonymized_media d = Some d) /\
  (forall anonymized_fname rel_dir,
     original_to_anonymized_media !! media_fname = Some anonymized_fname ->
     RELATIVE_MEDIA_URL d = Some (rel_dir ++ media_fname) ->
     rewrite_descriptor original_to_anonymized_media d
     = Some {| MEDIA_URL := url_dir (MEDIA_URL d) ++ anonymized_fname;
               RELATIVE_MEDIA_URL := Some (rel_dir ++ anonymized_fname) |}).
Proof.
  cbv zeta. split; [symmetry; apply url_dir_basename|]. split; [|split].
  - unfold basename. intros H. apply in_rev in H.
    exact (take_until_slash_no_slash _ H).
  - intros H. unfold rewrite_descriptor. cbv zeta. rewrite H. reflexivity.
  - intros new rel_dir H Hrel. unfold rewrite_descriptor. cbv zeta.
    rewrite H, Hrel. rewrite removesuffix_app.
    rewrite <- (url_dir_basename (MEDIA_URL d)) at 1.
    rewrite removesuffix_app. reflexivity.
Qed.

Lemma media_links_keep_their_directory_witness :
  rewrite_descriptor sample_media sample_descriptor
  = Some {| MEDIA_URL := str "file:///data/anonymized/s1-ANONYMIZED.wav";
            RELATIVE_MEDIA_URL := Some (str "./anonymized/s1-ANONYMIZED.wav") |}.
Proof.
  refine (proj2 (proj2 (proj2 (media_links_keep_their_directory
                                 sample_media sample_descriptor)))
            (str "anonymized/s1-ANONYMIZED.wav") (str "./") _ _).
  - vm_compute. reflexivity.
  - reflexivity.
Defined.

End MediaFacts.
